(** * valctx: the field-flag parser, the field resolver and the generated text

    A shallow embedding of [internal/app] of valctx: the functions
    [NewField], [FieldFlag.Validate], [ParseFields] and
    [modifyFirstLetter], with the parts of the Go standard library they
    call ([unicode/utf8], [unicode.IsSpace], [strings], [sort]).  The
    package [internal/gen] is not among the sources: its validators are
    parameters, its template is modelled from the specification and the
    files the tests expect.

    The methods [String] and [Set] of the flags, the file [SafeFile]
    and the root command of [run] in [cmd/valctx] follow, with the
    arguments parsed as [flag.FlagSet.Parse] does, over files and
    directories on which every call may fail.  [NotifyContext], which
    starts a goroutine that waits for a signal, is left out.

    A Go [string] is a sequence of bytes: it is modelled by [string],
    whose characters are the 256 values of [ascii].  A Go [int] or
    [rune] is modelled by [Z]; a [map[string]struct{}] by a [gset]. *)

From Stdlib Require Import ZArith Ascii String Bool Lia.
From stdpp Require Import base tactics option list sorting gmap strings.

Local Open Scope Z_scope.

(** ** Bytes and slices *)

Module GoString.

Definition byte_val (c : ascii) : Z := Z.of_N (N_of_ascii c).
Definition byte_of (z : Z) : ascii := ascii_of_N (Z.to_N z).

(** [len(s)] *)
Definition len (s : string) : Z := Z.of_nat (String.length s).

Fixpoint sdrop (n : nat) (s : string) : string :=
  match n, s with
  | O, _ => s
  | S _, EmptyString => EmptyString
  | S k, String _ t => sdrop k t
  end.

Fixpoint stake (n : nat) (s : string) : string :=
  match n, s with
  | O, _ => EmptyString
  | S _, EmptyString => EmptyString
  | S k, String c t => String c (stake k t)
  end.

(** [s[lo:]] and [s[:hi]] for indices already known to be in range. *)
Definition from (s : string) (lo : Z) : string := sdrop (Z.to_nat lo) s.
Definition upto (s : string) (hi : Z) : string := stake (Z.to_nat hi) s.

(** [s[lo:hi]] as Go evaluates it: a run-time panic ([None]) unless
    [0 <= lo <= hi <= len(s)]. *)
Definition slice (s : string) (lo hi : Z) : option string :=
  if (0 <=? lo) && (lo <=? hi) && (hi <=? len s)
  then Some (stake (Z.to_nat (hi - lo)) (sdrop (Z.to_nat lo) s))
  else None.

(** [s[i]] for [i] in range (0 outside, where Go would panic; only
    used under a bounds test). *)
Definition at_ (s : string) (i : Z) : Z :=
  match String.get (Z.to_nat i) s with
  | Some c => byte_val c
  | None => 0
  end.

End GoString.
Import GoString.

(** ** unicode/utf8 *)

Module utf8.

Definition RuneError : Z := 0xFFFD.
Definition RuneSelf : Z := 0x80.
Definition MaxRune : Z := 0x10FFFF.
Definition UTFMax : Z := 4.

Definition surrogateMin : Z := 0xD800.
Definition surrogateMax : Z := 0xDFFF.

Definition t2 : Z := 0xC0.
Definition t3 : Z := 0xE0.
Definition t4 : Z := 0xF0.
Definition tx : Z := 0x80.
Definition maskx : Z := 0x3F.
Definition mask2 : Z := 0x1F.
Definition mask3 : Z := 0x0F.
Definition mask4 : Z := 0x07.

Definition rune1Max : Z := 0x7F.
Definition rune2Max : Z := 0x7FF.
Definition rune3Max : Z := 0xFFFF.

Definition locb : Z := 0x80.
Definition hicb : Z := 0xBF.

(** Entries of the table [first]: the size of the sequence a byte
    starts in the low bits, the index of the range its second byte
    has to lie in in the high ones. *)
Definition xx : Z := 0xF1.
Definition as_ : Z := 0xF0.
Definition s1 : Z := 0x02.
Definition s2 : Z := 0x13.
Definition s3 : Z := 0x03.
Definition s4 : Z := 0x23.
Definition s5 : Z := 0x34.
Definition s6 : Z := 0x04.
Definition s7 : Z := 0x44.

Definition first (b : Z) : Z :=
  if b <? 0x80 then as_
  else if b <? 0xC2 then xx
  else if b <? 0xE0 then s1
  else if b =? 0xE0 then s2
  else if b <? 0xED then s3
  else if b =? 0xED then s4
  else if b <? 0xF0 then s3
  else if b =? 0xF0 then s5
  else if b <? 0xF4 then s6
  else if b =? 0xF4 then s7
  else xx.

(** [acceptRanges[i]] as the pair (lo, hi). *)
Definition acceptRanges (i : Z) : Z * Z :=
  if i =? 0 then (locb, hicb)
  else if i =? 1 then (0xA0, hicb)
  else if i =? 2 then (locb, 0x9F)
  else if i =? 3 then (0x90, hicb)
  else if i =? 4 then (locb, 0x8F)
  else (0, 0).

(** [DecodeRuneInString]: the first rune of [s] and its width in
    bytes; [(RuneError, 0)] for the empty string, [(RuneError, 1)]
    for an encoding that is not valid. *)
Definition DecodeRuneInString (s : string) : Z * Z :=
  match s with
  | EmptyString => (RuneError, 0)
  | String c0 r0 =>
    let b0 := byte_val c0 in
    let x := first b0 in
    if as_ <=? x then ((if x =? xx then RuneError else b0), 1)
    else
      let sz := Z.land x 7 in
      let accept := acceptRanges (Z.shiftr x 4) in
      if len s <? sz then (RuneError, 1)
      else
        match r0 with
        | EmptyString => (RuneError, 1)
        | String c1 r1 =>
          let b1 := byte_val c1 in
          if (b1 <? fst accept) || (snd accept <? b1) then (RuneError, 1)
          else if sz <=? 2
          then (Z.lor (Z.shiftl (Z.land b0 mask2) 6) (Z.land b1 maskx), 2)
          else
            match r1 with
            | EmptyString => (RuneError, 1)
            | String c2 r2 =>
              let b2 := byte_val c2 in
              if (b2 <? locb) || (hicb <? b2) then (RuneError, 1)
              else if sz <=? 3
              then (Z.lor (Z.lor (Z.shiftl (Z.land b0 mask3) 12)
                                 (Z.shiftl (Z.land b1 maskx) 6))
                          (Z.land b2 maskx), 3)
              else
                match r2 with
                | EmptyString => (RuneError, 1)
                | String c3 _ =>
                  let b3 := byte_val c3 in
                  if (b3 <? locb) || (hicb <? b3) then (RuneError, 1)
                  else (Z.lor (Z.lor (Z.lor (Z.shiftl (Z.land b0 mask4) 18)
                                            (Z.shiftl (Z.land b1 maskx) 12))
                                     (Z.shiftl (Z.land b2 maskx) 6))
                              (Z.land b3 maskx), 4)
                end
            end
        end
  end.

(** [RuneStart(b)]: [b] is not a continuation byte. *)
Definition RuneStart (b : Z) : bool := negb (Z.land b 0xC0 =? 0x80).

(** The backward scan of [DecodeLastRuneInString]:
    [for start--; start >= lim; start-- { if RuneStart(s[start]) { break } }]
    entered with [start] already decremented. *)
Fixpoint scanBack (fuel : nat) (s : string) (start lim : Z) : Z :=
  match fuel with
  | O => start
  | S k =>
    if start <? lim then start
    else if RuneStart (at_ s start) then start
    else scanBack k s (start - 1) lim
  end.

Definition DecodeLastRuneInString (s : string) : Z * Z :=
  let end_ := len s in
  if end_ =? 0 then (RuneError, 0)
  else
    let start := end_ - 1 in
    let r := at_ s start in
    if r <? RuneSelf then (r, 1)
    else
      let lim := Z.max (end_ - UTFMax) 0 in
      let start := scanBack (Z.to_nat UTFMax) s (start - 1) lim in
      let start := Z.max start 0 in
      let '(r, size) := DecodeRuneInString (from s start) in
      if negb (start + size =? end_) then (RuneError, 1) else (r, size).

(** [EncodeRune], returning the bytes written; this is also the
    conversion [string(r)]. *)
Definition EncodeRune (r : Z) : string :=
  let enc3 (r : Z) :=
    String (byte_of (Z.lor t3 (Z.shiftr r 12)))
      (String (byte_of (Z.lor tx (Z.land (Z.shiftr r 6) maskx)))
         (String (byte_of (Z.lor tx (Z.land r maskx))) EmptyString)) in
  if (0 <=? r) && (r <=? rune1Max) then String (byte_of r) EmptyString
  else if (0 <=? r) && (r <=? rune2Max) then
    String (byte_of (Z.lor t2 (Z.shiftr r 6)))
      (String (byte_of (Z.lor tx (Z.land r maskx))) EmptyString)
  else if (r <? 0) || (MaxRune <? r) || ((surrogateMin <=? r) && (r <=? surrogateMax))
  then enc3 RuneError
  else if r <=? rune3Max then enc3 r
  else
    String (byte_of (Z.lor t4 (Z.shiftr r 18)))
      (String (byte_of (Z.lor tx (Z.land (Z.shiftr r 12) maskx)))
         (String (byte_of (Z.lor tx (Z.land (Z.shiftr r 6) maskx)))
            (String (byte_of (Z.lor tx (Z.land r maskx))) EmptyString))).

End utf8.

(** ** unicode *)

(** [unicode.ToUpper] and [unicode.ToLower] look runes above
    [MaxASCII] up in the case tables of the Unicode database that the
    Go runtime carries.  The tables are not part of the program: they
    enter as the two functions of this class. *)
Class CaseTables := {
  upperCase : Z → Z;
  lowerCase : Z → Z
}.

Module unicode.

Definition MaxASCII : Z := 0x7F.
Definition MaxLatin1 : Z := 0xFF.

(** [IsSpace]: the Latin-1 spaces are listed in the function, the
    others are the code points of the property White_Space. *)
Definition IsSpace (r : Z) : bool :=
  if (0 <=? r) && (r <=? MaxLatin1) then
    (r =? 0x09) || (r =? 0x0A) || (r =? 0x0B) || (r =? 0x0C) || (r =? 0x0D)
    || (r =? 0x20) || (r =? 0x85) || (r =? 0xA0)
  else
    (r =? 0x1680) || ((0x2000 <=? r) && (r <=? 0x200A))
    || (r =? 0x2028) || (r =? 0x2029) || (r =? 0x202F)
    || (r =? 0x205F) || (r =? 0x3000).

Definition ToUpper `{CaseTables} (r : Z) : Z :=
  if r <=? MaxASCII then
    (if (0x61 <=? r) && (r <=? 0x7A) then r - (0x61 - 0x41) else r)
  else upperCase r.

Definition ToLower `{CaseTables} (r : Z) : Z :=
  if r <=? MaxASCII then
    (if (0x41 <=? r) && (r <=? 0x5A) then r + (0x61 - 0x41) else r)
  else lowerCase r.

End unicode.

(** ** strings *)

Module strings.

(** [Index(s, sep)]: the first position at which [sep] occurs, or -1. *)
Fixpoint Index (s sep : string) : Z :=
  if String.prefix sep s then 0
  else match s with
       | EmptyString => -1
       | String _ t => let r := Index t sep in if 0 <=? r then r + 1 else -1
       end.

(** [LastIndex(s, sep)]: the last position at which [sep] occurs, or -1. *)
Fixpoint LastIndex (s sep : string) : Z :=
  match s with
  | EmptyString => if String.prefix sep s then 0 else -1
  | String _ t =>
    let r := LastIndex t sep in
    if 0 <=? r then r + 1 else if String.prefix sep s then 0 else -1
  end.

(** The loop of [genSplit], with [k] the number of cuts still allowed. *)
Fixpoint genSplit (k : nat) (s sep : string) : list string :=
  match k with
  | O => [s]
  | S k' =>
    let m := Index s sep in
    if m <? 0 then [s]
    else upto s m :: genSplit k' (from s (m + len sep)) sep
  end.

(** [SplitN(s, sep, n)] for a separator that is not empty and a
    positive [n], the only form the program calls. *)
Definition SplitN (s sep : string) (n : Z) : list string :=
  let n := Z.min n (len s + 1) in
  genSplit (Z.to_nat (n - 1)) s sep.

(** [indexFunc]: [for i, r := range s { if f(r) == truth { return i } }]. *)
Fixpoint indexFunc_go (fuel : nat) (s : string) (f : Z → bool)
    (truth : bool) (i : Z) : Z :=
  match fuel with
  | O => -1
  | S k =>
    if len s <=? i then -1
    else
      let '(r, w) := utf8.DecodeRuneInString (from s i) in
      if Bool.eqb (f r) truth then i
      else indexFunc_go k s f truth (i + w)
  end.

Definition indexFunc (s : string) (f : Z → bool) (truth : bool) : Z :=
  indexFunc_go (String.length s) s f truth 0.

(** [lastIndexFunc]:
    [for i := len(s); i > 0; { r, size := DecodeLastRuneInString(s[0:i]); i -= size; ... }]. *)
Fixpoint lastIndexFunc_go (fuel : nat) (s : string) (f : Z → bool)
    (truth : bool) (i : Z) : Z :=
  match fuel with
  | O => -1
  | S k =>
    if i <=? 0 then -1
    else
      let '(r, size) := utf8.DecodeLastRuneInString (upto s i) in
      let i := i - size in
      if Bool.eqb (f r) truth then i
      else lastIndexFunc_go k s f truth i
  end.

Definition lastIndexFunc (s : string) (f : Z → bool) (truth : bool) : Z :=
  lastIndexFunc_go (String.length s) s f truth (len s).

Definition TrimLeftFunc (s : string) (f : Z → bool) : string :=
  let i := indexFunc s f false in
  if i =? -1 then EmptyString else from s i.

Definition TrimRightFunc (s : string) (f : Z → bool) : string :=
  let i := lastIndexFunc s f false in
  let i :=
    if (0 <=? i) && (utf8.RuneSelf <=? at_ s i)
    then i + snd (utf8.DecodeRuneInString (from s i))
    else i + 1 in
  upto s i.

Definition TrimFunc (s : string) (f : Z → bool) : string :=
  TrimRightFunc (TrimLeftFunc s f) f.

Definition TrimSpace (s : string) : string := TrimFunc s unicode.IsSpace.

(** [Map(mapping, s)]: every rune of [s] replaced by its image, a
    negative image dropping the rune. *)
Fixpoint Map_go (fuel : nat) (mapping : Z → Z) (s : string) : string :=
  match fuel with
  | O => EmptyString
  | S k =>
    match s with
    | EmptyString => EmptyString
    | _ =>
      let '(c, w) := utf8.DecodeRuneInString s in
      let r := mapping c in
      (if 0 <=? r then utf8.EncodeRune r else EmptyString)
        +:+ Map_go k mapping (from s w)
    end
  end.

Definition Map (mapping : Z → Z) (s : string) : string :=
  Map_go (String.length s) mapping s.

Definition ToUpper `{CaseTables} (s : string) : string := Map unicode.ToUpper s.
Definition ToLower `{CaseTables} (s : string) : string := Map unicode.ToLower s.

End strings.

(** ** internal/gen, as far as [ParseFields] uses it *)

Inductive error : Type :=
| ErrInvalidFormat                                 (* errors.New("invalid format") *)
| ErrUnsupportedFlagFormat                         (* errors.New("unsupported flag format") *)
| errorsNew (msg : string)                         (* errors.New(msg) *)
| errInvalidField (name : string) (err : error)    (* fmt.Errorf("invalid field %q: %v", name, err) *)
| errDuplicated (name : string).                   (* fmt.Errorf("field %q is duplicated", name) *)

Module gen.

(** Modelled from the spec: the struct [gen.Field] (internal/gen is
    not among the sources).  [FieldName], [KeyName] and [FieldType]
    are the fields [ParseFields] assigns; [packageAlias] is what
    [SetPackage] records, optional in the spec and
    "set only for CustomType, identifying which import supplies the
    type". *)
Record Field : Type := {
  FieldName : string;
  KeyName : string;
  FieldType : string;
  packageAlias : option string
}.

(** Modelled from the spec: the method [SetPackage] of [gen.Field],
    which records the package a custom type comes from and leaves the
    other fields alone. *)
Definition SetPackage (f : Field) (pkgName : string) : Field :=
  {| FieldName := FieldName f; KeyName := KeyName f;
     FieldType := FieldType f; packageAlias := Some pkgName |}.

(** The assignment [field.FieldType = ty]. *)
Definition setFieldType (f : Field) (ty : string) : Field :=
  {| FieldName := FieldName f; KeyName := KeyName f;
     FieldType := ty; packageAlias := packageAlias f |}.

(** [gen.Package], with the three fields the struct literal in
    [ParseFields] fills in. *)
Record Package : Type := {
  PackageName : string;
  ImportPackages : list string;
  Version : string
}.

(** [gen.Package{}] *)
Definition Package_zero : Package :=
  {| PackageName := ""; ImportPackages := []; Version := "" |}.

(** A line feed, a double quote, and the indentation of the
    generated code. *)
Definition nl : string := String (ascii_of_nat 10) EmptyString.
Definition quote_ : string := String (ascii_of_nat 34) EmptyString.
Definition indent : string := "    ".

(** The type text of a field declared without a type: what
    [ParseFields] assigns for [FieldKindDefault], and the spec's
    "untyped placeholder". *)
Definition untyped : string := "interface{}".

(** Modelled from the spec: the template of [gen.Generate]
    (internal/gen is not among the sources).  The spec gives the
    structure: a header with the tool version and a do-not-edit
    notice, the package clause, the import block, and per field a key
    type, a getter and a setter.  The text of each line is the one
    [TestRun] expects in the generated file. *)
Definition header (pkg : Package) : string :=
  "// Code generated by valctx " +:+ Version pkg +:+ ". DO NOT EDIT." +:+ nl
  +:+ nl
  +:+ "package " +:+ PackageName pkg +:+ nl
  +:+ nl
  +:+ "import (" +:+ nl
  +:+ String.concat "" (map (λ imp, indent +:+ quote_ +:+ imp +:+ quote_ +:+ nl)
                            (ImportPackages pkg))
  +:+ ")" +:+ nl.

(** Modelled from the spec: the key type of a field, "an empty marker
    type named keyName". *)
Definition keyType (f : Field) : string :=
  "type " +:+ KeyName f +:+ " struct{}" +:+ nl.

(** Modelled from the spec: the getter of a field without a type,
    which "returns the stored value directly (no presence flag)". *)
Definition getterUntyped (f : Field) : string :=
  "// Get " +:+ FieldName f +:+ " retrieves the " +:+ FieldName f
    +:+ " from the context." +:+ nl
  +:+ "func Get" +:+ FieldName f +:+ "(ctx context.Context) " +:+ untyped +:+ " {" +:+ nl
  +:+ indent +:+ "v := ctx.Value(" +:+ KeyName f +:+ "{})" +:+ nl
  +:+ indent +:+ "return v" +:+ nl
  +:+ "}" +:+ nl.

(** Modelled from the spec: the getter of a typed field, which
    "returns a (value, present-boolean) pair, where present reflects
    whether a value of the expected type was actually stored". *)
Definition getterTyped (f : Field) : string :=
  "// Get " +:+ FieldName f +:+ " retrieves the " +:+ FieldName f
    +:+ " from the context." +:+ nl
  +:+ "func Get" +:+ FieldName f +:+ "(ctx context.Context) ("
    +:+ FieldType f +:+ ", bool) {" +:+ nl
  +:+ indent +:+ "v, ok := ctx.Value(" +:+ KeyName f +:+ "{}).("
    +:+ FieldType f +:+ ")" +:+ nl
  +:+ indent +:+ "return v, ok" +:+ nl
  +:+ "}" +:+ nl.

(** Modelled from the spec: the choice between the two getters, by
    the type text of the field. *)
Definition getter (f : Field) : string :=
  if decide (FieldType f = untyped) then getterUntyped f else getterTyped f.

(** Modelled from the spec: the setter, which "takes the typed value
    and returns a new context carrying it under that field's private
    key". *)
Definition setter (f : Field) : string :=
  "// Set" +:+ FieldName f +:+ " sets the " +:+ FieldName f
    +:+ " in the context." +:+ nl
  +:+ "func Set" +:+ FieldName f +:+ "(ctx context.Context, v "
    +:+ FieldType f +:+ ") context.Context {" +:+ nl
  +:+ indent +:+ "return context.WithValue(ctx, " +:+ KeyName f +:+ "{}, v)" +:+ nl
  +:+ "}" +:+ nl.

(** Modelled from the spec: the three declarations of a field, each
    after an empty line. *)
Definition declarations (f : Field) : string :=
  nl +:+ keyType f +:+ nl +:+ getter f +:+ nl +:+ setter f.

(** Modelled from the spec: the text [gen.Generate] writes, the
    header followed by the declarations of the fields in their order. *)
Definition Generate (pkg : Package) (fs : list Field) : string :=
  header pkg +:+ String.concat "" (map declarations fs).

End gen.

(** The methods [Validate] of [gen.Field] and of [gen.Package] are
    called by [ParseFields] and defined in internal/gen: they enter as
    parameters, [None] standing for a nil error. *)
Class GenValidate := {
  Field_Validate : gen.Field → option error;
  Package_Validate : gen.Package → option error
}.

(** ** internal/app *)

Definition FieldKindDefault : Z := 0.
Definition FieldKindBuiltInOnly : Z := 1.
Definition FieldKindCustomType : Z := 2.

Record FieldFlag : Type := {
  Kind : Z;
  Name : string;
  Type_ : string
}.

(** [FieldFlag{}] *)
Definition FieldFlag_zero : FieldFlag := {| Kind := 0; Name := ""; Type_ := "" |}.

(** [s[size:]] is in range whatever [s] is: see [modifyFirstLetter_in_range]. *)
Definition modifyFirstLetter (s : string) (modify : string → string) : string :=
  let '(r, size) := utf8.DecodeRuneInString s in
  modify (utf8.EncodeRune r) +:+ from s size.

(** The receiver is a pointer: [None] is [nil]. *)
Definition Validate (f : option FieldFlag) : option error :=
  match f with
  | None => Some ErrInvalidFormat
  | Some f =>
    if decide (Name f = "") then Some (errorsNew "name is required")
    else if Kind f =? FieldKindDefault then None
    else if decide (Type_ f = "") then Some (errorsNew "type is required")
    else if (Kind f =? FieldKindBuiltInOnly) || (Kind f =? FieldKindCustomType) then None
    else Some ErrUnsupportedFlagFormat
  end.

Definition NewField `{CaseTables} (value : string) : FieldFlag * option error :=
  let parts := strings.SplitN value ":" 2 in
  match parts with
  | [p0] =>
    let p0 := strings.TrimSpace p0 in
    let f := {| Kind := FieldKindDefault;
                Name := modifyFirstLetter p0 strings.ToUpper;
                Type_ := "" |} in
    (f, Validate (Some f))
  | [p0; p1] =>
    let p0 := strings.TrimSpace p0 in
    let p1 := strings.TrimSpace p1 in
    let dot := strings.LastIndex p1 "." in
    let slash := strings.LastIndex p1 "/" in
    if slash <? dot then
      let f := {| Kind := FieldKindCustomType;
                  Name := modifyFirstLetter p0 strings.ToUpper;
                  Type_ := strings.TrimSpace p1 |} in
      (f, Validate (Some f))
    else if dot =? -1 then
      let f := {| Kind := FieldKindBuiltInOnly;
                  Name := modifyFirstLetter p0 strings.ToUpper;
                  Type_ := strings.TrimSpace p1 |} in
      (f, Validate (Some f))
    else (FieldFlag_zero, Some ErrInvalidFormat)
  | _ => (FieldFlag_zero, Some ErrInvalidFormat)
  end.

(** [FieldFlags.Set]: the flag is appended only when it parses. *)
Definition FieldFlags_Set `{CaseTables} (a : list FieldFlag) (value : string)
    : list FieldFlag * option error :=
  match NewField value with
  | (_, Some err) => (a, Some err)
  | (f, None) => (a ++ [f], None)
  end.

(** What one pass through the body of a loop leads to. *)
Inductive step (A : Type) : Type :=
| Continue (a : A)       (* the loop goes on *)
| Abort (err : error)    (* return gen.Package{}, nil, err *)
| Crash.                 (* run-time panic: slice bounds out of range *)
Arguments Continue {A} a.
Arguments Abort {A} err.
Arguments Crash {A}.

(** What a call leads to. *)
Inductive outcome (A : Type) : Type :=
| Panic
| Return (a : A).
Arguments Panic {A}.
Arguments Return {A} a.

(** The [switch f.Kind] of [ParseFields]. *)
Definition resolveType (f : FieldFlag) (field : gen.Field) (seenPkgs : gset string)
    : step (gen.Field * gset string) :=
  if Kind f =? FieldKindDefault then
    Continue (gen.setFieldType field "interface{}", seenPkgs)
  else if Kind f =? FieldKindBuiltInOnly then
    Continue (gen.setFieldType field (Type_ f), seenPkgs)
  else if Kind f =? FieldKindCustomType then
    let dot := strings.LastIndex (Type_ f) "." in
    match slice (Type_ f) 0 dot with
    | None => Crash
    | Some pkgName =>
      let seenPkgs := {[pkgName]} ∪ seenPkgs in
      let slash := strings.LastIndex pkgName "/" in
      let field := gen.SetPackage field pkgName in
      match slice (Type_ f) (slash + 1) (len (Type_ f)) with
      | None => Crash
      | Some ty => Continue (gen.setFieldType field ty, seenPkgs)
      end
    end
  else Abort ErrUnsupportedFlagFormat.

(** The [for _, f := range fs] of [ParseFields], from the state
    ([genFields], [seenFields], [seenPkgs]) it has reached. *)
Fixpoint resolveFields `{CaseTables} `{GenValidate} (fs : list FieldFlag)
    (genFields : list gen.Field) (seenFields seenPkgs : gset string)
    : step (list gen.Field * gset string) :=
  match fs with
  | [] => Continue (genFields, seenPkgs)
  | f :: fs =>
    let field := {| gen.FieldName := Name f;
                    gen.KeyName := modifyFirstLetter (Name f) strings.ToLower +:+ "Key";
                    gen.FieldType := "";
                    gen.packageAlias := None |} in
    match resolveType f field seenPkgs with
    | Crash => Crash
    | Abort err => Abort err
    | Continue (field, seenPkgs) =>
      match Field_Validate field with
      | Some err => Abort (errInvalidField (Name f) err)
      | None =>
        if decide (gen.FieldName field ∈ seenFields)
        then Abort (errDuplicated (gen.FieldName field))
        else resolveFields fs (genFields ++ [field])
               ({[gen.FieldName field]} ∪ seenFields) seenPkgs
      end
    end
  end.

(** [sort.Sort(sort.StringSlice(x))]: [x] rearranged into ascending
    order of [<] on strings, which compares byte by byte. *)
Definition sort_Strings (x : list string) : list string := merge_sort String.le x.

(** [for imp := range seenPkgs] visits the keys of the map in an order
    the runtime chooses at every loop: an [order] lists the keys of a
    map, each once, in some sequence. *)
Definition rangeOrder (order : gset string → list string) : Prop :=
  ∀ m, order m ≡ₚ elements m.

Definition ParseFields `{CaseTables} `{GenValidate}
    (order : gset string → list string) (pkg version : string)
    (fs : list FieldFlag) : outcome (gen.Package * list gen.Field * option error) :=
  match resolveFields fs [] ∅ {["context"]} with
  | Crash => Panic
  | Abort err => Return (gen.Package_zero, [], Some err)
  | Continue (genFields, seenPkgs) =>
    let toImport := sort_Strings (order seenPkgs) in
    let genPkg := {| gen.PackageName := pkg;
                     gen.ImportPackages := toImport;
                     gen.Version := version |} in
    match Package_Validate genPkg with
    | Some err => Return (gen.Package_zero, [], Some err)
    | None => Return (genPkg, genFields, None)
    end
  end.

(** A table that maps no rune above [MaxASCII]: enough for identifiers
    written in ASCII, and right for every rune that has no case. *)
Definition asciiCase : CaseTables := {| upperCase := id; lowerCase := id |}.

(** The case tables of Go on the runes of Latin-1 above ASCII, U+0080
    to U+00FF, and on their upper cases: U+00E0 to U+00FE without the
    division sign are the lower case of U+00C0 to U+00DE, the upper
    case of U+00FF is U+0178, and that of the micro sign, U+00B5, is
    U+039C, whose lower case is U+03BC.  Any other rune is left as it
    is: the tables are for strings whose first rune is in Latin-1. *)
Definition latin1Case : CaseTables :=
  {| upperCase r :=
       if (0xE0 <=? r) && (r <=? 0xFE) && negb (r =? 0xF7) then r - 32
       else if r =? 0xFF then 0x178
       else if r =? 0xB5 then 0x39C
       else r;
     lowerCase r :=
       if (0xC0 <=? r) && (r <=? 0xDE) && negb (r =? 0xD7) then r + 32
       else if r =? 0x178 then 0xFF
       else if r =? 0x39C then 0x3BC
       else r |}.

(** Validators that accept everything. *)
Definition acceptAll : GenValidate :=
  {| Field_Validate := λ _, None; Package_Validate := λ _, None |}.

(** The flags of a command line, set one after the other:
    [flag.FlagSet.Parse] stops at the first one [Set] rejects. *)
Fixpoint setFields `{CaseTables} (a : list FieldFlag) (values : list string)
    : option (list FieldFlag) :=
  match values with
  | [] => Some a
  | value :: values =>
    match FieldFlags_Set a value with
    | (a, None) => setFields a values
    | (_, Some _) => None
    end
  end.

(** The file a run of the tool writes for the package [pkg] and the
    flags [fields] (the root command of [run]): nothing when a flag is
    rejected, when the package or the fields are missing, or when
    [ParseFields] fails. *)
Definition generated `{CaseTables} `{GenValidate}
    (order : gset string → list string) (pkg version : string)
    (fields : list string) : option string :=
  match setFields [] fields with
  | None => None
  | Some fs =>
    if decide (pkg = "") then None
    else if decide (fs = []) then None
    else match ParseFields order pkg version fs with
         | Return (genPkg, genFields, None) => Some (gen.Generate genPkg genFields)
         | _ => None
         end
  end.

(** Lines, each closed by a line feed. *)
Definition lines (l : list string) : string :=
  String.concat "" (map (λ s, s +:+ gen.nl) l).

(** ** Notions the statements use *)

Section notions.
Import utf8 strings.
Context `{CaseTables} `{GenValidate}.

(** A string is synchronised when it does not start inside an
    encoding: it is empty or its first byte is no continuation byte. *)
Definition sync (s : string) : Prop :=
  match s with
  | EmptyString => True
  | String c _ => ¬ (locb ≤ byte_val c ≤ hicb)
  end.

(** What [DecodeRuneInString] returns: nothing for the empty string,
    [RuneError] with width 1 for an encoding that is not valid, and
    else the rune of a well-formed sequence of one to four bytes. *)
Inductive decoded : string → Z → Z → Prop :=
| decoded_empty : decoded EmptyString RuneError 0
| decoded_invalid c s : decoded (String c s) RuneError 1
| decoded_1 c s :
    byte_val c < RuneSelf → decoded (String c s) (byte_val c) 1
| decoded_2 c0 c1 s :
    0xC2 ≤ byte_val c0 ≤ 0xDF → locb ≤ byte_val c1 ≤ hicb →
    decoded (String c0 (String c1 s))
      (Z.lor (Z.land (byte_val c0) mask2 ≪ 6) (Z.land (byte_val c1) maskx)) 2
| decoded_3 c0 c1 c2 s :
    0xE0 ≤ byte_val c0 ≤ 0xEF →
    locb ≤ byte_val c1 ≤ hicb → locb ≤ byte_val c2 ≤ hicb →
    (byte_val c0 = 0xE0 → 0xA0 ≤ byte_val c1) →
    (byte_val c0 = 0xED → byte_val c1 ≤ 0x9F) →
    decoded (String c0 (String c1 (String c2 s)))
      (Z.lor (Z.lor (Z.land (byte_val c0) mask3 ≪ 12)
                    (Z.land (byte_val c1) maskx ≪ 6))
             (Z.land (byte_val c2) maskx)) 3
| decoded_4 c0 c1 c2 c3 s :
    0xF0 ≤ byte_val c0 ≤ 0xF4 →
    locb ≤ byte_val c1 ≤ hicb → locb ≤ byte_val c2 ≤ hicb →
    locb ≤ byte_val c3 ≤ hicb →
    (byte_val c0 = 0xF0 → 0x90 ≤ byte_val c1) →
    (byte_val c0 = 0xF4 → byte_val c1 ≤ 0x8F) →
    decoded (String c0 (String c1 (String c2 (String c3 s))))
      (Z.lor (Z.lor (Z.lor (Z.land (byte_val c0) mask4 ≪ 18)
                           (Z.land (byte_val c1) maskx ≪ 12))
                    (Z.land (byte_val c2) maskx ≪ 6))
             (Z.land (byte_val c3) maskx)) 4.

(** Where [TrimRightFunc] cuts, given the index [lastIndexFunc] found. *)
Definition cut (s : string) (j : Z) : Z :=
  if (0 <=? j) && (RuneSelf <=? at_ s j)
  then j + snd (DecodeRuneInString (from s j))
  else j + 1.

(** [e] is a place where [TrimRightFunc] stops: the start of the
    string, or the end of a rune that is not a space. *)
Definition stops (s : string) (e : Z) : Prop :=
  e = 0 ∨
  (0 < e ≤ len s ∧
   unicode.IsSpace (DecodeLastRuneInString (upto s e)).1 = false).

(** A string is trimmed on the left when no space starts it. *)
Definition ltrimmed (s : string) : Prop :=
  s = EmptyString ∨ unicode.IsSpace (DecodeRuneInString s).1 = false.

(** The name a flag gets: its first part, trimmed, first letter
    upper-cased. *)
Definition fieldName (p0 : string) : string := modifyFirstLetter (TrimSpace p0) ToUpper.

(** The error of [Validate] on a flag of a supported kind. *)
Definition validation (name ty : string) (typed : bool) : option error :=
  if decide (name = EmptyString) then Some (errorsNew "name is required")
  else if typed && bool_decide (ty = EmptyString)
       then Some (errorsNew "type is required")
       else None.

(** The descriptor [NewField] returns, whether it comes with an error
    or not. *)
Definition flag (value : string) : FieldFlag := (NewField value).1.

(** The field [ParseFields] starts from: the struct literal at the
    head of the loop body. *)
Definition newField (f : FieldFlag) : gen.Field :=
  {| gen.FieldName := Name f;
     gen.KeyName := modifyFirstLetter (Name f) ToLower +:+ "Key";
     gen.FieldType := EmptyString;
     gen.packageAlias := None |}.

(** The field the [switch] leaves, apart from the set of imports. *)
Definition fieldOf (f : FieldFlag) : step gen.Field :=
  match resolveType f (newField f) ∅ with
  | Continue (g, _) => Continue g
  | Abort err => Abort err
  | Crash => Crash
  end.

(** The import path a flag asks for. *)
Definition importPath (ty : string) : string := upto ty (LastIndex ty ".").

(** The import paths a flag, and a sequence of flags, add to [seenPkgs]. *)
Definition pathOf (f : FieldFlag) : gset string :=
  if Kind f =? FieldKindCustomType then {[ importPath (Type_ f) ]} else ∅.

Fixpoint pkgPaths (fs : list FieldFlag) : gset string :=
  match fs with
  | [] => ∅
  | f :: fs => pathOf f ∪ pkgPaths fs
  end.

(** A flag passes when the [switch] and [Validate] let it through. *)
Definition passes (f : FieldFlag) : Prop :=
  ∃ g, fieldOf f = Continue g ∧ Field_Validate g = None.

(** [sub] occurs in [s]. *)
Definition Contains (s sub : string) : Prop := ∃ pre post, s = pre +:+ sub +:+ post.

End notions.

(** ** internal/app: printing the flags *)

(** [FieldFlag.String]; [None] is the [nil] receiver, and
    [fmt.Sprintf("%s:%s", f.Name, f.Type)] joins the two strings with
    a colon. *)
Definition FieldFlag_String (f : option FieldFlag) : string :=
  match f with
  | None => ""
  | Some f =>
    if Kind f =? FieldKindDefault then Name f
    else Name f +:+ ":" +:+ Type_ f
  end.

(** [strings.Join]: nothing for no element, else the first element
    and then, for every further one, the separator and the element
    written to the builder. *)
Definition Join (elems : list string) (sep : string) : string :=
  match elems with
  | [] => ""
  | e :: elems => foldl (λ b s, b +:+ sep +:+ s) e elems
  end.

(** [FieldFlags.String]; the loop variable of
    [for _, f := range *a] is addressable, so that [f.String()] never
    has a [nil] receiver. *)
Definition FieldFlags_String (a : option (list FieldFlag)) : string :=
  match a with
  | None => ""
  | Some a => Join (map (λ f, FieldFlag_String (Some f)) a) ","
  end.

(** ** The file system *)

(** The errors of the part of a run that writes the file: those the
    operating system or the writer reports, and those [fmt.Errorf]
    builds around them. *)
Inductive ferror : Type :=
| osError (msg : string)                      (* an error of package os, or of a writer *)
| wrapped (context : string) (err : ferror)   (* fmt.Errorf(context + ": %v", err) *)
| joined (err closeErr : ferror).             (* fmt.Errorf("%v; %v", err, closeErr) *)

(** The files, by path, with their contents. *)
Notation FileSystem := (gmap string string).


(** A call of the operating system may fail for reasons that are not
    in the model (permissions, a full disk, ...): its [fault] is the
    error the system then answers with, [None] when the system lets
    the call through.  A call on a file that fails changes nothing. *)

(** [os.Remove] *)
Definition os_Remove (fault : option ferror) (name : string) (fs : FileSystem)
    : FileSystem * option ferror :=
  match fault with
  | Some err => (fs, Some err)
  | None =>
    match fs !! name with
    | Some _ => (delete name fs, None)
    | None => (fs, Some (osError "no such file or directory"))
    end
  end.

(** [os.Rename]: a file that is at [newpath] is replaced. *)
Definition os_Rename (fault : option ferror) (oldpath newpath : string) (fs : FileSystem)
    : FileSystem * option ferror :=
  match fault with
  | Some err => (fs, Some err)
  | None =>
    match fs !! oldpath with
    | Some data => (<[newpath := data]> (delete oldpath fs), None)
    | None => (fs, Some (osError "no such file or directory"))
    end
  end.

(** [os.File.Close], given whether the file is closed already: the
    error is then the [*os.PathError] that prints as
    "close <name>: file already closed".  The file is closed
    afterwards in every case. *)
Definition File_Close (fault : option ferror) (name : string) (closed : bool)
    : option ferror :=
  if closed then Some (osError ("close " +:+ name +:+ ": file already closed"))
  else fault.



(** What the environment decides in the course of one run: the
    functions [filepath.Clean] and [filepath.Dir], the parents
    [os.MkdirAll] makes, the name [ioutil.TempFile] picks, and the
    fault of every call. *)
Record Env : Type := {
  Clean : string → string;
  Dir : string → string;
  statFault : option ferror;
  mkdirFault : option ferror;
  made : gset string;
  tempFault : option ferror;
  tempName : string;
  closeFault : option ferror;
  removeFault : option ferror;
  renameFault : option ferror
}.

(** An environment in which no call fails, for paths that are clean
    file names in the working directory. *)
Definition noFaults (temp : string) : Env :=
  {| Clean := id; Dir := λ _, "."; statFault := None; mkdirFault := None; made := ∅;
     tempFault := None; tempName := temp;
     closeFault := None; removeFault := None; renameFault := None |}.

(** ** internal/app: the file that is written *)

(** The struct [SafeFile]: of the embedded [*os.File], its name and
    whether it is closed. *)
Record SafeFile : Type := {
  File_Name : string;
  File_closed : bool;
  output : string;
  rmOnClose : bool
}.



(** [SafeFile.Close]; the results of the two [_ = os.Remove(...)]
    are dropped. *)
Definition SafeFile_Close (env : Env) (f : SafeFile) (fs : FileSystem)
    : SafeFile * FileSystem * option ferror :=
  let err := File_Close (closeFault env) (File_Name f) (File_closed f) in
  let f := {| File_Name := File_Name f; File_closed := true;
              output := output f; rmOnClose := rmOnClose f |} in
  match err with
  | Some err =>
    let '(fs, _) := os_Remove (removeFault env) (File_Name f) fs in
    (f, fs, Some (wrapped "close temporary file" err))
  | None =>
    if rmOnClose f then
      let '(fs, err) := os_Remove (removeFault env) (File_Name f) fs in
      match err with
      | Some err => (f, fs, Some (wrapped "remove temporary file" err))
      | None => (f, fs, None)
      end
    else
      let '(fs, err) := os_Rename (renameFault env) (File_Name f) (output f) fs in
      match err with
      | Some err =>
        let '(fs, _) := os_Remove (removeFault env) (File_Name f) fs in
        (f, fs, Some (wrapped "rename to output file" err))
      | None => (f, fs, None)
      end
  end.

(** ** cmd/valctx *)

(** What [run] uses of the [io.WriteCloser] that [openFile] returns:
    the method [Close] and, when the dynamic type has it, the method
    [WithRename] of the interface [renamer].  [W] is the state the
    methods act on, [F] the state of the file itself.  ([Write] is
    called by [gen.Generate] only.) *)
Record WriteCloser (W F : Type) : Type := {
  Close : F → W → F * W * option ferror;
  WithRename : option (F → W → F * W)
}.
Arguments Close {W F} _ _ _.
Arguments WithRename {W F} _.

(** The closure [generate] of [run], with its deferred [Close];
    [gen.Generate], which is not among the sources, enters as the
    function [Generate], already applied to the package and the
    fields. *)
Definition generate {W F : Type} (methods : WriteCloser W F)
    (openFile : W → W * (ferror + F))
    (Generate : F → W → W * option ferror) (w : W) : W * option ferror :=
  let '(w, r) := openFile w in
  match r with
  | inl err => (w, Some (wrapped "open file" err))
  | inr file =>
    let '(w, err) := Generate file w in
    match err with
    | Some err =>
      let err := wrapped "generate" err in
      let '(_, w, closeErr) := Close methods file w in
      match closeErr with
      | Some closeErr => (w, Some (joined err closeErr))
      | None => (w, Some err)
      end
    | None =>
      let '(file, w) :=
        match WithRename methods with
        | Some rename => rename file w
        | None => (file, w)
        end in
      let '(_, w, closeErr) := Close methods file w in
      (w, closeErr)
    end
  end.


(** The [mockFile] of the tests, with functions that record the call
    and, for [closeFn], return a given error. *)
Inductive call : Type := CallClose | CallWithRename.

Definition mockFile_methods (closeErr : option ferror) : WriteCloser (list call) unit :=
  {| Close := λ m calls, (m, calls ++ [CallClose], closeErr);
     WithRename := Some (λ m calls, (m, calls ++ [CallWithRename])) |}.

(** ** flag *)

(** The three variables the flags of the root command set. *)
Record RootFlags : Type := {
  flagOutput : string;
  flagPackage : string;
  flagFields : list FieldFlag
}.

(** [var output string; var pkg string; var fields app.FieldFlags],
    with the defaults of [StringVar]. *)
Definition RootFlags_zero : RootFlags :=
  {| flagOutput := ""; flagPackage := ""; flagFields := [] |}.

(** The loop [for i := 1; i < len(name); i++ { if name[i] == '=' ... }]
    of [parseOne]: the index of the first [=] behind the first byte. *)
Fixpoint equalsIndex (fuel : nat) (name : string) (i : Z) : option Z :=
  match fuel with
  | O => None
  | S k =>
    if len name <=? i then None
    else if at_ name i =? 61 then Some i
    else equalsIndex k name (i + 1)
  end.

(** [flag.Value.Set(value)] for the flag [name] of the root command:
    [-output] and [-package] are string flags, whose [Set] stores the
    value, [-field] is the [FieldFlags].  [None] is the failure of
    [parseOne]: the flag is not defined (also [-h] and [-help], which
    give [ErrHelp]), or its [Set] returns an error. *)
Definition RootFlags_Set `{CaseTables} (name value : string) (fl : RootFlags)
    : option RootFlags :=
  if decide (name = "output") then
    Some {| flagOutput := value; flagPackage := flagPackage fl;
            flagFields := flagFields fl |}
  else if decide (name = "package") then
    Some {| flagOutput := flagOutput fl; flagPackage := value;
            flagFields := flagFields fl |}
  else if decide (name = "field") then
    match FieldFlags_Set (flagFields fl) value with
    | (a, None) =>
      Some {| flagOutput := flagOutput fl; flagPackage := flagPackage fl;
              flagFields := a |}
    | (_, Some _) => None
    end
  else None.

(** [rootCmd.Parse(args)], the loop of [flag.FlagSet.Parse] over
    [parseOne], with [ContinueOnError]: [None] is an error.  No flag
    of the root command is a boolean flag, so that a flag without [=]
    takes the next argument as its value.  Parsing ends at the first
    argument that is no flag, and behind [--]. *)
Fixpoint Parse `{CaseTables} (args : list string) (fl : RootFlags) : option RootFlags :=
  match args with
  | [] => Some fl
  | s :: args =>
    if (len s <? 2) || negb (at_ s 0 =? 45) then Some fl
    else
      let numMinuses := if at_ s 1 =? 45 then 2 else 1 in
      if (numMinuses =? 2) && (len s =? 2) then Some fl
      else
        let name := from s numMinuses in
        if (len name =? 0) || (at_ name 0 =? 45) || (at_ name 0 =? 61) then None
        else
          match equalsIndex (String.length name) name 1 with
          | Some i =>
            match RootFlags_Set (upto name i) (from name (i + 1)) fl with
            | Some fl => Parse args fl
            | None => None
            end
          | None =>
            match args with
            | [] =>
              (* "flag provided but not defined" or "flag needs an argument" *)
              None
            | value :: args =>
              match RootFlags_Set name value fl with
              | Some fl => Parse args fl
              | None => None
              end
            end
          end
  end.

(** The root command of [run], the [default] of its [switch]; the
    result is the exit code and the error of [run], and what is
    printed to [stderr] is left out. *)
Definition rootCmd {W F : Type} `{CaseTables} `{GenValidate}
    (order : gset string → list string) (version : string)
    (args : list string)
    (methods : WriteCloser W F)
    (openFile : string → W → W * (ferror + F))
    (Generate : gen.Package → list gen.Field → F → W → W * option ferror)
    (w : W) : outcome (W * Z * option ferror) :=
  match Parse args RootFlags_zero with
  | None => Return (w, 2, None)
  | Some fl =>
    if decide (flagOutput fl = "") then Return (w, 2, None)
    else if decide (flagPackage fl = "") then Return (w, 2, None)
    else if decide (flagFields fl = []) then Return (w, 2, None)
    else
      match ParseFields order (flagPackage fl) version (flagFields fl) with
      | Panic => Panic
      | Return (_, _, Some _) => Return (w, 2, None)
      | Return (genPkg, genFields, None) =>
        let '(w, err) :=
          generate methods (openFile (flagOutput fl)) (Generate genPkg genFields) w in
        match err with
        | Some err => Return (w, 1, Some err)
        | None => Return (w, 0, None)
        end
      end
  end.

(** ** Further notions *)

(** A string is trimmed on the right when no space ends it. *)
Definition rtrimmed (s : string) : Prop :=
  s = EmptyString ∨ unicode.IsSpace (utf8.DecodeLastRuneInString s).1 = false.

(** The upper case and the lower case of an ASCII byte. *)
Definition upperByte (c : ascii) : ascii :=
  if (0x61 <=? byte_val c) && (byte_val c <=? 0x7A) then byte_of (byte_val c - 32) else c.

Definition lowerByte (c : ascii) : ascii :=
  if (0x41 <=? byte_val c) && (byte_val c <=? 0x5A) then byte_of (byte_val c + 32) else c.

(** The name of the key type of a field. *)
Definition keyName `{CaseTables} (name : string) : string :=
  modifyFirstLetter name strings.ToLower +:+ "Key".

(** A flag is parsed when [NewField] returns it, with an error or not. *)
Definition parsed `{CaseTables} (f : FieldFlag) : Prop :=
  ∃ value err, NewField value = (f, err).

(** The name of a value, trimmed, starts with an ASCII byte. *)
Definition asciiName (value : string) : Prop :=
  ∃ (p0 : string) (rest : list string) (c : ascii) (s : string),
    strings.SplitN value ":" 2 = p0 :: rest ∧
    strings.TrimSpace p0 = String c s ∧ byte_val c < utf8.RuneSelf.



(** Validators of which that of the fields rejects one type text and
    accepts every other.  [gen.Field.Validate] (internal/gen is not
    among the sources) rejects types that [NewField] accepts: in
    [TestRun], "not built-in types #2", the one flag
    [-field Field2:strings] ends [run] with the exit code 2 of a
    failing [ParseFields], where the package [gen] and the flag pass
    every other test, so that with [rejecting "strings"] the model
    agrees with the code on that run. *)
Definition rejecting (ty : string) : GenValidate :=
  {| Field_Validate := λ g,
       if decide (gen.FieldType g = ty) then Some (errorsNew "invalid type") else None;
     Package_Validate := λ _, None |}.

(** The type text [ParseFields] gives the field of a flag. *)
Definition emittedType (f : FieldFlag) : string :=
  if Kind f =? FieldKindDefault then "interface{}"
  else if Kind f =? FieldKindCustomType
  then from (Type_ f) (strings.LastIndex (importPath (Type_ f)) "/" + 1)
  else Type_ f.

(** Modelled from the spec: the two forms of the getter that
    [gen.Generate] (internal/gen is not among the sources) writes, as
    texts of the name, the key and the type: the one that "returns the
    stored value directly (no presence flag)", and the one that
    "returns a (value, present-boolean) pair". *)
Definition getterValue (name key : string) : string :=
  lines [ "// Get " +:+ name +:+ " retrieves the " +:+ name +:+ " from the context.";
          "func Get" +:+ name +:+ "(ctx context.Context) interface{} {";
          "    v := ctx.Value(" +:+ key +:+ "{})";
          "    return v";
          "}" ].

Definition getterPair (name key ty : string) : string :=
  lines [ "// Get " +:+ name +:+ " retrieves the " +:+ name +:+ " from the context.";
          "func Get" +:+ name +:+ "(ctx context.Context) (" +:+ ty +:+ ", bool) {";
          "    v, ok := ctx.Value(" +:+ key +:+ "{}).(" +:+ ty +:+ ")";
          "    return v, ok";
          "}" ].

(** * Properties *)

(** ** Slices *)

Section slices.
Implicit Types (s t : string) (n m : nat) (c : ascii).

Lemma len_nonneg s : 0 ≤ len s.
Proof. unfold len. lia. Qed.

Lemma len_String c s : len (String c s) = 1 + len s.
Proof. unfold len. simpl. lia. Qed.

Lemma len_empty s : len s = 0 ↔ s = EmptyString.
Proof. destruct s; [done|]. rewrite len_String. pose proof (len_nonneg s). split; [lia|done]. Qed.

Lemma byte_val_range c : 0 ≤ byte_val c < 256.
Proof. unfold byte_val. pose proof (N_ascii_bounded c). lia. Qed.

Lemma byte_of_val c : byte_of (byte_val c) = c.
Proof. unfold byte_of, byte_val. rewrite N2Z.id. apply ascii_N_embedding. Qed.

Lemma byte_val_of z : 0 ≤ z < 256 → byte_val (byte_of z) = z.
Proof.
  intros Hz. unfold byte_of, byte_val.
  rewrite N_ascii_embedding by lia. lia.
Qed.

Lemma sdrop_empty n : sdrop n EmptyString = EmptyString.
Proof. by destruct n. Qed.

Lemma stake_empty n : stake n EmptyString = EmptyString.
Proof. by destruct n. Qed.

Lemma length_stake n s : String.length (stake n s) = Nat.min n (String.length s).
Proof. revert s. induction n as [|n IH]; intros [|c s]; simpl; auto. Qed.

Lemma length_sdrop n s : String.length (sdrop n s) = (String.length s - n)%nat.
Proof. revert s. induction n as [|n IH]; intros [|c s]; simpl; auto. Qed.

Lemma stake_all n s : (String.length s ≤ n)%nat → stake n s = s.
Proof.
  revert s. induction n as [|n IH]; intros [|c s]; simpl; intros; auto; try lia.
  f_equal. apply IH. lia.
Qed.

Lemma sdrop_all n s : (String.length s ≤ n)%nat → sdrop n s = EmptyString.
Proof.
  revert s. induction n as [|n IH]; intros [|c s]; simpl; intros; auto; try lia.
  apply IH. lia.
Qed.

Lemma stake_stake n m s : stake n (stake m s) = stake (Nat.min n m) s.
Proof.
  revert m s. induction n as [|n IH]; intros [|m] [|c s]; simpl; auto.
  by rewrite IH.
Qed.

Lemma sdrop_stake n m s : sdrop n (stake m s) = stake (m - n) (sdrop n s).
Proof.
  revert m s. induction n as [|n IH]; intros [|m] [|c s]; simpl; auto;
    by rewrite ?stake_empty, ?sdrop_empty.
Qed.

Lemma sdrop_sdrop n m s : sdrop n (sdrop m s) = sdrop (m + n) s.
Proof.
  revert s. induction m as [|m IH]; intros [|c s]; simpl; auto.
  by rewrite sdrop_empty.
Qed.

Lemma app_String c s t : String c s +:+ t = String c (s +:+ t).
Proof. done. Qed.

Lemma app_empty_l s : EmptyString +:+ s = s.
Proof. done. Qed.

Lemma app_empty_r s : s +:+ EmptyString = s.
Proof. induction s as [|c s IH]; [done|]. by rewrite app_String, IH. Qed.

Lemma append_assoc s t u : (s +:+ t) +:+ u = s +:+ (t +:+ u).
Proof. induction s as [|c s IH]; [done|]. by rewrite !app_String, IH. Qed.

Lemma stake_sdrop n s : stake n s +:+ sdrop n s = s.
Proof.
  revert s. induction n as [|n IH]; intros [|c s]; simpl; auto.
  by rewrite app_String, IH.
Qed.

Lemma sdrop_get n s :
  (n < String.length s)%nat →
  ∃ c, String.get n s = Some c ∧ sdrop n s = String c (sdrop (S n) s).
Proof.
  revert s. induction n as [|n IH]; intros [|c s]; simpl; intros; try lia.
  - eauto.
  - apply IH. lia.
Qed.

Lemma len_stake_le n s : len (stake n s) ≤ len s.
Proof. unfold len. rewrite length_stake. lia. Qed.

Lemma len_upto s i : 0 ≤ i ≤ len s → len (upto s i) = i.
Proof. unfold len, upto. intros. rewrite length_stake. lia. Qed.

Lemma len_from s i : 0 ≤ i ≤ len s → len (from s i) = len s - i.
Proof. unfold len, from. intros. rewrite length_sdrop. lia. Qed.

Lemma upto_all s : upto s (len s) = s.
Proof. unfold upto, len. apply stake_all. lia. Qed.

Lemma from_0 s : from s 0 = s.
Proof. done. Qed.

Lemma upto_0 s : upto s 0 = EmptyString.
Proof. by destruct s. Qed.

Lemma upto_upto s i j : 0 ≤ i ≤ j → upto (upto s j) i = upto s i.
Proof. unfold upto. intros. rewrite stake_stake. f_equal. lia. Qed.

Lemma from_upto s i j :
  0 ≤ i ≤ j → from (upto s j) i = upto (from s i) (j - i).
Proof. unfold upto, from. intros. rewrite sdrop_stake. f_equal. lia. Qed.

Lemma upto_from s i : upto s i +:+ from s i = s.
Proof. apply stake_sdrop. Qed.

(** The byte at an index in range heads the slice that starts there. *)
Lemma from_at s i :
  0 ≤ i < len s →
  ∃ c, at_ s i = byte_val c ∧ from s i = String c (from s (i + 1)).
Proof.
  unfold len, from, at_. intros Hi.
  destruct (sdrop_get (Z.to_nat i) s) as (c & Hg & Hd); [lia|].
  exists c. rewrite Hg, Hd. split; [done|]. do 2 f_equal. lia.
Qed.

Lemma at_upto s i j : 0 ≤ i < j → j ≤ len s → at_ (upto s j) i = at_ s i.
Proof.
  intros Hi Hj.
  destruct (from_at s i) as (c & Hc & Hf); [lia|].
  destruct (from_at (upto s j) i) as (c' & Hc' & Hf').
  { rewrite len_upto; lia. }
  rewrite from_upto, Hf in Hf' by lia.
  unfold upto in Hf'. destruct (Z.to_nat (j - i)) eqn:E; [lia|].
  simpl in Hf'. inversion Hf'. congruence.
Qed.

End slices.

(** ** UTF-8 decoding *)

(** Comparisons that were tested, as propositions. *)
Ltac ztest :=
  repeat match goal with
  | H : (_ <? _) = true |- _ => apply Z.ltb_lt in H
  | H : (_ <? _) = false |- _ => apply Z.ltb_ge in H
  | H : (_ <=? _) = true |- _ => apply Z.leb_le in H
  | H : (_ <=? _) = false |- _ => apply Z.leb_gt in H
  | H : (_ =? _) = true |- _ => apply Z.eqb_eq in H
  | H : (_ =? _) = false |- _ => apply Z.eqb_neq in H
  | H : _ || _ = false |- _ => apply orb_false_iff in H as [? ?]
  | H : _ && _ = true |- _ => apply andb_true_iff in H as [? ?]
  end.

(** The same, splitting on the tests that leave two cases. *)
Ltac btest :=
  repeat match goal with
  | H : _ && _ = false |- _ => apply andb_false_iff in H as [?|?]
  | H : _ || _ = true |- _ => apply orb_true_iff in H as [?|?]
  | _ => progress ztest
  end.

(** Lengths are not negative. *)
Ltac len_facts :=
  repeat match goal with
  | |- context [len ?t] =>
    lazymatch goal with
    | _ : 0 ≤ len t |- _ => fail
    | _ => pose proof (len_nonneg t)
    end
  | _ : context [len ?t] |- _ =>
    lazymatch goal with
    | _ : 0 ≤ len t |- _ => fail
    | _ => pose proof (len_nonneg t)
    end
  end.

Section decoding.
Import utf8.
Implicit Types (s t : string) (c : ascii) (r size : Z).

Lemma decode_empty : DecodeRuneInString EmptyString = (RuneError, 0).
Proof. done. Qed.

(** The width is at least one byte and at most the bytes there are. *)
Lemma decode_size s :
  s ≠ EmptyString → 1 ≤ snd (DecodeRuneInString s) ≤ len s.
Proof.
  destruct s as [|c0 [|c1 [|c2 [|c3 s]]]]; [done|..]; intros _;
    unfold DecodeRuneInString; cbv zeta; rewrite ?len_String;
    generalize (first (byte_val c0)); intros x;
    repeat case_match; simpl; ztest; len_facts; lia.
Qed.

(** Decoding reads no further than the width it reports: a prefix
    that decodes to a rune of two bytes or more, or to a rune other
    than [RuneError], decodes to the same in the whole string. *)
Lemma decode_prefix s (k : nat) r size :
  DecodeRuneInString (stake k s) = (r, size) →
  DecodeRuneInString s = (r, size) ∨ (r = RuneError ∧ size ≤ 1).
Proof.
  destruct s as [|c0 s]; [rewrite stake_empty; auto|].
  destruct k as [|k]; [simpl; intros [= <- <-]; right; split; [done|lia]|].
  destruct s as [|c1 [|c2 [|c3 s]]];
    destruct k as [|[|[|k]]]; simpl stake;
    unfold DecodeRuneInString; cbv zeta; rewrite ?len_String;
    generalize (first (byte_val c0)); intros x;
    intros Hd; revert Hd; try pose proof (len_stake_le k s);
    repeat case_match; intros; simplify_eq; ztest; auto; len_facts; lia.
Qed.
Lemma first_accept b :
  first b < as_ →
  locb ≤ (acceptRanges (first b ≫ 4)).1 ∧ (acceptRanges (first b ≫ 4)).2 ≤ hicb.
Proof.
  unfold first. repeat case_match; vm_compute; intuition congruence.
Qed.

Lemma first_continuation b : locb ≤ b ≤ hicb → first b = xx.
Proof.
  unfold first, locb, hicb. intros. repeat case_match; ztest; auto; lia.
Qed.

(** A byte followed by the start of another encoding is a rune of
    one byte. *)
Lemma decode_sync c s : sync s → snd (DecodeRuneInString (String c s)) = 1.
Proof.
  intros Hs. unfold DecodeRuneInString; cbv zeta.
  pose proof (first_accept (byte_val c)) as Ha. revert Ha.
  generalize (first (byte_val c)); intros x Ha.
  destruct s as [|c1 s]; repeat case_match; simpl in *; ztest; auto;
    exfalso; apply Hs; lia.
Qed.

(** A rune other than [RuneError] starts with a byte that is no
    continuation byte. *)
Lemma decode_start s r size :
  DecodeRuneInString s = (r, size) → r ≠ RuneError → sync s.
Proof.
  destruct s as [|c s]; [done|]. intros Hd Hr Hc.
  unfold DecodeRuneInString in Hd. rewrite (first_continuation _ Hc) in Hd.
  vm_compute in Hd. injection Hd as <- <-. by apply Hr.
Qed.

Lemma decode_ascii c s :
  byte_val c < RuneSelf → DecodeRuneInString (String c s) = (byte_val c, 1).
Proof.
  intros Hc. unfold DecodeRuneInString, first, RuneSelf in *.
  destruct (Z.ltb_spec (byte_val c) 128); [done|lia].
Qed.

Lemma scanBack_le fuel s start lim : scanBack fuel s start lim ≤ start.
Proof.
  revert start. induction fuel as [|fuel IH]; intros start; simpl; [lia|].
  repeat case_match; try lia. specialize (IH (start - 1)). lia.
Qed.

(** [DecodeLastRuneInString] either gives up with [(RuneError, 1)]
    or returns what [DecodeRuneInString] reads in the last [size]
    bytes. *)
Lemma decodeLast_spec s r size :
  s ≠ EmptyString →
  DecodeLastRuneInString s = (r, size) →
  (r = RuneError ∧ size = 1) ∨
  (1 ≤ size ≤ len s ∧ DecodeRuneInString (from s (len s - size)) = (r, size)).
Proof.
  intros Hs. pose proof (len_nonneg s).
  assert (len s ≠ 0) as Hl by (by rewrite len_empty).
  unfold DecodeLastRuneInString; cbv zeta.
  destruct (Z.eqb_spec (len s) 0); [done|].
  destruct (from_at s (len s - 1)) as (c & Hc & Hf); [lia|].
  case_match; ztest.
  - intros [= <- <-]. right. split; [lia|].
    rewrite Hf, Hc. apply decode_ascii. by rewrite <-Hc.
  - set (start := Z.max _ 0).
    assert (0 ≤ start < len s) as Hstart.
    { subst start. unfold UTFMax.
      pose proof (scanBack_le 4 s (len s - 1 - 1) (Z.max (len s - 4) 0)).
      change (Z.to_nat 4) with 4%nat. lia. }
    destruct (DecodeRuneInString (from s start)) as [r' size'] eqn:Hd.
    assert (from s start ≠ EmptyString) as Hne.
    { rewrite <-len_empty, len_from by lia. lia. }
    pose proof (decode_size _ Hne) as Hsz.
    rewrite Hd, len_from in Hsz by lia. simpl in Hsz.
    destruct (Z.eqb_spec (start + size') (len s)) as [He|He]; simpl;
      intros [= <- <-]; [right|by left].
    split; [lia|]. by replace (len s - size') with start by lia.
Qed.

End decoding.

(** ** Trimming *)

Section trimming.
Import utf8 strings.
Implicit Types (s t u : string) (c : ascii) (r size i j e : Z).

Lemma IsSpace_RuneError : unicode.IsSpace RuneError = false.
Proof. done. Qed.

Lemma sync_upto t (k : Z) : 0 < k → sync (upto t k) → sync t.
Proof.
  unfold upto. intros Hk. destruct (Z.to_nat k) eqn:E; [lia|].
  by destruct t.
Qed.

Lemma TrimRightFunc_cut s f :
  TrimRightFunc s f = upto s (cut s (lastIndexFunc s f false)).
Proof. done. Qed.

Lemma cut_last s i : 0 < i ≤ len s → sync (from s i) → cut s (i - 1) = i.
Proof.
  intros Hi Hs. unfold cut.
  destruct (from_at s (i - 1)) as (c & Hc & Hf); [lia|].
  replace (i - 1 + 1) with i in Hf by lia.
  case_match; [|lia]. rewrite Hf, decode_sync by done. lia.
Qed.

(** The cut falls right behind the last rune that is not a space. *)
Lemma cut_stop s i r size :
  0 < i ≤ len s → sync (from s i) →
  DecodeLastRuneInString (upto s i) = (r, size) →
  1 ≤ size ≤ i ∧
  (unicode.IsSpace r = false → cut s (i - size) = i) ∧
  (unicode.IsSpace r = true → sync (from s (i - size))).
Proof.
  intros Hi Hs Hd.
  assert (upto s i ≠ EmptyString) as Hne.
  { intros He%len_empty. rewrite len_upto in He; lia. }
  apply (decodeLast_spec _ _ _ Hne) in Hd as [[-> ->]|[Hsz Hd]].
  { split; [lia|]. split; [intros _; by apply cut_last|done]. }
  rewrite len_upto in Hsz, Hd by lia.
  rewrite from_upto in Hd by lia.
  replace (i - (i - size)) with size in Hd by lia.
  split; [done|]. split.
  - intros _. apply decode_prefix in Hd as [Hd|[-> ?]].
    2:{ replace size with 1 by lia. by apply cut_last. }
    unfold cut. destruct (from_at s (i - size)) as (c & Hc & Hf); [lia|].
    rewrite Hd. simpl. case_match eqn:Hb; [lia|].
    apply andb_false_iff in Hb as [Hb|Hb]; ztest.
    + lia.
    + rewrite Hf, decode_ascii in Hd by lia. injection Hd as _ <-. lia.
  - intros Hsp. apply (sync_upto _ size); [lia|].
    apply (decode_start _ _ _ Hd). intros ->. by rewrite IsSpace_RuneError in Hsp.
Qed.

Lemma lastIndexFunc_go_stops s (fuel : nat) i :
  0 ≤ i ≤ len s → i ≤ Z.of_nat fuel → sync (from s i) →
  let e := cut s (lastIndexFunc_go fuel s unicode.IsSpace false i) in
  0 ≤ e ≤ i ∧ stops s e.
Proof.
  revert i. induction fuel as [|fuel IH]; intros i Hi Hfuel Hs; simpl.
  { unfold cut. simpl. split; [lia|by left]. }
  destruct (Z.leb_spec i 0).
  { unfold cut. simpl. split; [lia|by left]. }
  destruct (DecodeLastRuneInString (upto s i)) as [r size] eqn:Hd.
  destruct (cut_stop s i r size) as (Hsz & Hcut & Hsync); [lia|done..|].
  destruct (unicode.IsSpace r) eqn:Hsp; simpl.
  - destruct (IH (i - size)) as [? ?]; [lia|lia|by apply Hsync|].
    split; [lia|done].
  - rewrite Hcut by done. split; [lia|]. right. split; [lia|].
    by rewrite Hd.
Qed.

Lemma TrimRightFunc_stops s :
  ∃ e, 0 ≤ e ≤ len s ∧ stops s e ∧ TrimRightFunc s unicode.IsSpace = upto s e.
Proof.
  rewrite TrimRightFunc_cut. eexists; split_and!; [..|done];
    apply lastIndexFunc_go_stops; unfold len, from; try lia;
    by rewrite Nat2Z.id, sdrop_all.
Qed.

Lemma TrimRightFunc_fixed s e :
  0 ≤ e ≤ len s → stops s e →
  TrimRightFunc (upto s e) unicode.IsSpace = upto s e.
Proof.
  intros He [->|[He' Hsp]]; [by rewrite upto_0|].
  rewrite TrimRightFunc_cut. unfold lastIndexFunc.
  remember (upto s e) as u eqn:Eu.
  assert (len u = e) as Hu by (subst u; apply len_upto; lia).
  assert (upto u e = u) as Hue by (rewrite <-Hu; apply upto_all).
  assert (String.length u = S (Z.to_nat (e - 1))) as -> by (unfold len in Hu; lia).
  cbn [lastIndexFunc_go]. rewrite Hu, Hue.
  destruct (Z.leb_spec e 0); [lia|].
  destruct (DecodeLastRuneInString u) as [r size] eqn:Hd.
  simpl in Hsp. rewrite Hsp. simpl.
  destruct (cut_stop u e r size) as (Hsz & Hcut & _); [lia| |..].
  { unfold from. rewrite sdrop_all; [done|]. unfold len in Hu. lia. }
  { by rewrite Hue. }
  by rewrite Hcut.
Qed.

Lemma indexFunc_go_spec s f (fuel : nat) i :
  let j := indexFunc_go fuel s f false i in
  j = -1 ∨ (0 ≤ i → 0 ≤ j < len s ∧ f (DecodeRuneInString (from s j)).1 = false).
Proof.
  revert i. induction fuel as [|fuel IH]; intros i; simpl; [by left|].
  destruct (Z.leb_spec (len s) i); [by left|].
  destruct (DecodeRuneInString (from s i)) as [r w] eqn:Hd.
  destruct (f r) eqn:Hf; simpl.
  - destruct (IH (i + w)) as [?|IH']; [by left|right].
    intros Hi. apply IH'.
    assert (from s i ≠ EmptyString) as Hne.
    { intros He%len_empty. rewrite len_from in He; lia. }
    apply decode_size in Hne. rewrite Hd in Hne. simpl in Hne. lia.
  - right. intros Hi. rewrite Hd. split; [lia|done].
Qed.

Lemma TrimLeftFunc_ltrimmed s : ltrimmed (TrimLeftFunc s unicode.IsSpace).
Proof.
  unfold TrimLeftFunc, indexFunc.
  destruct (indexFunc_go_spec s unicode.IsSpace (String.length s) 0) as [->|H].
  { by left. }
  destruct H as [Hj Hf]; [done|].
  destruct (Z.eqb_spec (indexFunc_go (String.length s) s unicode.IsSpace false 0) (-1));
    [by left|by right].
Qed.

Lemma TrimLeftFunc_fixed s : ltrimmed s → TrimLeftFunc s unicode.IsSpace = s.
Proof.
  intros [->|Hsp]; [done|]. destruct s as [|c s]; [done|].
  unfold TrimLeftFunc, indexFunc. cbn [String.length indexFunc_go].
  rewrite len_String. pose proof (len_nonneg s).
  destruct (Z.leb_spec (1 + len s) 0); [lia|].
  rewrite from_0. destruct (DecodeRuneInString (String c s)) as [r w].
  simpl in Hsp. by rewrite Hsp.
Qed.

Lemma ltrimmed_upto s e : ltrimmed s → ltrimmed (upto s e).
Proof.
  intros Hs. destruct (decide (upto s e = EmptyString)) as [|Hne]; [by left|].
  right. destruct (DecodeRuneInString (upto s e)) as [r w] eqn:Hd.
  apply decode_prefix in Hd as [Hd|[-> _]]; [|done].
  destruct Hs as [->|Hs]; [by unfold upto in Hne; rewrite stake_empty in Hne|].
  by rewrite Hd in Hs.
Qed.

(** Trimming what is trimmed changes nothing. *)
Lemma TrimSpace_idemp s : TrimSpace (TrimSpace s) = TrimSpace s.
Proof.
  unfold TrimSpace, TrimFunc.
  destruct (TrimRightFunc_stops (TrimLeftFunc s unicode.IsSpace))
    as (e & He & Hstop & ->).
  rewrite TrimLeftFunc_fixed.
  - by apply TrimRightFunc_fixed.
  - apply ltrimmed_upto, TrimLeftFunc_ltrimmed.
Qed.

End trimming.

(** ** Encoding what was decoded *)

Section encoding.
Import utf8.
Implicit Types (s : string) (c : ascii) (r size : Z).

Lemma lor_disjoint x y k :
  0 ≤ k → 0 ≤ x → 0 ≤ y < 2 ^ k → Z.lor (x * 2 ^ k) y = x * 2 ^ k + y.
Proof.
  intros Hk Hx Hy.
  assert (Z.land (x * 2 ^ k) y = 0) as Hl.
  { apply Z.bits_inj'. intros n Hn. rewrite Z.land_spec, Z.bits_0.
    destruct (Z.lt_ge_cases n k).
    - by rewrite Z.mul_pow2_bits_low.
    - destruct (Z.eq_dec y 0) as [->|]; [by rewrite Z.bits_0, andb_false_r|].
      rewrite (Z.bits_above_log2 y n), andb_false_r; [done|lia|].
      apply Z.log2_lt_pow2; [lia|].
      assert (2 ^ k ≤ 2 ^ n) by (apply Z.pow_le_mono_r; lia). lia. }
  by rewrite <-Z.lxor_lor, <-Z.add_nocarry_lxor.
Qed.

Lemma land_mask x k : 0 ≤ k → Z.land x (2 ^ k - 1) = x mod 2 ^ k.
Proof. intros. rewrite <-Z.land_ones by done. by rewrite Z.ones_equiv, Z.sub_1_r. Qed.

(** Masks and shifts by constants are remainders, products and
    quotients, which [lia] handles with this hook. *)
Local Ltac Zify.zify_post_hook ::= Z.to_euclidean_division_equations.

Ltac bits_to_arith :=
  change 0x1F with (2 ^ 5 - 1) in *; change 0x3F with (2 ^ 6 - 1) in *;
  change 0x0F with (2 ^ 4 - 1) in *; change 0x07 with (2 ^ 3 - 1) in *;
  rewrite ?land_mask, ?Z.shiftl_mul_pow2, ?Z.shiftr_div_pow2 by lia.

Lemma enc2 b0 b1 :
  0xC2 ≤ b0 ≤ 0xDF → 0x80 ≤ b1 ≤ 0xBF →
  let r := Z.lor (Z.land b0 mask2 ≪ 6) (Z.land b1 maskx) in
  0x80 ≤ r ≤ 0x7FF ∧
  Z.lor t2 (r ≫ 6) = b0 ∧ Z.lor tx (Z.land r maskx) = b1.
Proof.
  intros H0 H1. unfold mask2, maskx, t2, tx. cbv zeta. bits_to_arith.
  rewrite (lor_disjoint _ _ 6) by lia.
  change 192 with (6 * 2 ^ 5). change 128 with (2 * 2 ^ 6).
  rewrite !lor_disjoint by lia. lia.
Qed.

Lemma enc3 b0 b1 b2 :
  0xE0 ≤ b0 ≤ 0xEF → 0x80 ≤ b1 ≤ 0xBF → 0x80 ≤ b2 ≤ 0xBF →
  (b0 = 0xE0 → 0xA0 ≤ b1) → (b0 = 0xED → b1 ≤ 0x9F) →
  let r := Z.lor (Z.lor (Z.land b0 mask3 ≪ 12) (Z.land b1 maskx ≪ 6))
                 (Z.land b2 maskx) in
  0x800 ≤ r ≤ 0xFFFF ∧ ¬ (0xD800 ≤ r ≤ 0xDFFF) ∧
  Z.lor t3 (r ≫ 12) = b0 ∧ Z.lor tx (Z.land (r ≫ 6) maskx) = b1 ∧
  Z.lor tx (Z.land r maskx) = b2.
Proof.
  intros H0 H1 H2 Hlo Hhi. unfold mask3, maskx, t3, tx. cbv zeta. bits_to_arith.
  rewrite (lor_disjoint _ _ 12) by lia.
  replace (b0 `mod` 2 ^ 4 * 2 ^ 12 + b1 `mod` 2 ^ 6 * 2 ^ 6)
    with ((b0 `mod` 2 ^ 4 * 2 ^ 6 + b1 `mod` 2 ^ 6) * 2 ^ 6) by lia.
  rewrite (lor_disjoint _ _ 6) by lia.
  change 224 with (14 * 2 ^ 4). change 128 with (2 * 2 ^ 6).
  rewrite !lor_disjoint by lia. lia.
Qed.

Lemma enc4 b0 b1 b2 b3 :
  0xF0 ≤ b0 ≤ 0xF4 → 0x80 ≤ b1 ≤ 0xBF → 0x80 ≤ b2 ≤ 0xBF → 0x80 ≤ b3 ≤ 0xBF →
  (b0 = 0xF0 → 0x90 ≤ b1) → (b0 = 0xF4 → b1 ≤ 0x8F) →
  let r := Z.lor (Z.lor (Z.lor (Z.land b0 mask4 ≪ 18) (Z.land b1 maskx ≪ 12))
                        (Z.land b2 maskx ≪ 6))
                 (Z.land b3 maskx) in
  0x10000 ≤ r ≤ 0x10FFFF ∧
  Z.lor t4 (r ≫ 18) = b0 ∧ Z.lor tx (Z.land (r ≫ 12) maskx) = b1 ∧
  Z.lor tx (Z.land (r ≫ 6) maskx) = b2 ∧ Z.lor tx (Z.land r maskx) = b3.
Proof.
  intros H0 H1 H2 H3 Hlo Hhi. unfold mask4, maskx, t4, tx. cbv zeta. bits_to_arith.
  rewrite (lor_disjoint _ _ 18) by lia.
  replace (b0 `mod` 2 ^ 3 * 2 ^ 18 + b1 `mod` 2 ^ 6 * 2 ^ 12)
    with ((b0 `mod` 2 ^ 3 * 2 ^ 6 + b1 `mod` 2 ^ 6) * 2 ^ 12) by lia.
  rewrite (lor_disjoint _ _ 12) by lia.
  replace ((b0 `mod` 2 ^ 3 * 2 ^ 6 + b1 `mod` 2 ^ 6) * 2 ^ 12 + b2 `mod` 2 ^ 6 * 2 ^ 6)
    with (((b0 `mod` 2 ^ 3 * 2 ^ 6 + b1 `mod` 2 ^ 6) * 2 ^ 6 + b2 `mod` 2 ^ 6) * 2 ^ 6)
    by lia.
  rewrite (lor_disjoint _ _ 6) by lia.
  change 240 with (30 * 2 ^ 3). change 128 with (2 * 2 ^ 6).
  rewrite !lor_disjoint by lia. lia.
Qed.

Lemma first_cases b :
  0 ≤ b < 256 →
  (b < 0x80 ∧ first b = as_) ∨
  ((0x80 ≤ b < 0xC2 ∨ 0xF5 ≤ b) ∧ first b = xx) ∨
  (0xC2 ≤ b ≤ 0xDF ∧ first b = s1) ∨
  (b = 0xE0 ∧ first b = s2) ∨
  ((0xE1 ≤ b ≤ 0xEC ∨ 0xEE ≤ b ≤ 0xEF) ∧ first b = s3) ∨
  (b = 0xED ∧ first b = s4) ∨
  (b = 0xF0 ∧ first b = s5) ∨
  (0xF1 ≤ b ≤ 0xF3 ∧ first b = s6) ∨
  (b = 0xF4 ∧ first b = s7).
Proof.
  intros Hb. unfold first. repeat case_match; ztest; intuition lia.
Qed.

(** Unfold [DecodeRuneInString] on a string that starts with [c0],
    split on the entry of [first] and fold the constants. *)
Ltac decode_first c0 :=
  let Hb := fresh "Hb" in
  pose proof (byte_val_range c0) as Hb;
  unfold DecodeRuneInString; cbv zeta; rewrite ?len_String;
  destruct (first_cases _ Hb)
    as [[? ->]|[[? ->]|[[? ->]|[[? ->]|[[? ->]|[[? ->]|[[? ->]|[[? ->]|[? ->]]]]]]]]];
  repeat match goal with
  | |- context [as_ <=? ?x] =>
    let v := eval vm_compute in (as_ <=? x) in change (as_ <=? x) with v
  | |- context [?x =? xx] =>
    let v := eval vm_compute in (x =? xx) in change (x =? xx) with v
  | |- context [Z.land ?x 7] =>
    let v := eval vm_compute in (Z.land x 7) in change (Z.land x 7) with v
  | |- context [acceptRanges ?x] =>
    let v := eval vm_compute in (acceptRanges x) in change (acceptRanges x) with v
  end;
  change (2 <=? 2) with true; change (3 <=? 2) with false;
  change (4 <=? 2) with false; change (3 <=? 3) with true;
  change (4 <=? 3) with false; cbv iota; cbn [fst snd].

Lemma decode_decoded s : decoded s (DecodeRuneInString s).1 (DecodeRuneInString s).2.
Proof.
  destruct s as [|c0 s]; [constructor|].
  decode_first c0.
  all: repeat case_match; cbn [fst snd]; ztest; try (by constructor).
  all: constructor; unfold locb, hicb, RuneSelf in *; lia.
Qed.

Lemma decoded_decode s r size :
  decoded s r size →
  DecodeRuneInString s = (r, size) ∨ (r = RuneError ∧ size = 1).
Proof.
  destruct 1 as [|c0 s|c0 s|c0 c1 s|c0 c1 c2 s|c0 c1 c2 c3 s]; auto;
    left; decode_first c0; unfold locb, hicb, RuneSelf in *; try lia;
    len_facts; repeat case_match; ztest; try lia; done.
Qed.

Lemma EncodeRune_1 r :
  0 ≤ r ≤ rune1Max → EncodeRune r = String (byte_of r) EmptyString.
Proof.
  unfold EncodeRune, rune1Max. intros. repeat case_match; btest; done || lia.
Qed.

Lemma EncodeRune_2 r :
  rune1Max < r ≤ rune2Max →
  EncodeRune r =
    String (byte_of (Z.lor t2 (r ≫ 6)))
      (String (byte_of (Z.lor tx (Z.land r maskx))) EmptyString).
Proof.
  unfold EncodeRune, rune1Max, rune2Max. intros.
  repeat case_match; btest; done || lia.
Qed.

Lemma EncodeRune_3 r :
  rune2Max < r ≤ rune3Max → ¬ (surrogateMin ≤ r ≤ surrogateMax) →
  EncodeRune r =
    String (byte_of (Z.lor t3 (r ≫ 12)))
      (String (byte_of (Z.lor tx (Z.land (r ≫ 6) maskx)))
         (String (byte_of (Z.lor tx (Z.land r maskx))) EmptyString)).
Proof.
  unfold EncodeRune, rune1Max, rune2Max, rune3Max, MaxRune, surrogateMin, surrogateMax.
  intros. repeat case_match; btest; done || lia.
Qed.

Lemma EncodeRune_4 r :
  rune3Max < r ≤ MaxRune →
  EncodeRune r =
    String (byte_of (Z.lor t4 (r ≫ 18)))
      (String (byte_of (Z.lor tx (Z.land (r ≫ 12) maskx)))
         (String (byte_of (Z.lor tx (Z.land (r ≫ 6) maskx)))
            (String (byte_of (Z.lor tx (Z.land r maskx))) EmptyString))).
Proof.
  unfold EncodeRune, rune1Max, rune2Max, rune3Max, MaxRune, surrogateMin, surrogateMax.
  intros. repeat case_match; btest; done || lia.
Qed.

Lemma EncodeRune_RuneError :
  DecodeRuneInString (EncodeRune RuneError) = (RuneError, len (EncodeRune RuneError)).
Proof. done. Qed.

(** [EncodeRune] writes a rune that was decoded in a form that
    decodes to it again. *)
Lemma decode_EncodeRune s r size :
  decoded s r size →
  DecodeRuneInString (EncodeRune r) = (r, len (EncodeRune r)).
Proof.
  intros Hd. destruct (decide (r = RuneError)) as [->|Hr];
    [apply EncodeRune_RuneError|].
  destruct Hd as [|c0 s|c0 s Hc|c0 c1 s H0 H1|c0 c1 c2 s H0 H1 H2 Hlo Hhi
                 |c0 c1 c2 c3 s H0 H1 H2 H3 Hlo Hhi]; try done.
  - pose proof (byte_val_range c0).
    rewrite EncodeRune_1 by (unfold rune1Max, RuneSelf in *; lia).
    rewrite byte_of_val. by rewrite decode_ascii.
  - pose proof (decoded_decode _ _ _ (decoded_2 c0 c1 EmptyString H0 H1))
      as [Hd|[_ ?]]; [|done].
    revert Hr Hd. destruct (enc2 _ _ H0 H1) as (Hb & E0 & E1).
    revert Hb E0 E1. cbv zeta.
    generalize (Z.lor (Z.land (byte_val c0) mask2 ≪ 6) (Z.land (byte_val c1) maskx)).
    intros r Hb E0 E1 Hr Hd.
    rewrite EncodeRune_2 by (unfold rune1Max, rune2Max; lia).
    by rewrite E0, E1, !byte_of_val.
  - pose proof (decoded_decode _ _ _ (decoded_3 c0 c1 c2 EmptyString H0 H1 H2 Hlo Hhi))
      as [Hd|[_ ?]]; [|done].
    revert Hr Hd. destruct (enc3 _ _ _ H0 H1 H2 Hlo Hhi) as (Hb & Hs & E0 & E1 & E2).
    revert Hb Hs E0 E1 E2. cbv zeta.
    generalize (Z.lor (Z.lor (Z.land (byte_val c0) mask3 ≪ 12)
                             (Z.land (byte_val c1) maskx ≪ 6))
                      (Z.land (byte_val c2) maskx)).
    intros r Hb Hs E0 E1 E2 Hr Hd.
    rewrite EncodeRune_3 by (unfold rune2Max, rune3Max, surrogateMin, surrogateMax; lia).
    by rewrite E0, E1, E2, !byte_of_val.
  - pose proof (decoded_decode _ _ _
                  (decoded_4 c0 c1 c2 c3 EmptyString H0 H1 H2 H3 Hlo Hhi))
      as [Hd|[_ ?]]; [|done].
    revert Hr Hd. destruct (enc4 _ _ _ _ H0 H1 H2 H3 Hlo Hhi) as (Hb & E0 & E1 & E2 & E3).
    revert Hb E0 E1 E2 E3. cbv zeta.
    generalize (Z.lor (Z.lor (Z.lor (Z.land (byte_val c0) mask4 ≪ 18)
                                    (Z.land (byte_val c1) maskx ≪ 12))
                             (Z.land (byte_val c2) maskx ≪ 6))
                      (Z.land (byte_val c3) maskx)).
    intros r Hb E0 E1 E2 E3 Hr Hd.
    rewrite EncodeRune_4 by (unfold rune3Max, MaxRune; lia).
    by rewrite E0, E1, E2, E3, !byte_of_val.
Qed.

End encoding.

(** ** Loops run to their end *)

(** The loops over a string are written with a counter that bounds
    the number of passes.  The length of the string is enough: with
    that much or more the result is the same. *)

Section fuel.
Import utf8 strings.
Implicit Types (s : string) (f : Z → bool) (i : Z).

Lemma scanBack_fuel (fuel fuel' : nat) s start lim :
  start - lim < Z.of_nat fuel → start - lim < Z.of_nat fuel' →
  scanBack fuel s start lim = scanBack fuel' s start lim.
Proof.
  revert fuel' start. induction fuel as [|fuel IH]; intros [|fuel'] start H1 H2; simpl.
  - done.
  - by destruct (Z.ltb_spec start lim); [|lia].
  - by destruct (Z.ltb_spec start lim); [|lia].
  - repeat case_match; try done. apply IH; lia.
Qed.

Lemma indexFunc_go_fuel (fuel fuel' : nat) s f truth i :
  0 ≤ i → len s - i ≤ Z.of_nat fuel → len s - i ≤ Z.of_nat fuel' →
  indexFunc_go fuel s f truth i = indexFunc_go fuel' s f truth i.
Proof.
  revert fuel' i. induction fuel as [|fuel IH]; intros [|fuel'] i Hi H1 H2; simpl.
  - done.
  - by destruct (Z.leb_spec (len s) i); [|lia].
  - by destruct (Z.leb_spec (len s) i); [|lia].
  - destruct (Z.leb_spec (len s) i); [done|].
    assert (from s i ≠ EmptyString) as Hne.
    { intros He%len_empty. rewrite len_from in He; lia. }
    apply decode_size in Hne. rewrite len_from in Hne by lia.
    destruct (DecodeRuneInString (from s i)) as [r w]. simpl in Hne.
    case_match; [done|]. apply IH; lia.
Qed.

Lemma decodeLast_size s :
  s ≠ EmptyString → 1 ≤ (DecodeLastRuneInString s).2 ≤ len s.
Proof.
  intros Hs. destruct (DecodeLastRuneInString s) as [r size] eqn:Hd.
  assert (len s ≠ 0) by (by rewrite len_empty). pose proof (len_nonneg s).
  apply decodeLast_spec in Hd as [[_ ->]|[? _]]; simpl; [lia|done|done].
Qed.

Lemma lastIndexFunc_go_fuel (fuel fuel' : nat) s f truth i :
  0 ≤ i ≤ len s → i ≤ Z.of_nat fuel → i ≤ Z.of_nat fuel' →
  lastIndexFunc_go fuel s f truth i = lastIndexFunc_go fuel' s f truth i.
Proof.
  revert fuel' i. induction fuel as [|fuel IH]; intros [|fuel'] i Hi H1 H2; simpl.
  - done.
  - by destruct (Z.leb_spec i 0); [|lia].
  - by destruct (Z.leb_spec i 0); [|lia].
  - destruct (Z.leb_spec i 0); [done|].
    assert (upto s i ≠ EmptyString) as Hne.
    { intros He%len_empty. rewrite len_upto in He; lia. }
    apply decodeLast_size in Hne. rewrite len_upto in Hne by lia.
    destruct (DecodeLastRuneInString (upto s i)) as [r size]. simpl in Hne.
    case_match; [done|]. apply IH; lia.
Qed.

Lemma Map_go_fuel (fuel fuel' : nat) mapping s :
  (String.length s ≤ fuel)%nat → (String.length s ≤ fuel')%nat →
  Map_go fuel mapping s = Map_go fuel' mapping s.
Proof.
  revert fuel' s. induction fuel as [|fuel IH]; intros [|fuel'] s H1 H2;
    destruct s as [|c s]; cbn [Map_go String.length] in *; try done; try lia.
  pose proof (decode_size (String c s) ltac:(done)) as Hsz.
  rewrite len_String in Hsz. unfold len in Hsz.
  destruct (DecodeRuneInString (String c s)) as [r w]. simpl in Hsz.
  f_equal. apply IH; unfold from; rewrite length_sdrop; cbn [String.length]; lia.
Qed.

End fuel.

(** ** Runes and case *)

Section runes.
Import utf8 strings.
Context `{CaseTables}.
Implicit Types (s : string) (r size : Z).

Lemma EncodeRune_nonempty r : EncodeRune r ≠ EmptyString.
Proof. unfold EncodeRune. by repeat case_match. Qed.

Lemma from_len s : from s (len s) = EmptyString.
Proof. unfold from, len. rewrite Nat2Z.id. by apply sdrop_all. Qed.

Lemma Map_go_empty fuel mapping : Map_go fuel mapping EmptyString = EmptyString.
Proof. by destruct fuel. Qed.

(** [Map] on a string that is one rune. *)
Lemma Map_rune mapping s r :
  s ≠ EmptyString → DecodeRuneInString s = (r, len s) →
  Map mapping s = if 0 <=? mapping r then EncodeRune (mapping r) else EmptyString.
Proof.
  intros Hs Hd. unfold Map. destruct s as [|c s]; [done|].
  cbn [String.length Map_go]. rewrite Hd, from_len, Map_go_empty.
  by rewrite app_empty_r.
Qed.

Lemma decode_upto s r size :
  DecodeRuneInString s = (r, size) → DecodeRuneInString (upto s size) = (r, size).
Proof.
  intros Hd. pose proof (decode_decoded s) as Hs. rewrite Hd in Hs. simpl in Hs.
  destruct Hs as [|c0 s|c0 s Hc|c0 c1 s H0 H1|c0 c1 c2 s H0 H1 H2 Hlo Hhi
                 |c0 c1 c2 c3 s H0 H1 H2 H3 Hlo Hhi].
  - done.
  - change (upto (String c0 s) 1) with (String c0 EmptyString).
    destruct (DecodeRuneInString (String c0 EmptyString)) as [r' sz'] eqn:E.
    assert (sz' = 1) as ->.
    { pose proof (decode_size (String c0 EmptyString) ltac:(done)) as Hsz.
      rewrite E, len_String in Hsz. change (len EmptyString) with 0 in Hsz.
      simpl in Hsz. lia. }
    apply (decode_prefix (String c0 s) 1) in E as [E|[-> _]]; congruence.
  - by apply decode_ascii.
  - by destruct (decoded_decode _ _ _ (decoded_2 c0 c1 EmptyString H0 H1)) as [?|[_ ?]].
  - by destruct (decoded_decode _ _ _ (decoded_3 c0 c1 c2 EmptyString H0 H1 H2 Hlo Hhi))
      as [?|[_ ?]].
  - by destruct (decoded_decode _ _ _
                   (decoded_4 c0 c1 c2 c3 EmptyString H0 H1 H2 H3 Hlo Hhi))
      as [?|[_ ?]].
Qed.

(** [string(r)] for the first rune of a string is mapped like the
    bytes of that rune. *)
Lemma Map_first_rune mapping s r size :
  s ≠ EmptyString → DecodeRuneInString s = (r, size) →
  Map mapping (EncodeRune r) = Map mapping (upto s size) ∧
  Map mapping (EncodeRune r)
    = if 0 <=? mapping r then EncodeRune (mapping r) else EmptyString.
Proof.
  intros Hs Hd. pose proof (decode_size s Hs) as Hsz. rewrite Hd in Hsz. simpl in Hsz.
  pose proof (decode_decoded s) as Hdd. rewrite Hd in Hdd. simpl in Hdd.
  rewrite (Map_rune mapping (EncodeRune r) r).
  - split; [|done]. rewrite (Map_rune mapping (upto s size) r); [done| |].
    + intros He%len_empty. rewrite len_upto in He; lia.
    + rewrite len_upto by lia. by apply decode_upto.
  - apply EncodeRune_nonempty.
  - by eapply decode_EncodeRune.
Qed.

(** [modifyFirstLetter] never slices out of range. *)
Lemma modifyFirstLetter_in_range s :
  0 ≤ (DecodeRuneInString s).2 ≤ len s.
Proof.
  destruct s as [|c s]; [done|].
  pose proof (decode_size (String c s) ltac:(done)). lia.
Qed.

(** The first rune, upper-cased, followed by the rest. *)
Lemma modifyFirstLetter_ToUpper s r size :
  s ≠ EmptyString → DecodeRuneInString s = (r, size) →
  1 ≤ size ≤ len s ∧
  s = upto s size +:+ from s size ∧
  modifyFirstLetter s ToUpper = ToUpper (upto s size) +:+ from s size ∧
  (0 ≤ unicode.ToUpper r →
   modifyFirstLetter s ToUpper = EncodeRune (unicode.ToUpper r) +:+ from s size).
Proof.
  intros Hs Hd. pose proof (decode_size s Hs) as Hsz. rewrite Hd in Hsz. simpl in Hsz.
  destruct (Map_first_rune unicode.ToUpper s r size Hs Hd) as [E1 E2].
  unfold modifyFirstLetter, ToUpper. rewrite Hd. split_and!; [lia..| | |].
  - by rewrite upto_from.
  - by rewrite E1.
  - intros Hr. rewrite E2. by destruct (Z.leb_spec 0 (unicode.ToUpper r)); [|lia].
Qed.

(** On a string that starts with an ASCII byte only that byte
    changes, and only if it is a lower-case letter. *)
Lemma modifyFirstLetter_ascii c s :
  byte_val c < RuneSelf →
  modifyFirstLetter (String c s) ToUpper
  = String (if (0x61 <=? byte_val c) && (byte_val c <=? 0x7A)
            then byte_of (byte_val c - 32) else c) s.
Proof.
  intros Hc. pose proof (byte_val_range c) as Hb.
  destruct (modifyFirstLetter_ToUpper (String c s) (byte_val c) 1
              ltac:(done) (decode_ascii _ _ Hc)) as (_ & _ & _ & E).
  rewrite E; change (from (String c s) 1) with s;
    unfold unicode.ToUpper, unicode.MaxASCII, RuneSelf in *;
    destruct (Z.leb_spec (byte_val c) 127); try lia;
    case_match; btest; try lia;
    rewrite EncodeRune_1 by (unfold rune1Max; lia);
    by rewrite ?byte_of_val.
Qed.

End runes.

(** ** Searching and splitting *)

Section searching.
Import strings.
Implicit Types (s t sep : string) (c : ascii).

Lemma prefix_len sep s : String.prefix sep s = true → len sep ≤ len s.
Proof.
  revert s. induction sep as [|a sep IH]; intros s.
  { intros _. apply len_nonneg. }
  destruct s as [|b s]; simpl; [done|].
  destruct (ascii_dec a b); [|done]. intros Hp%IH. rewrite !len_String. lia.
Qed.

Lemma prefix_char c b s :
  String.prefix (String c EmptyString) (String b s) = bool_decide (c = b).
Proof.
  simpl. destruct (ascii_dec c b); case_bool_decide; try done. by destruct s.
Qed.

Lemma Index_range s sep :
  Index s sep = -1 ∨ (0 ≤ Index s sep ∧ Index s sep + len sep ≤ len s).
Proof.
  induction s as [|b s IH]; cbn [Index].
  - destruct (String.prefix sep EmptyString) eqn:Hp; [right|by left].
    apply prefix_len in Hp. lia.
  - destruct (String.prefix sep (String b s)) eqn:Hp.
    { right. apply prefix_len in Hp. lia. }
    rewrite len_String. destruct (Z.leb_spec 0 (Index s sep)); [right|by left]. lia.
Qed.

Lemma LastIndex_range s sep :
  LastIndex s sep = -1 ∨ (0 ≤ LastIndex s sep ∧ LastIndex s sep + len sep ≤ len s).
Proof.
  induction s as [|b s IH]; cbn [LastIndex].
  - destruct (String.prefix sep EmptyString) eqn:Hp; [right|by left].
    apply prefix_len in Hp. lia.
  - rewrite len_String. destruct (Z.leb_spec 0 (LastIndex s sep)); [right; lia|].
    destruct (String.prefix sep (String b s)) eqn:Hp; [right|by left].
    apply prefix_len in Hp. rewrite len_String in Hp. lia.
Qed.

(** The last occurrence of a byte is found in every prefix that
    reaches beyond it. *)
Lemma LastIndex_stake c s (k : nat) :
  LastIndex s (String c EmptyString) < Z.of_nat k →
  LastIndex (stake k s) (String c EmptyString) = LastIndex s (String c EmptyString).
Proof.
  revert k. induction s as [|b s IH]; intros k Hk.
  { by rewrite stake_empty. }
  destruct k as [|k].
  { destruct (LastIndex_range (String b s) (String c EmptyString)) as [E|?]; [|lia].
    by rewrite E. }
  cbn [stake LastIndex] in *. rewrite !prefix_char in *.
  destruct (Z.leb_spec 0 (LastIndex s (String c EmptyString))).
  - rewrite IH by lia. by destruct (Z.leb_spec 0 (LastIndex s (String c EmptyString))); [|lia].
  - rewrite IH.
    + by destruct (Z.leb_spec 0 (LastIndex s (String c EmptyString))); [lia|].
    + destruct (LastIndex_range s (String c EmptyString)); lia.
Qed.

(** The byte found is the separator, and none follows it. *)
Lemma LastIndex_char c s :
  let i := LastIndex s (String c EmptyString) in
  (i = -1 ∨ (0 ≤ i < len s ∧ at_ s i = byte_val c)) ∧
  ∀ j, i < j < len s → at_ s j ≠ byte_val c.
Proof.
  induction s as [|b s [IH1 IH2]]; cbn [LastIndex].
  { split; [by left|]. unfold len. simpl. lia. }
  rewrite prefix_char, len_String. pose proof (len_nonneg s).
  assert (∀ j, 0 < j → at_ (String b s) j = at_ s (j - 1)) as Hat.
  { intros j Hj. unfold at_. replace (Z.to_nat j) with (S (Z.to_nat (j - 1))) by lia.
    done. }
  assert (byte_val b = byte_val c → b = c) as Hinj.
  { intros E. by rewrite <-(byte_of_val b), <-(byte_of_val c), E. }
  destruct (Z.leb_spec 0 (LastIndex s (String c EmptyString))).
  - split.
    + right. destruct IH1 as [?|[? ?]]; [lia|]. split; [lia|].
      rewrite Hat by lia. by replace (LastIndex s (String c EmptyString) + 1 - 1)
        with (LastIndex s (String c EmptyString)) by lia.
    + intros j Hj. rewrite Hat by lia. apply IH2. lia.
  - case_bool_decide as Hc.
    + subst b. split; [right; split; [lia|done]|].
      intros j Hj. rewrite Hat by lia. apply IH2. lia.
    + split; [by left|]. intros j Hj. destruct (Z.eq_dec j 0) as [->|].
      * intros E. apply Hc. symmetry. by apply Hinj.
      * rewrite Hat by lia. apply IH2. lia.
Qed.

Lemma length_app s t :
  String.length (s +:+ t) = (String.length s + String.length t)%nat.
Proof. induction s as [|b s IH]; [done|]. rewrite app_String. simpl. by rewrite IH. Qed.

Lemma stake_app s t : stake (String.length s) (s +:+ t) = s.
Proof.
  induction s as [|b s IH]; [by destruct t|]. rewrite app_String. simpl. by rewrite IH.
Qed.

Lemma sdrop_app s t : sdrop (String.length s) (s +:+ t) = t.
Proof. induction s as [|b s IH]; [done|]. by rewrite app_String. Qed.

(** The two shapes of [SplitN(value, ":", 2)]. *)
Lemma SplitN_colon value :
  let m := Index value ":" in
  (m = -1 ∧ SplitN value ":" 2 = [value]) ∨
  (0 ≤ m < len value ∧ SplitN value ":" 2 = [upto value m; from value (m + 1)]).
Proof.
  cbv zeta. destruct (Index_range value ":") as [E|[H1 H2]].
  - left. split; [done|]. unfold SplitN. destruct value as [|b v]; [done|].
    rewrite len_String. pose proof (len_nonneg v).
    replace (Z.to_nat (Z.min 2 (1 + len v + 1) - 1)) with 1%nat by lia.
    cbn [genSplit]. by rewrite E.
  - right. change (len ":") with 1 in H2. split; [lia|]. unfold SplitN.
    replace (Z.to_nat (Z.min 2 (len value + 1) - 1)) with 1%nat by lia.
    cbn [genSplit]. by destruct (Z.ltb_spec (Index value ":") 0); [lia|].
Qed.

Lemma Index_colon_app name ty :
  Index name ":" = -1 → Index (name +:+ ":" +:+ ty) ":" = len name.
Proof.
  induction name as [|b name IH].
  { intros _. change (EmptyString +:+ ":" +:+ ty) with (String ":"%char ty).
    cbn [Index]. by rewrite prefix_char. }
  rewrite app_String, len_String. cbn [Index]. rewrite !prefix_char.
  case_bool_decide; [done|].
  destruct (Z.leb_spec 0 (Index name ":")); [lia|]. intros _.
  rewrite IH; [|destruct (Index_range name ":"); lia].
  pose proof (len_nonneg name). destruct (Z.leb_spec 0 (len name)); lia.
Qed.

(** A string with a colon splits at the first one. *)
Lemma SplitN_name_type name ty :
  Index name ":" = -1 → SplitN (name +:+ ":" +:+ ty) ":" 2 = [name; ty].
Proof.
  intros Hn. destruct (SplitN_colon (name +:+ ":" +:+ ty)) as [[E _]|[_ ->]].
  { rewrite Index_colon_app in E by done. pose proof (len_nonneg name). lia. }
  rewrite Index_colon_app by done. unfold upto, from, len.
  replace (Z.to_nat (Z.of_nat (String.length name) + 1))
    with (String.length (name +:+ ":")).
  - rewrite Nat2Z.id, stake_app. by rewrite <-append_assoc, sdrop_app.
  - rewrite length_app. simpl. lia.
Qed.

End searching.

(** ** The parser *)

Section parser.
Import utf8 strings.
Context `{CaseTables}.
Implicit Types (value s : string) (r size : Z).

Lemma NewField_untyped value (p0 : string) :
  SplitN value ":" 2 = [p0] →
  NewField value
  = ({| Kind := FieldKindDefault; Name := fieldName p0; Type_ := EmptyString |},
     validation (fieldName p0) EmptyString false).
Proof.
  intros Hs. unfold NewField, validation. rewrite Hs. cbn [Validate Kind Name].
  fold (fieldName p0). by destruct (decide (fieldName p0 = EmptyString)).
Qed.

Lemma NewField_typed value (p0 p1 : string) :
  SplitN value ":" 2 = [p0; p1] →
  let ty := TrimSpace p1 in
  let dot := LastIndex ty "." in
  let slash := LastIndex ty "/" in
  NewField value
  = if slash <? dot then
      ({| Kind := FieldKindCustomType; Name := fieldName p0; Type_ := ty |},
       validation (fieldName p0) ty true)
    else if dot =? -1 then
      ({| Kind := FieldKindBuiltInOnly; Name := fieldName p0; Type_ := ty |},
       validation (fieldName p0) ty true)
    else (FieldFlag_zero, Some ErrInvalidFormat).
Proof.
  intros Hs. unfold NewField, validation. rewrite Hs. cbv zeta.
  rewrite TrimSpace_idemp. fold (fieldName p0).
  repeat case_match; try done; cbn [Validate Kind Name Type_] in *;
    repeat (case_decide || case_bool_decide); simplify_eq/=; done.
Qed.

Lemma Map_EncodeRune mapping s r size :
  DecodeRuneInString s = (r, size) →
  Map mapping (EncodeRune r)
  = if 0 <=? mapping r then EncodeRune (mapping r) else EmptyString.
Proof.
  intros Hd. pose proof (decode_decoded s) as Hdd. rewrite Hd in Hdd.
  apply Map_rune; [apply EncodeRune_nonempty|by eapply decode_EncodeRune].
Qed.

Lemma app_nonempty s t : s ≠ EmptyString → s +:+ t ≠ EmptyString.
Proof. by destruct s. Qed.

(** The name is not empty, whatever the flag: an empty first part
    decodes to [RuneError], which is written out. *)
Lemma fieldName_nonempty (p0 : string) :
  0 ≤ unicode.ToUpper (DecodeRuneInString (TrimSpace p0)).1 →
  fieldName p0 ≠ EmptyString.
Proof.
  intros Hr. unfold fieldName, modifyFirstLetter, ToUpper.
  destruct (DecodeRuneInString (TrimSpace p0)) as [r size] eqn:Hd.
  rewrite (Map_EncodeRune _ _ _ _ Hd). simpl in Hr.
  destruct (Z.leb_spec 0 (unicode.ToUpper r)); [|lia].
  apply app_nonempty, EncodeRune_nonempty.
Qed.

Lemma LastIndex_empty sep : sep ≠ EmptyString → LastIndex EmptyString sep = -1.
Proof. by destruct sep. Qed.

(** C1. A flag [name:type] is classified by the last dot and the last
    slash of the trimmed type: a dot behind the last slash (or with no
    slash) gives [FieldKindCustomType]; no dot gives
    [FieldKindBuiltInOnly]; the type is kept verbatim in both; a dot
    that is not behind the last slash gives [ErrInvalidFormat].  The
    three cases cover every flag with a colon, and in the first two
    the only errors are those of [Validate] for an empty name or
    type. *)
Theorem NewField_classification value (p0 p1 : string) :
  SplitN value ":" 2 = [p0; p1] →
  let ty := TrimSpace p1 in
  let dot := LastIndex ty "." in
  let slash := LastIndex ty "/" in
  (-1 ≤ dot ∧ -1 ≤ slash) ∧
  (slash < dot →
   NewField value
   = ({| Kind := FieldKindCustomType; Name := fieldName p0; Type_ := ty |},
      if decide (fieldName p0 = EmptyString)
      then Some (errorsNew "name is required") else None)) ∧
  (dot = -1 →
   NewField value
   = ({| Kind := FieldKindBuiltInOnly; Name := fieldName p0; Type_ := ty |},
      if decide (fieldName p0 = EmptyString)
      then Some (errorsNew "name is required")
      else if decide (ty = EmptyString)
           then Some (errorsNew "type is required") else None)) ∧
  (0 ≤ dot ≤ slash → NewField value = (FieldFlag_zero, Some ErrInvalidFormat)).
Proof.
  intros Hs ty dot slash. rewrite (NewField_typed _ _ _ Hs). fold ty dot slash.
  pose proof (LastIndex_range ty ".") as Hdot.
  pose proof (LastIndex_range ty "/") as Hslash. fold dot in Hdot. fold slash in Hslash.
  split; [lia|]. unfold validation.
  split; [|split]; intros Hc.
  - destruct (Z.ltb_spec slash dot); [|lia].
    assert (ty ≠ EmptyString) as Hty.
    { intros E. subst dot. rewrite E in Hc, Hslash. cbn in Hc, Hslash. lia. }
    destruct (decide (fieldName p0 = EmptyString)); [done|].
    by rewrite bool_decide_eq_false_2.
  - destruct (Z.ltb_spec slash dot); [lia|].
    destruct (Z.eqb_spec dot (-1)); [|done].
    destruct (decide (fieldName p0 = EmptyString)); [done|].
    by destruct (decide (ty = EmptyString));
      [rewrite bool_decide_eq_true_2|rewrite bool_decide_eq_false_2].
  - destruct (Z.ltb_spec slash dot); [lia|].
    by destruct (Z.eqb_spec dot (-1)); [lia|].
Qed.

(** C7. The name of a flag is its trimmed first part with the first
    rune upper-cased and the bytes behind that rune unchanged: the
    rune is decoded as UTF-8, so it may take up to four bytes. *)
Theorem NewField_first_letter value (p0 : string) (rest : list string) r size :
  SplitN value ":" 2 = p0 :: rest →
  (NewField value).2 ≠ Some ErrInvalidFormat →
  TrimSpace p0 ≠ EmptyString →
  DecodeRuneInString (TrimSpace p0) = (r, size) →
  let s := TrimSpace p0 in
  1 ≤ size ≤ len s ∧
  s = upto s size +:+ from s size ∧
  Name (NewField value).1 = ToUpper (upto s size) +:+ from s size ∧
  (0 ≤ unicode.ToUpper r →
   Name (NewField value).1 = EncodeRune (unicode.ToUpper r) +:+ from s size ∧
   (rest = [] →
    NewField value
    = ({| Kind := FieldKindDefault;
          Name := EncodeRune (unicode.ToUpper r) +:+ from s size;
          Type_ := EmptyString |}, None))).
Proof.
  intros Hs Herr Hne Hd s.
  destruct (modifyFirstLetter_ToUpper s r size Hne Hd) as (Hsz & Happ & E1 & E2).
  assert (Name (NewField value).1 = fieldName p0) as HN.
  { destruct (SplitN_colon value) as [[_ Hs']|[_ Hs']]; rewrite Hs' in Hs;
      simplify_eq.
    - by rewrite (NewField_untyped _ _ Hs').
    - revert Herr. rewrite (NewField_typed _ _ _ Hs'). cbv zeta.
      by repeat case_match. }
  split_and!; [lia..|done| |].
  - by rewrite HN.
  - intros Hr. rewrite HN. split; [by apply E2|].
    intros ->. rewrite (NewField_untyped _ _ Hs). unfold validation.
    pose proof (fieldName_nonempty p0) as Hn. rewrite Hd in Hn.
    destruct (decide (fieldName p0 = EmptyString)) as [E|_]; [by apply Hn in E|].
    unfold fieldName. fold s. by rewrite E2.
Qed.

(** C10. A flag that is empty, or only white space, has no name to
    reject: the first rune of the empty string decodes to [RuneError]
    with width 0, and the name becomes that one rune, U+FFFD, that is
    the bytes EF BF BD.  ([RuneError] has no upper case.) *)
Theorem NewField_empty_name value :
  SplitN value ":" 2 = [value] →
  TrimSpace value = EmptyString →
  upperCase RuneError = RuneError →
  NewField value
  = ({| Kind := FieldKindDefault; Name := EncodeRune RuneError; Type_ := EmptyString |},
     None) ∧
  EncodeRune RuneError
  = String (byte_of 0xEF) (String (byte_of 0xBF) (String (byte_of 0xBD) EmptyString)).
Proof.
  intros Hs Ht Hup. split; [|done].
  rewrite (NewField_untyped _ _ Hs).
  assert (fieldName value = EncodeRune RuneError) as ->; [|done].
  unfold fieldName, modifyFirstLetter, ToUpper. rewrite Ht. cbn [DecodeRuneInString].
  rewrite (Map_EncodeRune _ EmptyString _ 0) by done.
  assert (unicode.ToUpper RuneError = RuneError) as -> by apply Hup.
  done.
Qed.

End parser.

(** ** The resolver *)

Section resolver.
Import utf8 strings.
Context `{CaseTables} `{GenValidate}.
Implicit Types (f : FieldFlag) (g field : gen.Field) (fs : list FieldFlag)
  (sp sf : gset string) (ty : string).

Lemma slice_upto ty hi : 0 ≤ hi ≤ len ty → slice ty 0 hi = Some (upto ty hi).
Proof.
  intros Hh. unfold slice, upto.
  destruct (Z.leb_spec 0 0); [|lia]. destruct (Z.leb_spec 0 hi); [|lia].
  destruct (Z.leb_spec hi (len ty)); [|lia]. simpl. by rewrite Z.sub_0_r.
Qed.

Lemma slice_from ty lo : 0 ≤ lo ≤ len ty → slice ty lo (len ty) = Some (from ty lo).
Proof.
  intros Hl. unfold slice, from.
  destruct (Z.leb_spec 0 lo); [|lia]. destruct (Z.leb_spec lo (len ty)); [|lia].
  destruct (Z.leb_spec (len ty) (len ty)); [|lia]. simpl.
  rewrite stake_all; [done|]. rewrite length_sdrop. unfold len. lia.
Qed.

Lemma slice_negative ty hi : hi < 0 → slice ty 0 hi = None.
Proof. intros Hh. unfold slice. by destruct (Z.leb_spec 0 hi); [lia|]. Qed.

Lemma resolveType_default f field sp :
  Kind f = FieldKindDefault →
  resolveType f field sp = Continue (gen.setFieldType field "interface{}", sp).
Proof. intros E. unfold resolveType. by rewrite E. Qed.

Lemma resolveType_builtin f field sp :
  Kind f = FieldKindBuiltInOnly →
  resolveType f field sp = Continue (gen.setFieldType field (Type_ f), sp).
Proof. intros E. unfold resolveType. by rewrite E. Qed.

Lemma resolveType_unsupported f field sp :
  Kind f ≠ FieldKindDefault → Kind f ≠ FieldKindBuiltInOnly →
  Kind f ≠ FieldKindCustomType →
  resolveType f field sp = Abort ErrUnsupportedFlagFormat.
Proof.
  intros E0 E1 E2. unfold resolveType.
  destruct (Z.eqb_spec (Kind f) FieldKindDefault); [done|].
  destruct (Z.eqb_spec (Kind f) FieldKindBuiltInOnly); [done|].
  by destruct (Z.eqb_spec (Kind f) FieldKindCustomType).
Qed.

(** A type without a dot makes [f.Type[:dot]] panic. *)
Lemma resolveType_custom_panic f field sp :
  Kind f = FieldKindCustomType → LastIndex (Type_ f) "." = -1 →
  resolveType f field sp = Crash.
Proof.
  intros E Hd. unfold resolveType. rewrite E, Hd.
  change (FieldKindCustomType =? FieldKindDefault) with false.
  change (FieldKindCustomType =? FieldKindBuiltInOnly) with false.
  change (FieldKindCustomType =? FieldKindCustomType) with true. cbv iota zeta.
  by rewrite slice_negative.
Qed.

Lemma resolveType_custom f field sp :
  Kind f = FieldKindCustomType → 0 ≤ LastIndex (Type_ f) "." →
  resolveType f field sp
  = Continue
      (gen.setFieldType (gen.SetPackage field (importPath (Type_ f)))
         (from (Type_ f) (LastIndex (importPath (Type_ f)) "/" + 1)),
       {[ importPath (Type_ f) ]} ∪ sp).
Proof.
  intros E Hd. unfold resolveType, importPath. rewrite E.
  change (FieldKindCustomType =? FieldKindDefault) with false.
  change (FieldKindCustomType =? FieldKindBuiltInOnly) with false.
  change (FieldKindCustomType =? FieldKindCustomType) with true. cbv iota zeta.
  destruct (LastIndex_range (Type_ f) ".") as [?|[_ Hr]]; [lia|].
  change (len ".") with 1 in Hr.
  rewrite slice_upto by lia.
  destruct (LastIndex_range (upto (Type_ f) (LastIndex (Type_ f) ".")) "/")
    as [->|[? Hs]].
  - rewrite slice_from; [done|]. pose proof (len_nonneg (Type_ f)). lia.
  - rewrite len_upto in Hs by lia. change (len "/") with 1 in Hs.
    by rewrite slice_from by lia.
Qed.

Lemma Kind_cases f :
  Kind f = FieldKindDefault ∨ Kind f = FieldKindBuiltInOnly ∨
  (Kind f = FieldKindCustomType ∧ LastIndex (Type_ f) "." = -1) ∨
  (Kind f = FieldKindCustomType ∧ 0 ≤ LastIndex (Type_ f) ".") ∨
  (Kind f ≠ FieldKindDefault ∧ Kind f ≠ FieldKindBuiltInOnly ∧
   Kind f ≠ FieldKindCustomType).
Proof.
  destruct (LastIndex_range (Type_ f) ".") as [?|[? _]];
    destruct (Z.eq_dec (Kind f) FieldKindDefault);
    destruct (Z.eq_dec (Kind f) FieldKindBuiltInOnly);
    destruct (Z.eq_dec (Kind f) FieldKindCustomType); tauto.
Qed.

(** The [switch] touches the set of imports only by adding the path
    of the flag, and the field does not depend on the set. *)
Lemma resolveType_fieldOf f sp :
  resolveType f (newField f) sp
  = match fieldOf f with
    | Continue g => Continue (g, pathOf f ∪ sp)
    | Abort err => Abort err
    | Crash => Crash
    end.
Proof.
  unfold fieldOf, pathOf.
  destruct (Kind_cases f) as [E|[E|[[E Hd]|[[E Hd]|(E0 & E1 & E2)]]]].
  - rewrite !resolveType_default, E by done. cbn. by rewrite (left_id_L ∅ (∪)).
  - rewrite !resolveType_builtin, E by done. cbn. by rewrite (left_id_L ∅ (∪)).
  - by rewrite !resolveType_custom_panic.
  - rewrite !resolveType_custom, E by done. done.
  - by rewrite !resolveType_unsupported.
Qed.

Lemma fieldOf_name f g : fieldOf f = Continue g → gen.FieldName g = Name f.
Proof.
  unfold fieldOf.
  destruct (Kind_cases f) as [E|[E|[[E Hd]|[[E Hd]|(E0 & E1 & E2)]]]].
  - rewrite resolveType_default by done. by intros [= <-].
  - rewrite resolveType_builtin by done. by intros [= <-].
  - by rewrite resolveType_custom_panic.
  - rewrite resolveType_custom by done. by intros [= <-].
  - by rewrite resolveType_unsupported.
Qed.

(** One pass through the loop body. *)
Lemma resolveFields_cons f fs (gf : list gen.Field) sf sp :
  resolveFields (f :: fs) gf sf sp
  = match fieldOf f with
    | Crash => Crash
    | Abort err => Abort err
    | Continue g =>
      match Field_Validate g with
      | Some err => Abort (errInvalidField (Name f) err)
      | None =>
        if decide (Name f ∈ sf) then Abort (errDuplicated (Name f))
        else resolveFields fs (gf ++ [g]) ({[Name f]} ∪ sf) (pathOf f ∪ sp)
      end
    end.
Proof.
  cbn [resolveFields]. fold (newField f). rewrite resolveType_fieldOf.
  destruct (fieldOf f) as [g|err|] eqn:Hg; [|done..].
  apply fieldOf_name in Hg as ->. done.
Qed.

(** What the loop has done when it runs to its end. *)
Lemma resolveFields_Continue fs (gf gf' : list gen.Field) sf sp sp' :
  resolveFields fs gf sf sp = Continue (gf', sp') →
  ∃ gs,
    Forall2 (λ f g, fieldOf f = Continue g ∧ Field_Validate g = None) fs gs ∧
    gf' = gf ++ gs ∧
    sp' = pkgPaths fs ∪ sp ∧
    NoDup (Name <$> fs) ∧ (∀ f, f ∈ fs → Name f ∉ sf).
Proof.
  revert gf sf sp. induction fs as [|f fs IH]; intros gf sf sp.
  { intros [= <- <-]. exists []. split_and!; try done.
    - by rewrite app_nil_r.
    - cbn. by rewrite (left_id_L ∅ (∪)).
    - constructor.
    - intros f Hf. by apply elem_of_nil in Hf. }
  rewrite resolveFields_cons.
  destruct (fieldOf f) as [g|err|] eqn:Hg; [|done..].
  destruct (Field_Validate g) eqn:Hv; [done|].
  destruct (decide (Name f ∈ sf)) as [|Hnew]; [done|].
  intros (gs & HF & -> & -> & Hnd & Hsf)%IH.
  exists (g :: gs). split_and!.
  - by constructor.
  - by rewrite <-app_assoc.
  - cbn. set_solver.
  - cbn. constructor; [|done]. intros (f' & Hn & Hf')%list_elem_of_fmap.
    apply (Hsf f' Hf'). rewrite <-Hn. set_solver.
  - intros f' [->|Hf']%elem_of_cons; [done|].
    intros Hin. apply (Hsf f' Hf'). set_solver.
Qed.

(** The loop stops at the first flag whose name was seen, if all
    flags up to that one pass. *)
Lemma resolveFields_duplicate (pre : list FieldFlag) f post
    (gf : list gen.Field) sf sp :
  Forall passes (pre ++ [f]) →
  NoDup (Name <$> pre) → (∀ f', f' ∈ pre → Name f' ∉ sf) →
  Name f ∈ Name <$> pre ∨ Name f ∈ sf →
  resolveFields (pre ++ f :: post) gf sf sp = Abort (errDuplicated (Name f)).
Proof.
  revert gf sf sp. induction pre as [|f0 pre IH]; intros gf sf sp Hp Hnd Hsf Hdup.
  { cbn [app]. rewrite resolveFields_cons.
    apply Forall_singleton in Hp as (g & -> & ->).
    destruct Hdup as [Hdup|Hdup]; [by apply elem_of_nil in Hdup|].
    by destruct (decide (Name f ∈ sf)). }
  cbn [app] in *. rewrite resolveFields_cons.
  apply Forall_cons in Hp as [(g & -> & ->) Hp].
  cbn in Hnd. apply NoDup_cons in Hnd as [Hf0 Hnd].
  destruct (decide (Name f0 ∈ sf)) as [Hin|_].
  { exfalso. apply (Hsf f0); [left|done]. }
  apply IH; [done..| |].
  - intros f' Hf'. intros [Heq%elem_of_singleton|Hin]%elem_of_union.
    + apply Hf0. apply list_elem_of_fmap. eauto.
    + apply (Hsf f'); [by right|done].
  - destruct Hdup as [[->|Hdup]%elem_of_cons|Hdup]; [|by left|].
    + right. set_solver.
    + right. set_solver.
Qed.

(** ** Sorting the imports *)

Lemma sort_Strings_sorted (l : list string) : Sorted String.le (sort_Strings l).
Proof. apply (Sorted_merge_sort String.le). Qed.

Lemma sort_Strings_perm (l : list string) : sort_Strings l ≡ₚ l.
Proof. apply (merge_sort_Permutation String.le). Qed.

(** Whatever order the keys of the map come in, sorting leaves one
    list. *)
Lemma sort_Strings_order (order1 order2 : gset string → list string) sp :
  rangeOrder order1 → rangeOrder order2 →
  sort_Strings (order1 sp) = sort_Strings (order2 sp).
Proof.
  intros H1 H2. apply (Sorted_unique String.le).
  - apply sort_Strings_sorted.
  - apply sort_Strings_sorted.
  - rewrite !sort_Strings_perm. by rewrite (H1 sp), (H2 sp).
Qed.

Lemma sort_Strings_elem (order : gset string → list string) sp x :
  rangeOrder order → x ∈ sort_Strings (order sp) ↔ x ∈ sp.
Proof. intros Ho. by rewrite sort_Strings_perm, (Ho sp), elem_of_elements. Qed.

Lemma sort_Strings_NoDup (order : gset string → list string) sp :
  rangeOrder order → NoDup (sort_Strings (order sp)).
Proof. intros Ho. rewrite sort_Strings_perm, (Ho sp). apply NoDup_elements. Qed.

(** ** The whole of [ParseFields] *)

Lemma ParseFields_success order pkg version fs genPkg (genFields : list gen.Field) :
  ParseFields order pkg version fs = Return (genPkg, genFields, None) →
  Forall2 (λ f g, fieldOf f = Continue g ∧ Field_Validate g = None) fs genFields ∧
  genPkg = {| gen.PackageName := pkg;
              gen.ImportPackages := sort_Strings (order (pkgPaths fs ∪ {["context"]}));
              gen.Version := version |} ∧
  NoDup (Name <$> fs).
Proof.
  unfold ParseFields.
  destruct (resolveFields fs [] ∅ {["context"]}) as [[gf sp]|err|] eqn:Hr; [|done..].
  apply resolveFields_Continue in Hr as (gs & HF & -> & -> & Hnd & _).
  case_match; [done|]. by intros [= <- <-].
Qed.

Lemma ParseFields_field order pkg version fs genPkg (genFields : list gen.Field)
    (i : nat) f :
  ParseFields order pkg version fs = Return (genPkg, genFields, None) →
  fs !! i = Some f →
  ∃ g, genFields !! i = Some g ∧ fieldOf f = Continue g.
Proof.
  intros (HF & _)%ParseFields_success Hi.
  destruct (Forall2_lookup_l _ _ _ _ _ HF Hi) as (g & Hg & Hf & _). eauto.
Qed.

(** A parsed flag of kind [FieldKindCustomType] has its last dot
    behind its last slash. *)
Lemma NewField_custom value f err :
  NewField value = (f, err) → Kind f = FieldKindCustomType →
  LastIndex (Type_ f) "/" < LastIndex (Type_ f) ".".
Proof.
  intros HN Hk.
  destruct (SplitN_colon value) as [[_ Hs]|[_ Hs]].
  - rewrite (NewField_untyped _ _ Hs) in HN. by simplify_eq.
  - rewrite (NewField_typed _ _ _ Hs) in HN. cbv zeta in HN.
    repeat case_match; simplify_eq/=; try done. by ztest.
Qed.

(** C2, as the code has it.  For a parsed flag of kind
    [FieldKindCustomType] the type that is emitted is the type text
    behind its last slash (all of it when there is no slash): the
    last element of the import path, a dot, and the type name.  So
    [pkg/path.Type] is emitted as [path.Type]: the qualifier stays,
    as Go needs it to refer to a type of an imported package. *)
Theorem custom_FieldType value f err :
  NewField value = (f, err) → Kind f = FieldKindCustomType →
  let ty := Type_ f in
  let emitted := from ty (LastIndex ty "/" + 1) in
  fieldOf f
  = Continue {| gen.FieldName := Name f;
                gen.KeyName := modifyFirstLetter (Name f) ToLower +:+ "Key";
                gen.FieldType := emitted;
                gen.packageAlias := Some (importPath ty) |} ∧
  (∀ order pkg version fs genPkg (genFields : list gen.Field) (i : nat),
     ParseFields order pkg version fs = Return (genPkg, genFields, None) →
     fs !! i = Some f →
     ∃ g, genFields !! i = Some g ∧ gen.FieldType g = emitted).
Proof.
  intros HN Hk ty emitted. pose proof (NewField_custom _ _ _ HN Hk) as Hlt.
  fold ty in Hlt.
  assert (fieldOf f
          = Continue {| gen.FieldName := Name f;
                        gen.KeyName := modifyFirstLetter (Name f) ToLower +:+ "Key";
                        gen.FieldType := emitted;
                        gen.packageAlias := Some (importPath ty) |}) as Hf.
  { destruct (LastIndex_range ty "/") as [Hs|[Hs _]];
      destruct (LastIndex_range ty ".") as [Hd|[Hd Hd']]; try lia;
      unfold fieldOf; rewrite resolveType_custom by done;
      fold ty; unfold importPath, upto;
      rewrite (LastIndex_stake "/" ty) by lia; done. }
  split; [done|].
  intros order pkg version fs genPkg genFields i HP Hi.
  destruct (ParseFields_field _ _ _ _ _ _ _ _ HP Hi) as (g & Hg & Hfg).
  exists g. split; [done|]. rewrite Hf in Hfg. by simplify_eq.
Qed.

(** C3. For a parsed flag of kind [FieldKindCustomType] the resolver
    adds one path to the set of imports: the type text in front of its
    last dot.  That path is in the imports of every resolution the
    flag is part of. *)
Theorem custom_import_path value f err :
  NewField value = (f, err) → Kind f = FieldKindCustomType →
  let ty := Type_ f in
  let dot := LastIndex ty "." in
  (0 ≤ dot < len ty ∧ at_ ty dot = byte_val "." ∧
   ∀ j, dot < j < len ty → at_ ty j ≠ byte_val ".") ∧
  (∀ field sp, ∃ g, resolveType f field sp = Continue (g, {[ upto ty dot ]} ∪ sp)) ∧
  (∀ order pkg version fs genPkg (genFields : list gen.Field),
     rangeOrder order →
     ParseFields order pkg version fs = Return (genPkg, genFields, None) →
     f ∈ fs → upto ty dot ∈ gen.ImportPackages genPkg).
Proof.
  intros HN Hk ty dot. subst dot ty.
  pose proof (NewField_custom _ _ _ HN Hk) as Hlt.
  assert (0 ≤ LastIndex (Type_ f) ".") as Hdot.
  { destruct (LastIndex_range (Type_ f) "/") as [Hs|[Hs _]]; lia. }
  destruct (LastIndex_char "." (Type_ f)) as [[?|[? ?]] Hlast]; [lia|].
  split_and!; [lia..|done|done| |].
  - intros field sp. eexists. by apply resolveType_custom.
  - intros order pkg version fs genPkg genFields Ho HP Hf.
    apply ParseFields_success in HP as (_ & -> & _). cbn.
    apply sort_Strings_elem; [done|]. apply elem_of_union_l.
    clear -Hf Hk. induction Hf as [f fs|f f' fs Hf IH]; cbn [pkgPaths].
    + apply elem_of_union_l. unfold pathOf, importPath. rewrite Hk.
      change (FieldKindCustomType =? FieldKindCustomType) with true. cbv iota.
      set_solver.
    + apply elem_of_union_r. by apply IH.
Qed.

(** C4, as the code has it.  The type of a flag without a type is
    [interface{}], the empty interface as Go spelled it before 1.18. *)
Theorem default_FieldType f :
  Kind f = FieldKindDefault →
  (∀ field sp,
     resolveType f field sp = Continue (gen.setFieldType field "interface{}", sp)) ∧
  (∀ order pkg version fs genPkg (genFields : list gen.Field) (i : nat),
     ParseFields order pkg version fs = Return (genPkg, genFields, None) →
     fs !! i = Some f →
     ∃ g, genFields !! i = Some g ∧ gen.FieldType g = "interface{}").
Proof.
  intros Hk. split; [intros; by apply resolveType_default|].
  intros order pkg version fs genPkg genFields i HP Hi.
  destruct (ParseFields_field _ _ _ _ _ _ _ _ HP Hi) as (g & Hg & Hfg).
  exists g. split; [done|]. unfold fieldOf in Hfg.
  rewrite resolveType_default in Hfg by done. by simplify_eq.
Qed.

(** C6. The imports of a resolution hold [context], hold no path
    twice, and are in ascending order; they are [context] and the
    paths of the flags of kind [FieldKindCustomType], nothing else. *)
Theorem imports_sorted_unique order pkg version fs genPkg
    (genFields : list gen.Field) :
  rangeOrder order →
  ParseFields order pkg version fs = Return (genPkg, genFields, None) →
  "context" ∈ gen.ImportPackages genPkg ∧
  NoDup (gen.ImportPackages genPkg) ∧
  Sorted String.le (gen.ImportPackages genPkg) ∧
  (∀ p, p ∈ gen.ImportPackages genPkg ↔ p = "context" ∨ p ∈ pkgPaths fs).
Proof.
  intros Ho (_ & -> & _)%ParseFields_success. cbn. split_and!.
  - apply sort_Strings_elem; [done|]. set_solver.
  - by apply sort_Strings_NoDup.
  - apply sort_Strings_sorted.
  - intros p. rewrite sort_Strings_elem by done. set_solver.
Qed.

(** C9. The result of [ParseFields] does not depend on the order in
    which the runtime hands out the keys of [seenPkgs]; nor does the
    text generated from it. *)
Theorem ParseFields_deterministic order1 order2 pkg version fs :
  rangeOrder order1 → rangeOrder order2 →
  ParseFields order1 pkg version fs = ParseFields order2 pkg version fs ∧
  (∀ fields, generated order1 pkg version fields = generated order2 pkg version fields).
Proof.
  intros H1 H2.
  assert (∀ fs, ParseFields order1 pkg version fs = ParseFields order2 pkg version fs)
    as HP.
  { intros fs'. unfold ParseFields.
    destruct (resolveFields fs' [] ∅ {["context"]}) as [[gf sp]|err|]; [|done..].
    by rewrite (sort_Strings_order order1 order2 sp H1 H2). }
  split; [done|]. intros fields. unfold generated.
  destruct (setFields [] fields) as [fs'|]; [|done]. by rewrite HP.
Qed.

End resolver.

(** ** The generated text *)

Section emitter.
Import gen.
Context `{CaseTables} `{GenValidate}.
Implicit Types (g : Field) (fields : list Field) (s t : string).

Lemma concat_cons s (l : list string) :
  String.concat "" (s :: l) = s +:+ String.concat "" l.
Proof. destruct l; [by rewrite app_empty_r|done]. Qed.

Lemma concat_app (l1 l2 : list string) :
  String.concat "" (l1 ++ l2) = String.concat "" l1 +:+ String.concat "" l2.
Proof.
  induction l1 as [|s l1 IH]; [done|].
  by rewrite <-app_comm_cons, !concat_cons, IH, append_assoc.
Qed.

Lemma Generate_Contains pkg fields g :
  g ∈ fields → Contains (Generate pkg fields) (declarations g).
Proof.
  intros (l1 & l2 & ->)%list_elem_of_split. unfold Generate.
  rewrite map_app, concat_app. cbn [map]. rewrite concat_cons.
  exists (header pkg +:+ String.concat "" (map declarations l1)),
    (String.concat "" (map declarations l2)).
  by rewrite !append_assoc.
Qed.

End emitter.

(** ** The scenarios of the tests, and instances of the theorems *)

(** The flags of the tests and of the README are ASCII, and the
    validators of internal/gen accept them ([TestRun] expects the
    generated file): the scenarios are run with [asciiCase] and
    [acceptAll]. *)

Section scenarios.
Import utf8 strings.
Local Existing Instance asciiCase.
Local Existing Instance acceptAll.

Lemma rangeOrder_elements : rangeOrder elements.
Proof. intros m. reflexivity. Qed.

Lemma rangeOrder_reverse : rangeOrder (λ m, reverse (elements m)).
Proof. intros m. apply reverse_Permutation. Qed.

(** The names of the README: a flag is capitalised whatever the case
    tables are, as its first byte is ASCII. *)
Example NewField_userID `{CaseTables} :
  NewField "userID"
  = ({| Kind := FieldKindDefault; Name := "UserID"; Type_ := "" |}, None).
Proof.
  rewrite (NewField_untyped "userID" "userID") by done.
  unfold fieldName. change (TrimSpace "userID") with "userID".
  by rewrite modifyFirstLetter_ascii.
Qed.

Example NewField_UserID `{CaseTables} :
  NewField "UserID"
  = ({| Kind := FieldKindDefault; Name := "UserID"; Type_ := "" |}, None).
Proof.
  rewrite (NewField_untyped "UserID" "UserID") by done.
  unfold fieldName. change (TrimSpace "UserID") with "UserID".
  by rewrite modifyFirstLetter_ascii.
Qed.

(** White space is trimmed rune by rune: a space, a tab, a no-break
    space (C2 A0) and an ideographic space (E3 80 80) all go. *)
Example TrimSpace_blank :
  TrimSpace (" " +:+ String (byte_of 9) "" +:+ EncodeRune 0xA0 +:+ "x y"
             +:+ EncodeRune 0x3000 +:+ " ")
  = "x y".
Proof. vm_compute. reflexivity. Qed.

Example NewField_blank `{CaseTables} :
  upperCase RuneError = RuneError →
  NewField "  " = ({| Kind := FieldKindDefault; Name := EncodeRune RuneError;
                      Type_ := "" |}, None).
Proof.
  intros Hup.
  assert (SplitN "  " ":" 2 = ["  "]) as Hs by (vm_compute; reflexivity).
  rewrite (NewField_untyped _ _ Hs).
  assert (fieldName "  " = EncodeRune RuneError) as ->; [|done].
  unfold fieldName, modifyFirstLetter, ToUpper.
  assert (TrimSpace "  " = EmptyString) as -> by (vm_compute; reflexivity).
  cbn [DecodeRuneInString]. rewrite (Map_EncodeRune _ EmptyString _ 0) by done.
  assert (unicode.ToUpper RuneError = RuneError) as -> by apply Hup.
  done.
Qed.

(** A first letter of two bytes: e with acute accent (C3 A9) becomes
    E with acute accent (C3 89), and the key gets the lower case back. *)
Example NewField_two_bytes :
  @NewField latin1Case (EncodeRune 0xE9 +:+ "cole:int")
  = ({| Kind := FieldKindBuiltInOnly;
        Name := String (byte_of 0xC3) (String (byte_of 0x89) "cole");
        Type_ := "int" |}, None) ∧
  gen.KeyName (@newField latin1Case
                 {| Kind := FieldKindBuiltInOnly;
                    Name := String (byte_of 0xC3) (String (byte_of 0x89) "cole");
                    Type_ := "int" |})
  = String (byte_of 0xC3) (String (byte_of 0xA9) "coleKey").
Proof. vm_compute. split; reflexivity. Qed.

(** TestRun, "default field type must be interface{}". *)
Example generated_UserID :
  generated elements "gen" "" ["UserID"]
  = Some (lines [
      "// Code generated by valctx . DO NOT EDIT.";
      "";
      "package gen";
      "";
      "import (";
      "    " +:+ gen.quote_ +:+ "context" +:+ gen.quote_;
      ")";
      "";
      "type userIDKey struct{}";
      "";
      "// Get UserID retrieves the UserID from the context.";
      "func GetUserID(ctx context.Context) interface{} {";
      "    v := ctx.Value(userIDKey{})";
      "    return v";
      "}";
      "";
      "// SetUserID sets the UserID in the context.";
      "func SetUserID(ctx context.Context, v interface{}) context.Context {";
      "    return context.WithValue(ctx, userIDKey{}, v)";
      "}"]).
Proof. vm_compute. reflexivity. Qed.

(** TestRun, "field name capitalized (unexported to exported)". *)
Example generated_field1_int :
  generated elements "gen" "" ["field1:int"]
  = Some (lines [
      "// Code generated by valctx . DO NOT EDIT.";
      "";
      "package gen";
      "";
      "import (";
      "    " +:+ gen.quote_ +:+ "context" +:+ gen.quote_;
      ")";
      "";
      "type field1Key struct{}";
      "";
      "// Get Field1 retrieves the Field1 from the context.";
      "func GetField1(ctx context.Context) (int, bool) {";
      "    v, ok := ctx.Value(field1Key{}).(int)";
      "    return v, ok";
      "}";
      "";
      "// SetField1 sets the Field1 in the context.";
      "func SetField1(ctx context.Context, v int) context.Context {";
      "    return context.WithValue(ctx, field1Key{}, v)";
      "}"]).
Proof. vm_compute. reflexivity. Qed.

(** TestRun, "root cmd & field full duplicate". *)
Example ParseFields_UserID_twice :
  ParseFields elements "gen" "" [flag "UserID"; flag "UserID"]
  = Return (gen.Package_zero, [], Some (errDuplicated "UserID")).
Proof. vm_compute. reflexivity. Qed.

Example ParseFields_userID_UserID :
  ParseFields elements "gen" "" [flag "userID"; flag "UserID"]
  = Return (gen.Package_zero, [], Some (errDuplicated "UserID")).
Proof. vm_compute. reflexivity. Qed.

(** The flags of the README. *)
Example ParseFields_README :
  ParseFields elements "gen" "v0.0.1"
    [flag "UserID"; flag "TraceIDs:[]string"; flag "ClientUUID:github.com/google/uuid.UUID"]
  = Return
      ({| gen.PackageName := "gen";
          gen.ImportPackages := ["context"; "github.com/google/uuid"];
          gen.Version := "v0.0.1" |},
       [ {| gen.FieldName := "UserID"; gen.KeyName := "userIDKey";
            gen.FieldType := "interface{}"; gen.packageAlias := None |};
         {| gen.FieldName := "TraceIDs"; gen.KeyName := "traceIDsKey";
            gen.FieldType := "[]string"; gen.packageAlias := None |};
         {| gen.FieldName := "ClientUUID"; gen.KeyName := "clientUUIDKey";
            gen.FieldType := "uuid.UUID";
            gen.packageAlias := Some "github.com/google/uuid" |} ],
       None).
Proof. vm_compute. reflexivity. Qed.

End scenarios.

Section instances.
Import utf8 strings.
Local Existing Instance asciiCase.
Local Existing Instance acceptAll.

Lemma NewField_classification_witness :
  SplitN "Field1:github.com/user/pkg.User" ":" 2 = ["Field1"; "github.com/user/pkg.User"] ∧
  NewField "Field1:github.com/user/pkg.User"
  = ({| Kind := FieldKindCustomType; Name := "Field1";
        Type_ := "github.com/user/pkg.User" |}, None).
Proof.
  assert (SplitN "Field1:github.com/user/pkg.User" ":" 2
          = ["Field1"; "github.com/user/pkg.User"]) as Hs by (vm_compute; reflexivity).
  split; [exact Hs|].
  destruct (NewField_classification _ _ _ Hs) as (_ & Hc & _ & _).
  rewrite Hc; vm_compute; reflexivity.
Defined.

Lemma NewField_first_letter_witness :
  SplitN "userID" ":" 2 = ["userID"] ∧
  NewField "userID"
  = ({| Kind := FieldKindDefault; Name := "UserID"; Type_ := "" |}, None).
Proof.
  assert (SplitN "userID" ":" 2 = ["userID"]) as Hs by (vm_compute; reflexivity).
  split; [exact Hs|].
  destruct (NewField_first_letter "userID" "userID" [] 117 1 Hs) as (_ & _ & _ & Hc).
  - vm_compute. discriminate.
  - vm_compute. discriminate.
  - vm_compute. reflexivity.
  - destruct Hc as [_ Hc]; [vm_compute; discriminate|].
    rewrite (Hc eq_refl). vm_compute. reflexivity.
Defined.

Lemma NewField_empty_name_witness :
  SplitN "" ":" 2 = [""] ∧ TrimSpace "" = "" ∧
  NewField ""
  = ({| Kind := FieldKindDefault; Name := EncodeRune RuneError; Type_ := "" |}, None).
Proof.
  split; [vm_compute; reflexivity|]. split; [vm_compute; reflexivity|].
  apply (NewField_empty_name ""); vm_compute; reflexivity.
Defined.

(** C2 as the spec states it fails: the type emitted for
    [github.com/user/pkg.User] is [pkg.User], not the [User] that
    follows the last dot. *)
Lemma custom_FieldType_counterexample :
  let f := flag "Field1:github.com/user/pkg.User" in
  Kind f = FieldKindCustomType ∧
  from (Type_ f) (LastIndex (Type_ f) "." + 1) = "User" ∧
  ParseFields elements "gen" "" [f]
  = Return
      ({| gen.PackageName := "gen";
          gen.ImportPackages := ["context"; "github.com/user/pkg"];
          gen.Version := "" |},
       [ {| gen.FieldName := "Field1"; gen.KeyName := "field1Key";
            gen.FieldType := "pkg.User";
            gen.packageAlias := Some "github.com/user/pkg" |} ],
       None) ∧
  "pkg.User" ≠ "User".
Proof. vm_compute. repeat split; discriminate || reflexivity. Qed.

Lemma custom_FieldType_witness :
  let f := {| Kind := FieldKindCustomType; Name := "Field1";
              Type_ := "github.com/user/pkg.User" |} in
  NewField "Field1:github.com/user/pkg.User" = (f, None) ∧
  Kind f = FieldKindCustomType ∧
  ∃ g, fieldOf f = Continue g ∧ gen.FieldType g = "pkg.User".
Proof.
  intros f.
  assert (NewField "Field1:github.com/user/pkg.User" = (f, None)) as HN
    by (vm_compute; reflexivity).
  assert (Kind f = FieldKindCustomType) as Hk by reflexivity.
  split; [exact HN|]. split; [exact Hk|].
  destruct (custom_FieldType _ _ _ HN Hk) as [Hf _].
  eexists. split; [exact Hf|]. vm_compute. reflexivity.
Defined.

Lemma custom_import_path_witness :
  let f := {| Kind := FieldKindCustomType; Name := "Field1";
              Type_ := "github.com/user/pkg.User" |} in
  NewField "Field1:github.com/user/pkg.User" = (f, None) ∧
  Kind f = FieldKindCustomType ∧
  upto (Type_ f) (LastIndex (Type_ f) ".") = "github.com/user/pkg" ∧
  ∃ g, resolveType f (newField f) {["context"]}
       = Continue (g, {[ upto (Type_ f) (LastIndex (Type_ f) ".") ]} ∪ {["context"]}).
Proof.
  intros f.
  assert (NewField "Field1:github.com/user/pkg.User" = (f, None)) as HN
    by (vm_compute; reflexivity).
  assert (Kind f = FieldKindCustomType) as Hk by reflexivity.
  split; [exact HN|]. split; [exact Hk|]. split; [vm_compute; reflexivity|].
  destruct (custom_import_path _ _ _ HN Hk) as (_ & Hr & _).
  apply (Hr (newField f) {["context"]}).
Defined.

(** C4 as the spec states it fails: the type of a flag without a type
    is [interface{}], not [any]. *)
Lemma default_FieldType_counterexample :
  Kind (flag "UserID") = FieldKindDefault ∧
  ParseFields elements "gen" "" [flag "UserID"]
  = Return
      ({| gen.PackageName := "gen"; gen.ImportPackages := ["context"];
          gen.Version := "" |},
       [ {| gen.FieldName := "UserID"; gen.KeyName := "userIDKey";
            gen.FieldType := "interface{}"; gen.packageAlias := None |} ],
       None) ∧
  "interface{}" ≠ "any".
Proof. vm_compute. repeat split; discriminate || reflexivity. Qed.

Lemma default_FieldType_witness :
  Kind (flag "UserID") = FieldKindDefault ∧
  resolveType (flag "UserID") (newField (flag "UserID")) ∅
  = Continue (gen.setFieldType (newField (flag "UserID")) "interface{}", ∅).
Proof.
  assert (Kind (flag "UserID") = FieldKindDefault) as Hk by (vm_compute; reflexivity).
  split; [exact Hk|].
  destruct (default_FieldType (flag "UserID") Hk) as [Hr _]. apply Hr.
Defined.

Lemma imports_sorted_unique_witness :
  let fs := [flag "B:b/pkg.T"; flag "A:a/pkg.T"; flag "C:b/pkg.U"] in
  let genPkg := {| gen.PackageName := "gen";
                   gen.ImportPackages := ["a/pkg"; "b/pkg"; "context"];
                   gen.Version := "" |} in
  let genFields :=
    [ {| gen.FieldName := "B"; gen.KeyName := "bKey"; gen.FieldType := "pkg.T";
         gen.packageAlias := Some "b/pkg" |};
      {| gen.FieldName := "A"; gen.KeyName := "aKey"; gen.FieldType := "pkg.T";
         gen.packageAlias := Some "a/pkg" |};
      {| gen.FieldName := "C"; gen.KeyName := "cKey"; gen.FieldType := "pkg.U";
         gen.packageAlias := Some "b/pkg" |} ] in
  rangeOrder elements ∧
  ParseFields elements "gen" "" fs = Return (genPkg, genFields, None) ∧
  "context" ∈ gen.ImportPackages genPkg ∧
  NoDup (gen.ImportPackages genPkg) ∧
  Sorted String.le (gen.ImportPackages genPkg).
Proof.
  intros fs genPkg genFields.
  assert (ParseFields elements "gen" "" fs = Return (genPkg, genFields, None)) as HP
    by (vm_compute; reflexivity).
  split; [exact rangeOrder_elements|]. split; [exact HP|].
  destruct (imports_sorted_unique _ _ _ _ _ _ rangeOrder_elements HP)
    as (H1 & H2 & H3 & _).
  split; [exact H1|]. split; [exact H2|exact H3].
Defined.

Lemma ParseFields_deterministic_witness :
  rangeOrder elements ∧ rangeOrder (λ m, reverse (elements m)) ∧
  ParseFields elements "gen" "" [flag "B:b/pkg.T"; flag "A:a/pkg.T"]
  = ParseFields (λ m, reverse (elements m)) "gen" "" [flag "B:b/pkg.T"; flag "A:a/pkg.T"].
Proof.
  split; [exact rangeOrder_elements|]. split; [exact rangeOrder_reverse|].
  apply (ParseFields_deterministic elements (λ m, reverse (elements m)) "gen" ""
           [flag "B:b/pkg.T"; flag "A:a/pkg.T"] rangeOrder_elements rangeOrder_reverse).
Defined.

End instances.

(** * Further properties *)

(** ** Which values are flags *)

Section acceptance.
Import utf8 strings.
Context `{CaseTables}.
Implicit Types (value s : string) (r size : Z) (c b : ascii).

Lemma decode_nonneg s : 0 ≤ (DecodeRuneInString s).1.
Proof.
  pose proof (decode_decoded s) as Hd.
  destruct Hd; try done.
  - pose proof (byte_val_range c). lia.
  - apply Z.lor_nonneg. split; [apply Z.shiftl_nonneg|]; apply Z.land_nonneg; by right.
  - repeat (apply Z.lor_nonneg; split); try apply Z.shiftl_nonneg;
      apply Z.land_nonneg; by right.
  - repeat (apply Z.lor_nonneg; split); try apply Z.shiftl_nonneg;
      apply Z.land_nonneg; by right.
Qed.

Lemma ToUpper_nonneg r :
  (∀ r, unicode.MaxASCII < r → 0 ≤ upperCase r) → 0 ≤ r → 0 ≤ unicode.ToUpper r.
Proof.
  intros Hup Hr. unfold unicode.ToUpper. repeat case_match; btest; try lia. by apply Hup.
Qed.

Lemma Index_cons c b s :
  Index (String b s) (String c EmptyString)
  = if bool_decide (c = b) then 0
    else if 0 <=? Index s (String c EmptyString)
         then Index s (String c EmptyString) + 1 else -1.
Proof. cbn [Index]. by rewrite prefix_char. Qed.

Lemma Index_none_cons c b s :
  Index (String b s) (String c EmptyString) = -1
  ↔ c ≠ b ∧ Index s (String c EmptyString) = -1.
Proof.
  rewrite Index_cons. pose proof (Index_range s (String c EmptyString)).
  case_bool_decide; [split; [lia|by intros [? _]]|].
  destruct (Z.leb_spec 0 (Index s (String c EmptyString)));
    (split; [intros; split; [done|lia]|intros [_ ?]; lia]).
Qed.

Lemma Index_none_sdrop c (n : nat) s :
  Index s (String c EmptyString) = -1 → Index (sdrop n s) (String c EmptyString) = -1.
Proof.
  revert s. induction n as [|n IH]; intros [|b s]; simpl; try done.
  intros [_ Hs]%Index_none_cons. by apply IH.
Qed.

Lemma Index_none_stake c (n : nat) s :
  Index s (String c EmptyString) = -1 → Index (stake n s) (String c EmptyString) = -1.
Proof.
  revert s. induction n as [|n IH]; intros [|b s]; try done.
  intros [Hb Hs]%Index_none_cons. cbn [stake]. apply Index_none_cons. auto.
Qed.

Lemma Index_upto c s :
  0 ≤ Index s (String c EmptyString) →
  Index (upto s (Index s (String c EmptyString))) (String c EmptyString) = -1.
Proof.
  induction s as [|b s IH]; [done|]. rewrite Index_cons.
  case_bool_decide; [done|].
  destruct (Z.leb_spec 0 (Index s (String c EmptyString))) as [Hr|]; [|lia].
  intros _. unfold upto in *.
  replace (Z.to_nat (Index s (String c EmptyString) + 1))
    with (S (Z.to_nat (Index s (String c EmptyString)))) by lia.
  cbn [stake]. apply Index_none_cons. auto.
Qed.

Lemma TrimSpace_sub s : ∃ n k : nat, TrimSpace s = stake k (sdrop n s).
Proof.
  unfold TrimSpace, TrimFunc. rewrite TrimRightFunc_cut. unfold upto, TrimLeftFunc.
  case_match.
  - exists (String.length s), 0%nat. by rewrite stake_empty.
  - by eexists _, _.
Qed.

Lemma Index_none_TrimSpace c s :
  Index s (String c EmptyString) = -1 → Index (TrimSpace s) (String c EmptyString) = -1.
Proof.
  intros Hs. destruct (TrimSpace_sub s) as (n & k & ->).
  by apply Index_none_stake, Index_none_sdrop.
Qed.

Lemma TrimSpace_trimmed s : ltrimmed (TrimSpace s) ∧ rtrimmed (TrimSpace s).
Proof.
  unfold TrimSpace, TrimFunc.
  destruct (TrimRightFunc_stops (TrimLeftFunc s unicode.IsSpace))
    as (e & He & Hstop & ->).
  split; [apply ltrimmed_upto, TrimLeftFunc_ltrimmed|].
  destruct Hstop as [->|[_ Hsp]]; [left; apply upto_0|by right].
Qed.

Lemma trimmed_TrimSpace s : ltrimmed s → rtrimmed s → TrimSpace s = s.
Proof.
  intros Hl Hr. unfold TrimSpace, TrimFunc. rewrite TrimLeftFunc_fixed by done.
  pose proof (TrimRightFunc_fixed s (len s)) as F. rewrite upto_all in F.
  pose proof (len_nonneg s). apply F; [lia|].
  destruct s as [|c s]; [by left|].
  destruct Hr as [?|Hr]; [done|right]. rewrite upto_all. split; [|done].
  rewrite len_String. len_facts. lia.
Qed.

Lemma RuneStart_ascii z : 0 ≤ z < RuneSelf → RuneStart z = true.
Proof.
  intros Hz. unfold RuneStart, RuneSelf in *.
  apply negb_true_iff, Z.eqb_neq. intros E.
  assert (Z.testbit (Z.land z 192) 7 = Z.testbit 128 7) as Hb by by rewrite E.
  rewrite Z.land_spec in Hb. 
  assert (Z.testbit z 7 = false) as Hz7.
  { apply Z.testbit_false; [lia|]. change (2 ^ 7) with 128.
    rewrite Z.div_small by lia. done. }
  rewrite Hz7 in Hb. done.
Qed.

Lemma at_cons c s i : 0 < i → at_ (String c s) i = at_ s (i - 1).
Proof.
  intros Hi. unfold at_. replace (Z.to_nat i) with (S (Z.to_nat (i - 1))) by lia. done.
Qed.

Lemma from_cons c s i : 0 < i → from (String c s) i = from s (i - 1).
Proof.
  intros Hi. unfold from. replace (Z.to_nat i) with (S (Z.to_nat (i - 1))) by lia. done.
Qed.

Lemma scanBack_ext (fuel : nat) s s' start lim :
  (∀ i, lim ≤ i ≤ start → RuneStart (at_ s i) = RuneStart (at_ s' i)) →
  scanBack fuel s start lim = scanBack fuel s' start lim.
Proof.
  revert start. induction fuel as [|k IH]; intros start Hs; [done|].
  cbn [scanBack]. destruct (Z.ltb_spec start lim); [done|].
  rewrite <- Hs by lia. case_match; [done|]. apply IH. intros i Hi. apply Hs. lia.
Qed.

Lemma DecodeLast_head c c' s :
  byte_val c < RuneSelf → byte_val c' < RuneSelf → s ≠ EmptyString →
  DecodeLastRuneInString (String c' s) = DecodeLastRuneInString (String c s).
Proof.
  intros Hc Hc' Hs. unfold DecodeLastRuneInString. rewrite !len_String.
  assert (0 < len s) as Hl.
  { destruct s as [|b t]; [done|]. rewrite len_String. len_facts. lia. }
  destruct (Z.eqb_spec (1 + len s) 0); [lia|].
  replace (1 + len s - 1) with (len s) by lia.
  rewrite !at_cons by lia. case_match; [done|].
  assert (scanBack (Z.to_nat UTFMax) (String c' s) (len s - 1) (Z.max (1 + len s - UTFMax) 0)
          = scanBack (Z.to_nat UTFMax) (String c s) (len s - 1) (Z.max (1 + len s - UTFMax) 0))
    as ->.
  { apply scanBack_ext. intros i Hi. destruct (decide (i = 0)) as [->|].
    - unfold at_. simpl. pose proof (byte_val_range c). pose proof (byte_val_range c').
      by rewrite !RuneStart_ascii by lia.
    - rewrite !at_cons by lia. done. }
  set (start := Z.max _ 0). destruct (decide (start = 0)) as [->|Hne].
  - rewrite !from_0, !decode_ascii by done.
    by destruct (Z.eqb_spec (0 + 1) (1 + len s)); [lia|].
  - rewrite !from_cons by lia. done.
Qed.

Lemma upperByte_spec c :
  byte_val c < RuneSelf → unicode.IsSpace (byte_val c) = false →
  byte_val (upperByte c) < RuneSelf ∧
  unicode.IsSpace (byte_val (upperByte c)) = false ∧
  ¬ (0x61 ≤ byte_val (upperByte c) ≤ 0x7A) ∧
  (byte_val c ≠ 0x3A → byte_val (upperByte c) ≠ 0x3A).
Proof.
  intros Hc Hsp. pose proof (byte_val_range c). unfold upperByte, RuneSelf in *.
  case_match; btest; try (split_and!; [done..|lia|done]).
  rewrite byte_val_of by lia. split_and!; try lia.
  unfold unicode.IsSpace, unicode.MaxLatin1.
  repeat case_match; btest; try lia; done.
Qed.


Lemma fieldName_ascii (p0 : string) c s :
  TrimSpace p0 = String c s → byte_val c < RuneSelf →
  fieldName p0 = String (upperByte c) s ∧
  unicode.IsSpace (byte_val c) = false ∧
  rtrimmed (String (upperByte c) s).
Proof.
  intros Ht Hc. destruct (TrimSpace_trimmed p0) as [Hl Hr]. rewrite Ht in Hl, Hr.
  assert (unicode.IsSpace (byte_val c) = false) as Hsp.
  { destruct Hl as [?|Hl]; [done|]. by rewrite decode_ascii in Hl. }
  destruct (upperByte_spec c Hc Hsp) as (Hu & Husp & _ & _).
  split_and!; [|done|].
  - unfold fieldName. rewrite Ht. by apply modifyFirstLetter_ascii.
  - right. destruct (decide (s = EmptyString)) as [->|Hs].
    + unfold DecodeLastRuneInString.
      change (len (String (upperByte c) EmptyString)) with 1.
      change (at_ (String (upperByte c) EmptyString) (1 - 1))
        with (byte_val (upperByte c)).
      change (1 =? 0) with false. cbv iota.
      by destruct (Z.ltb_spec (byte_val (upperByte c)) RuneSelf); [|lia].
    + rewrite (DecodeLast_head c) by done. by destruct Hr.
Qed.

Lemma fieldName_fixed c s :
  byte_val c < RuneSelf → unicode.IsSpace (byte_val c) = false →
  ¬ (0x61 ≤ byte_val c ≤ 0x7A) → rtrimmed (String c s) →
  fieldName (String c s) = String c s.
Proof.
  intros Hc Hsp Hlow Hr. unfold fieldName. rewrite trimmed_TrimSpace; [|right|done].
  - rewrite modifyFirstLetter_ascii by done. case_match; btest; [lia|done..].
  - by rewrite decode_ascii.
Qed.

(** The name of an accepted flag whose trimmed name starts with an
    ASCII byte is left as it is when it is parsed again. *)
Lemma fieldName_idemp (p0 : string) c s :
  TrimSpace p0 = String c s → byte_val c < RuneSelf →
  fieldName (fieldName p0) = fieldName p0.
Proof.
  intros Ht Hc. destruct (fieldName_ascii p0 c s Ht Hc) as (-> & Hsp & Hr).
  destruct (upperByte_spec c Hc Hsp) as (Hu & Husp & Hlow & _).
  by apply fieldName_fixed.
Qed.

Lemma fieldName_no_colon (p0 : string) c s :
  TrimSpace p0 = String c s → byte_val c < RuneSelf →
  Index p0 ":" = -1 → Index (fieldName p0) ":" = -1.
Proof.
  intros Ht Hc Hi. destruct (fieldName_ascii p0 c s Ht Hc) as (-> & Hsp & Hr).
  apply (Index_none_TrimSpace ":"%char) in Hi. rewrite Ht in Hi.
  apply Index_none_cons in Hi as [Hcc Hi].
  destruct (upperByte_spec c Hc Hsp) as (_ & _ & _ & Hcol).
  apply Index_none_cons. split; [|done]. intros E. apply Hcol.
  - intros E'. apply Hcc. rewrite <- (byte_of_val c), E'. done.
  - by rewrite <- E.
Qed.

Lemma validation_None name ty typed :
  validation name ty typed = None ↔ name ≠ EmptyString ∧ (typed = true → ty ≠ EmptyString).
Proof.
  unfold validation. destruct (decide (name = EmptyString)); [naive_solver|].
  destruct typed; simpl; [|naive_solver]. case_bool_decide; naive_solver.
Qed.

(** X3. What [String] prints of a flag that [NewField] accepted is
    parsed back into the same flag, when the trimmed name starts with
    an ASCII byte: [String] is then a right inverse of [NewField], and
    parsing is idempotent. *)
Theorem FieldFlag_String_NewField value f (p0 : string) (rest : list string) c s :
  NewField value = (f, None) →
  SplitN value ":" 2 = p0 :: rest →
  TrimSpace p0 = String c s → byte_val c < RuneSelf →
  NewField (FieldFlag_String (Some f)) = (f, None).
Proof.
  intros HN Hs Ht Hc.
  pose proof (fieldName_idemp p0 c s Ht Hc) as Hid.
  destruct (SplitN_colon value) as [[Hm Hs']|[Hm Hs']]; rewrite Hs' in Hs; simplify_eq.
  - rewrite (NewField_untyped _ _ Hs') in HN. injection HN as <- Hv.
    cbn [FieldFlag_String Kind Name]. change (FieldKindDefault =? FieldKindDefault) with true.
    cbv iota.
    pose proof (fieldName_no_colon p0 c s Ht Hc Hm) as Hi.
    destruct (SplitN_colon (fieldName p0)) as [[_ Hs'']|[? _]]; [|lia].
    by rewrite (NewField_untyped _ _ Hs''), Hid, Hv.
  - pose proof (fieldName_no_colon _ c s Ht Hc (Index_upto ":"%char value ltac:(lia))) as Hi.
    rewrite (NewField_typed _ _ _ Hs') in HN. cbv zeta in HN.
    set (p0 := upto value (Index value ":")) in *.
    set (ty := TrimSpace (from value (Index value ":" + 1))) in *.
    assert (∀ k, k ≠ FieldKindDefault →
              FieldFlag_String (Some {| Kind := k; Name := fieldName p0; Type_ := ty |})
              = fieldName p0 +:+ ":" +:+ ty) as HS.
    { intros k Hk. cbn [FieldFlag_String Kind Name Type_].
      by destruct (Z.eqb_spec k FieldKindDefault). }
    pose proof (NewField_typed _ _ _ (SplitN_name_type (fieldName p0) ty Hi)) as HN'.
    cbv zeta in HN'. assert (TrimSpace ty = ty) as Hty by apply TrimSpace_idemp.
    rewrite !Hty, Hid in HN'.
    revert HN HN'. destruct (LastIndex ty "/" <? LastIndex ty ".").
    + intros [= <- Hv] HN'. rewrite HS by done. rewrite HN'. by f_equal.
    + destruct (LastIndex ty "." =? -1); [|done].
      intros [= <- Hv] HN'. rewrite HS by done. rewrite HN'. by f_equal.
Qed.


Lemma Validate_supported k name ty :
  k = FieldKindDefault ∨ k = FieldKindBuiltInOnly ∨ k = FieldKindCustomType →
  Validate (Some {| Kind := k; Name := name; Type_ := ty |})
  = validation name ty (negb (k =? FieldKindDefault)).
Proof.
  intros [-> | [-> | ->]]; unfold Validate, validation; cbn;
    destruct (decide (name = EmptyString)); try done;
    by destruct (decide (ty = EmptyString));
      [rewrite bool_decide_eq_true_2|rewrite bool_decide_eq_false_2].
Qed.

(** X1. A flag that [NewField] returns without an error passes
    [Validate], has a name, has a type with no space around it, and
    has the kind its type tells: [Default] with no type,
    [BuiltInOnly] with a type without a dot, [CustomType] with a type
    whose last dot is behind its last slash. *)
Theorem NewField_accepted value f :
  NewField value = (f, None) →
  Validate (Some f) = None ∧
  Name f ≠ EmptyString ∧
  TrimSpace (Type_ f) = Type_ f ∧
  (Kind f = FieldKindDefault ∧ Type_ f = EmptyString ∨
   Kind f = FieldKindBuiltInOnly ∧ Type_ f ≠ EmptyString ∧
     LastIndex (Type_ f) "." = -1 ∨
   Kind f = FieldKindCustomType ∧ Type_ f ≠ EmptyString ∧
     LastIndex (Type_ f) "/" < LastIndex (Type_ f) ".").
Proof.
  intros HN.
  destruct (SplitN_colon value) as [[_ Hs]|[_ Hs]].
  - rewrite (NewField_untyped _ _ Hs) in HN. injection HN as <- Hv.
    rewrite Validate_supported by auto. split; [done|].
    apply validation_None in Hv as [Hn _]. cbn [Name Type_ Kind].
    split_and!; [done..|]. by left.
  - rewrite (NewField_typed _ _ _ Hs) in HN. cbv zeta in HN.
    set (ty := TrimSpace (from value (Index value ":" + 1))) in *.
    revert HN.
    destruct (Z.ltb_spec (LastIndex ty "/") (LastIndex ty ".")).
    + intros [= <- Hv]. rewrite Validate_supported by auto. split; [done|].
      apply validation_None in Hv as [Hn Hty]. cbn [Name Type_ Kind].
      split_and!; [done|apply TrimSpace_idemp|]. right; right. auto.
    + destruct (Z.eqb_spec (LastIndex ty ".") (-1)); [|done].
      intros [= <- Hv]. rewrite Validate_supported by auto. split; [done|].
      apply validation_None in Hv as [Hn Hty]. cbn [Name Type_ Kind].
      split_and!; [done|apply TrimSpace_idemp|]. right; left. auto.
Qed.

(** X2. When the case tables map no rune above ASCII to a negative
    number, [NewField] never answers "name is required" and never
    [ErrUnsupportedFlagFormat], and it accepts a value exactly when
    the value has no colon, or the text behind the first colon,
    trimmed, is not empty and has no dot or has its last dot behind
    its last slash. *)
Theorem NewField_accepts value :
  (∀ r, unicode.MaxASCII < r → 0 ≤ upperCase r) →
  let ty := TrimSpace (from value (Index value ":" + 1)) in
  (NewField value).2 ≠ Some (errorsNew "name is required") ∧
  (NewField value).2 ≠ Some ErrUnsupportedFlagFormat ∧
  ((NewField value).2 = None ↔
   Index value ":" = -1 ∨
   ty ≠ EmptyString ∧ (LastIndex ty "." = -1 ∨ LastIndex ty "/" < LastIndex ty ".")).
Proof.
  intros Hup ty.
  assert (∀ p0 : string, fieldName p0 ≠ EmptyString) as Hname.
  { intros p0. apply fieldName_nonempty, ToUpper_nonneg; [done|apply decode_nonneg]. }
  assert (∀ (p0 t : string) (b : bool), validation (fieldName p0) t b
            = if b && bool_decide (t = EmptyString)
              then Some (errorsNew "type is required") else None) as Hval.
  { intros p0 t b. unfold validation. by destruct (decide _) as [?%Hname|]. }
  pose proof (LastIndex_range ty ".") as Hdot.
  pose proof (LastIndex_range ty "/") as Hslash.
  destruct (SplitN_colon value) as [[Hm Hs]|[Hm Hs]].
  - rewrite (NewField_untyped _ _ Hs), Hval. cbn. split_and!; [done..|]. split; auto.
  - rewrite (NewField_typed _ _ _ Hs). cbv zeta. fold ty. rewrite !Hval.
    assert (ty = EmptyString → LastIndex ty "." = -1) as He by by intros ->.
    destruct (Z.ltb_spec (LastIndex ty "/") (LastIndex ty ".")).
    + cbn. case_bool_decide as Hty; [specialize (He Hty); lia|].
      split_and!; [done..|]. split; [auto|done].
    + destruct (Z.eqb_spec (LastIndex ty ".") (-1)).
      * cbn. case_bool_decide; (split_and!; [done..|]); split; try done.
        -- intros [?|[? _]]; [lia|done].
        -- auto.
      * cbn. split_and!; [done..|]. split; [done|]. intros [?|[_ [?|?]]]; lia.
Qed.

Lemma fieldName_TrimSpace (p0 : string) : fieldName (TrimSpace p0) = fieldName p0.
Proof. unfold fieldName. by rewrite TrimSpace_idemp. Qed.

(** X15. The space around the name and around the type of a value
    does not count: [NewField] returns the same for a value and for
    its parts, trimmed and joined by a colon again. *)
Theorem NewField_trim value (parts : list string) :
  SplitN value ":" 2 = parts →
  NewField (Join (TrimSpace <$> parts) ":") = NewField value.
Proof.
  intros <-. destruct (SplitN_colon value) as [[Hm Hs]|[Hm Hs]]; rewrite Hs.
  - cbn [fmap list_fmap Join foldl].
    apply (Index_none_TrimSpace ":"%char) in Hm.
    destruct (SplitN_colon (TrimSpace value)) as [[_ Hs']|[? _]]; [|lia].
    by rewrite (NewField_untyped _ _ Hs), (NewField_untyped _ _ Hs'), fieldName_TrimSpace.
  - cbn [fmap list_fmap Join foldl].
    assert (Index (TrimSpace (upto value (Index value ":"))) ":" = -1) as Hi.
    { apply (Index_none_TrimSpace ":"%char), (Index_upto ":"%char). lia. }
    rewrite (NewField_typed _ _ _ Hs), (NewField_typed _ _ _ (SplitN_name_type _ _ Hi)).
    cbv zeta. by rewrite !TrimSpace_idemp, fieldName_TrimSpace.
Qed.

(** The name of a flag that is accepted. *)
Lemma NewField_Name value f (p0 : string) (rest : list string) :
  NewField value = (f, None) → SplitN value ":" 2 = p0 :: rest → Name f = fieldName p0.
Proof.
  intros HN Hs.
  destruct (SplitN_colon value) as [[_ Hs']|[_ Hs']]; rewrite Hs' in Hs; simplify_eq.
  - rewrite (NewField_untyped _ _ Hs') in HN. by injection HN as <- _.
  - rewrite (NewField_typed _ _ _ Hs') in HN. cbv zeta in HN. revert HN.
    repeat case_match; by intros [= <- _].
Qed.

(** The name [NewField] makes of a name that starts with an ASCII
    byte starts with an ASCII byte that is no lower-case letter. *)
Lemma NewField_asciiName value f :
  NewField value = (f, None) → asciiName value →
  ∃ c s, Name f = String c s ∧ byte_val c < RuneSelf ∧ ¬ (0x61 ≤ byte_val c ≤ 0x7A).
Proof.
  intros HN (p0 & rest & c & s & Hs & Ht & Hc).
  destruct (fieldName_ascii p0 c s Ht Hc) as (E & Hsp & _).
  destruct (upperByte_spec c Hc Hsp) as (Hu & _ & Hlow & _).
  exists (upperByte c), s. by rewrite (NewField_Name _ _ _ _ HN Hs).
Qed.

End acceptance.

(** ** Where the resolver stops *)

Section stopping.
Import utf8 strings.
Context `{CaseTables} `{GenValidate}.
Implicit Types (f : FieldFlag) (g field : gen.Field) (fs : list FieldFlag)
  (sp sf : gset string) (ty : string).

Lemma fieldOf_Crash f :
  fieldOf f = Crash ↔ Kind f = FieldKindCustomType ∧ LastIndex (Type_ f) "." = -1.
Proof.
  unfold fieldOf.
  destruct (Kind_cases f) as [E|[E|[[E Hd]|[[E Hd]|(E0 & E1 & E2)]]]].
  - rewrite resolveType_default by done.
    split; [done|intros [? _]; unfold FieldKindDefault, FieldKindCustomType in *; lia].
  - rewrite resolveType_builtin by done.
    split; [done|intros [? _]; unfold FieldKindBuiltInOnly, FieldKindCustomType in *; lia].
  - by rewrite resolveType_custom_panic.
  - rewrite resolveType_custom by done. split; [done|lia].
  - rewrite resolveType_unsupported by done. split; [done|tauto].
Qed.

Lemma fieldOf_Abort f err :
  fieldOf f = Abort err ↔
  err = ErrUnsupportedFlagFormat ∧ Kind f ≠ FieldKindDefault ∧
  Kind f ≠ FieldKindBuiltInOnly ∧ Kind f ≠ FieldKindCustomType.
Proof.
  unfold fieldOf.
  destruct (Kind_cases f) as [E|[E|[[E Hd]|[[E Hd]|(E0 & E1 & E2)]]]].
  - rewrite resolveType_default by done. split; [done|tauto].
  - rewrite resolveType_builtin by done. split; [done|tauto].
  - rewrite resolveType_custom_panic by done. split; [done|tauto].
  - rewrite resolveType_custom by done. split; [done|tauto].
  - rewrite resolveType_unsupported by done. split; [by intros [= <-]|by intros [-> _]].
Qed.

Lemma fieldOf_KeyName f g : fieldOf f = Continue g → gen.KeyName g = keyName (Name f).
Proof.
  unfold fieldOf.
  destruct (Kind_cases f) as [E|[E|[[E Hd]|[[E Hd]|(E0 & E1 & E2)]]]].
  - rewrite resolveType_default by done. by intros [= <-].
  - rewrite resolveType_builtin by done. by intros [= <-].
  - by rewrite resolveType_custom_panic.
  - rewrite resolveType_custom by done. by intros [= <-].
  - by rewrite resolveType_unsupported.
Qed.

(** Where the loop stops when it does not run to its end. *)
Lemma resolveFields_stops fs (gf : list gen.Field) sf sp :
  (∀ x, resolveFields fs gf sf sp ≠ Continue x) →
  ∃ pre f post,
    fs = pre ++ f :: post ∧ Forall passes pre ∧ NoDup (Name <$> pre) ∧
    (∀ f', f' ∈ pre → Name f' ∉ sf) ∧
    resolveFields fs gf sf sp
    = match fieldOf f with
      | Crash => Crash
      | Abort err => Abort err
      | Continue g =>
        match Field_Validate g with
        | Some err => Abort (errInvalidField (Name f) err)
        | None => Abort (errDuplicated (Name f))
        end
      end ∧
    (passes f → Name f ∈ Name <$> pre ∨ Name f ∈ sf).
Proof.
  revert gf sf sp. induction fs as [|f fs IH]; intros gf sf sp Hr.
  { by destruct (Hr (gf, sp)). }
  rewrite resolveFields_cons in Hr.
  assert (¬ passes f ∨ Name f ∈ sf →
          ∃ pre f0 post,
            f :: fs = pre ++ f0 :: post ∧ Forall passes pre ∧ NoDup (Name <$> pre) ∧
            (∀ f', f' ∈ pre → Name f' ∉ sf) ∧
            resolveFields (f :: fs) gf sf sp
            = match fieldOf f0 with
              | Crash => Crash
              | Abort err => Abort err
              | Continue g =>
                match Field_Validate g with
                | Some err => Abort (errInvalidField (Name f0) err)
                | None => Abort (errDuplicated (Name f0))
                end
              end ∧
            (passes f0 → Name f0 ∈ Name <$> pre ∨ Name f0 ∈ sf)) as Hhead.
  { intros Hf. exists [], f, fs. split_and!; [done|constructor|constructor|set_solver| |].
    - rewrite resolveFields_cons. destruct (fieldOf f) as [g| |] eqn:Eg; try done.
      destruct (Field_Validate g) eqn:Ev; [done|].
      destruct Hf as [Hf|Hf]; [destruct Hf; by exists g|].
      by destruct (decide (Name f ∈ sf)).
    - intros Hp. destruct Hf as [Hf|Hf]; [done|by right]. }
  destruct (fieldOf f) as [g| |] eqn:Eg;
    [|apply Hhead; left; intros (? & ? & ?); congruence..].
  destruct (Field_Validate g) eqn:Ev;
    [apply Hhead; left; intros (? & ? & ?); congruence|].
  destruct (decide (Name f ∈ sf)) as [Hin|Hin]; [apply Hhead; by right|].
  destruct (IH _ _ _ Hr) as (pre & f0 & post & -> & Hpre & Hnd & Hsf & Hres & Hdup).
  exists (f :: pre), f0, post. split_and!.
  - done.
  - constructor; [by exists g|done].
  - rewrite fmap_cons. constructor; [|done].
    intros (f' & Hn & Hf')%list_elem_of_fmap. apply (Hsf f' Hf'). set_solver.
  - intros f' [->|Hf']%elem_of_cons; [done|]. specialize (Hsf f' Hf'). set_solver.
  - rewrite resolveFields_cons, Eg, Ev.
    by destruct (decide (Name f ∈ sf)).
  - intros Hp. destruct (Hdup Hp) as [?|?]; set_solver.
Qed.

Lemma resolveFields_Crash (pre : list FieldFlag) f post (gf : list gen.Field) sf sp :
  Forall passes pre → NoDup (Name <$> pre) → (∀ f', f' ∈ pre → Name f' ∉ sf) →
  fieldOf f = Crash →
  resolveFields (pre ++ f :: post) gf sf sp = Crash.
Proof.
  intros Hp Hnd Hsf Hf. revert gf sf sp Hsf.
  induction Hp as [|f' pre (g & Eg & Ev) Hp IH]; intros gf sf sp Hsf.
  { simpl app. by rewrite resolveFields_cons, Hf. }
  rewrite <- app_comm_cons, resolveFields_cons, Eg, Ev.
  rewrite fmap_cons in Hnd. apply NoDup_cons in Hnd as [Hn Hnd].
  destruct (decide (Name f' ∈ sf)) as [Hin|_]; [destruct (Hsf f'); set_solver|].
  apply IH; [done|]. intros f'' Hf''. specialize (Hsf f'' ltac:(set_solver)).
  assert (Name f'' ≠ Name f'); [|set_solver].
  intros E. apply Hn. rewrite <- E. apply list_elem_of_fmap. eauto.
Qed.

(** X8. [ParseFields] panics exactly when the flags start with flags
    that pass, with names that differ, followed by a flag of kind
    [CustomType] whose type has no dot: [f.Type[:dot]] is then
    [f.Type[:-1]]. *)
Theorem ParseFields_Panic order pkg version fs :
  ParseFields order pkg version fs = Panic ↔
  ∃ pre f post,
    fs = pre ++ f :: post ∧ Forall passes pre ∧ NoDup (Name <$> pre) ∧
    Kind f = FieldKindCustomType ∧ LastIndex (Type_ f) "." = -1.
Proof.
  unfold ParseFields. split.
  - intros HP.
    destruct (resolveFields_stops fs [] ∅ {["context"]})
      as (pre & f & post & -> & Hpre & Hnd & _ & Hres & _).
    { intros [gf' sp'] E. rewrite E in HP. by destruct (Package_Validate _). }
    exists pre, f, post. split_and!; [done..| |];
      apply fieldOf_Crash; rewrite Hres in HP;
      destruct (fieldOf f) as [g| |]; try done; by destruct (Field_Validate g).
  - intros (pre & f & post & -> & Hpre & Hnd & Hk & Hd).
    rewrite resolveFields_Crash; [done..|set_solver|]. by apply fieldOf_Crash.
Qed.

Lemma resolveFields_parsed fs (gf : list gen.Field) sf sp :
  Forall parsed fs → resolveFields fs gf sf sp ≠ Crash.
Proof.
  intros Hfs HP.
  destruct (resolveFields_stops fs gf sf sp)
    as (pre & f & post & -> & _ & _ & _ & Hres & _).
  { intros x E. by rewrite E in HP. }
  rewrite Hres in HP.
  assert (fieldOf f = Crash) as [Hk Hd]%fieldOf_Crash.
  { destruct (fieldOf f) as [g| |]; try done; by destruct (Field_Validate g). }
  apply Forall_app in Hfs as [_ [(value & err & HN) _]%Forall_cons].
  pose proof (NewField_custom _ _ _ HN Hk) as Hlt.
  pose proof (LastIndex_range (Type_ f) "/"). lia.
Qed.

(** X7. On flags that [NewField] returned, with or without an
    error, [ParseFields] returns: no slice is out of range. *)
Theorem ParseFields_parsed order pkg version fs :
  Forall parsed fs →
  ∃ genPkg genFields err,
    ParseFields order pkg version fs = Return (genPkg, genFields, err).
Proof.
  intros Hfs. pose proof (resolveFields_parsed fs [] ∅ {["context"]} Hfs) as Hr.
  unfold ParseFields. destruct (resolveFields _ _ _ _) as [[gf sp]|e|]; [| |done].
  - destruct (Package_Validate _); by eexists _, _, _.
  - by eexists _, _, _.
Qed.

(** X9. An error of [ParseFields] comes with the zero package and no
    field, and it is the error of the first flag that stops the loop,
    all flags before it having passed with names that differ: an
    unsupported kind, a field that [Validate] rejects (the error names
    the flag), or a name seen before; when no flag stops the loop, it
    is the error of the package. *)
Theorem ParseFields_first_failure order pkg version fs genPkg
    (genFields : list gen.Field) e :
  ParseFields order pkg version fs = Return (genPkg, genFields, Some e) →
  genPkg = gen.Package_zero ∧ genFields = [] ∧
  ((Forall passes fs ∧ NoDup (Name <$> fs) ∧
    Package_Validate
      {| gen.PackageName := pkg;
         gen.ImportPackages := sort_Strings (order (pkgPaths fs ∪ {["context"]}));
         gen.Version := version |} = Some e) ∨
   ∃ pre f post,
     fs = pre ++ f :: post ∧ Forall passes pre ∧ NoDup (Name <$> pre) ∧
     ((e = ErrUnsupportedFlagFormat ∧ Kind f ≠ FieldKindDefault ∧
       Kind f ≠ FieldKindBuiltInOnly ∧ Kind f ≠ FieldKindCustomType) ∨
      (∃ g err, fieldOf f = Continue g ∧ Field_Validate g = Some err ∧
                e = errInvalidField (Name f) err) ∨
      (passes f ∧ Name f ∈ Name <$> pre ∧ e = errDuplicated (Name f)))).
Proof.
  unfold ParseFields. intros HP.
  destruct (resolveFields fs [] ∅ {["context"]}) as [[gf' sp']|err|] eqn:Hr; [| |done].
  - destruct (Package_Validate _) as [err|] eqn:Hv; [|done]. simplify_eq.
    split_and!; [done..|]. left.
    apply resolveFields_Continue in Hr as (gs & HF & _ & -> & Hnd & _).
    split_and!; [|done..].
    clear Hnd Hv. induction HF as [|f g fs gs Hfg _ IH]; constructor; [by exists g|done].
  - simplify_eq. split_and!; [done..|]. right.
    destruct (resolveFields_stops fs [] ∅ {["context"]})
      as (pre & f & post & -> & Hpre & Hnd & _ & Hres & Hdup).
    { intros x E. by rewrite E in Hr. }
    exists pre, f, post. split_and!; [done..|]. rewrite Hr in Hres.
    destruct (fieldOf f) as [g|err|] eqn:Eg; [| |done].
    + destruct (Field_Validate g) as [err|] eqn:Ev; simplify_eq.
      * right; left. by exists g, err.
      * right; right. assert (passes f) as Hp by by exists g.
        split_and!; [done| |done]. destruct (Hdup Hp); set_solver.
    + simplify_eq. left. by apply fieldOf_Abort.
Qed.

Lemma NewField_Kind value f err :
  NewField value = (f, err) →
  Kind f = FieldKindDefault ∨ Kind f = FieldKindBuiltInOnly ∨ Kind f = FieldKindCustomType.
Proof.
  destruct (SplitN_colon value) as [[_ Hs]|[_ Hs]].
  - rewrite (NewField_untyped _ _ Hs). intros [= <- _]. by left.
  - rewrite (NewField_typed _ _ _ Hs). cbv zeta.
    repeat case_match; intros [= <- _]; cbn; auto.
Qed.

(** The [switch] lets every flag through that [NewField] returned. *)
Lemma parsed_fieldOf f : parsed f → ∃ g, fieldOf f = Continue g.
Proof.
  intros (value & err & HN). unfold fieldOf.
  destruct (Kind_cases f) as [E|[E|[[E Hd]|[[E Hd]|(E0 & E1 & E2)]]]].
  - rewrite resolveType_default by done. eauto.
  - rewrite resolveType_builtin by done. eauto.
  - pose proof (NewField_custom _ _ _ HN E).
    pose proof (LastIndex_range (Type_ f) "/"). lia.
  - rewrite resolveType_custom by done. eauto.
  - destruct (NewField_Kind _ _ _ HN) as [?|[?|?]]; done.
Qed.

Lemma resolveFields_invalid (pre : list FieldFlag) f post (gf : list gen.Field)
    sf sp g err :
  Forall passes pre → NoDup (Name <$> pre) → (∀ f', f' ∈ pre → Name f' ∉ sf) →
  fieldOf f = Continue g → Field_Validate g = Some err →
  resolveFields (pre ++ f :: post) gf sf sp = Abort (errInvalidField (Name f) err).
Proof.
  intros Hp Hnd Hsf Hf Hv. revert gf sf sp Hsf.
  induction Hp as [|f' pre (g' & Eg & Ev) Hp IH]; intros gf sf sp Hsf.
  { simpl app. by rewrite resolveFields_cons, Hf, Hv. }
  rewrite <- app_comm_cons, resolveFields_cons, Eg, Ev.
  rewrite fmap_cons in Hnd. apply NoDup_cons in Hnd as [Hn Hnd].
  destruct (decide (Name f' ∈ sf)) as [Hin|_]; [destruct (Hsf f'); set_solver|].
  apply IH; [done|]. intros f'' Hf''. specialize (Hsf f'' ltac:(set_solver)).
  assert (Name f'' ≠ Name f'); [|set_solver].
  intros E. apply Hn. rewrite <- E. apply list_elem_of_fmap. eauto.
Qed.

(** C5, as the code has it.  Flags that [NewField] returned and of
    which two have the same name are never resolved: [ParseFields]
    returns an error, with the zero package and no fields.  At the
    first flag that repeats a name the error is the one that names the
    duplicate, when every flag up to it and that flag itself pass
    [gen.Field.Validate]; a flag among them that does not pass ends
    the loop before, with the error [Validate] gives for it. *)
Theorem duplicate_field order pkg version (pre : list FieldFlag) f post :
  Forall parsed (pre ++ f :: post) →
  NoDup (Name <$> pre) → Name f ∈ Name <$> pre →
  (∃ err, ParseFields order pkg version (pre ++ f :: post)
          = Return (gen.Package_zero, [], Some err)) ∧
  (Forall passes (pre ++ [f]) →
   ParseFields order pkg version (pre ++ f :: post)
   = Return (gen.Package_zero, [], Some (errDuplicated (Name f)))) ∧
  (∀ (p1 : list FieldFlag) f' p2 g err,
     pre ++ [f] = p1 ++ f' :: p2 → Forall passes p1 →
     fieldOf f' = Continue g → Field_Validate g = Some err →
     ParseFields order pkg version (pre ++ f :: post)
     = Return (gen.Package_zero, [], Some (errInvalidField (Name f') err))).
Proof.
  intros Hfs Hnd Hdup. split_and!.
  - pose proof (resolveFields_parsed _ [] ∅ {["context"]} Hfs) as Hc.
    unfold ParseFields.
    destruct (resolveFields (pre ++ f :: post) [] ∅ {["context"]})
      as [[gf sp]|err|] eqn:Hr; [|by eexists|done].
    apply resolveFields_Continue in Hr as (_ & _ & _ & _ & Hnd' & _).
    rewrite fmap_app, fmap_cons in Hnd'.
    apply NoDup_app in Hnd' as (_ & Hdis & _).
    destruct (Hdis _ Hdup). by left.
  - intros Hp. unfold ParseFields.
    rewrite (resolveFields_duplicate pre f post); [done..| |by left].
    intros f' _. apply not_elem_of_empty.
  - intros p1 f' p2 g err E Hp Hg Hv. unfold ParseFields.
    assert (NoDup (Name <$> p1)) as Hnd1.
    { apply app_eq_inv in E as [(k & -> & _)|(k & -> & E)].
      - rewrite fmap_app in Hnd. by apply NoDup_app in Hnd as (? & _).
      - destruct k; [by rewrite app_nil_r|]. by destruct k. }
    replace (pre ++ f :: post) with (p1 ++ f' :: (p2 ++ post)).
    + rewrite (resolveFields_invalid p1 f' _ _ _ _ g err); [done..| |done|done].
      intros ? _. apply not_elem_of_empty.
    + change (f' :: p2 ++ post) with ((f' :: p2) ++ post).
      rewrite app_assoc, <- E, <- app_assoc. done.
Qed.

End stopping.

(** ** The fields that are returned *)

Section fields.
Import utf8 strings.
Context `{CaseTables} `{GenValidate}.
Implicit Types (f : FieldFlag) (g field : gen.Field) (fs : list FieldFlag)
  (sp sf : gset string) (ty s : string) (c : ascii).

Lemma resolved_names fs (gs : list gen.Field) :
  Forall2 (λ f g, fieldOf f = Continue g ∧ Field_Validate g = None) fs gs →
  gen.FieldName <$> gs = Name <$> fs ∧
  gen.KeyName <$> gs = keyName ∘ Name <$> fs ∧
  Forall (λ g, Field_Validate g = None) gs.
Proof.
  induction 1 as [|f g fs gs [Hg Hgv] _ (IH1 & IH2 & IH3)]; [done|].
  rewrite !fmap_cons, IH1, IH2. split_and!.
  - f_equal. by apply fieldOf_name.
  - f_equal. by apply fieldOf_KeyName.
  - by constructor.
Qed.

(** X5. On success [ParseFields] returns one field for every flag, in
    the order of the flags, named as the flag and with the key
    [keyName] of that name; every field and the package have passed
    [Validate], and the package carries the name and the version that
    were given.  ([SetPackage] as the spec describes it.) *)
Theorem ParseFields_fields order pkg version fs genPkg (genFields : list gen.Field) :
  ParseFields order pkg version fs = Return (genPkg, genFields, None) →
  gen.FieldName <$> genFields = Name <$> fs ∧
  gen.KeyName <$> genFields = keyName ∘ Name <$> fs ∧
  Forall (λ g, Field_Validate g = None) genFields ∧
  gen.PackageName genPkg = pkg ∧ gen.Version genPkg = version ∧
  Package_Validate genPkg = None.
Proof.
  intros HP. destruct (ParseFields_success _ _ _ _ _ _ HP) as (HF & Hpkg & _).
  assert (Package_Validate genPkg = None) as Hv.
  { revert HP. unfold ParseFields.
    destruct (resolveFields _ _ _ _) as [[gf sp]| |]; try done.
    destruct (Package_Validate _) eqn:E; [done|]. by intros [= <- _]. }
  destruct (resolved_names _ _ HF) as (? & ? & ?).
  split_and!; [done..|by subst|by subst|done].
Qed.

Lemma modifyFirstLetter_ascii_lower c s :
  byte_val c < RuneSelf →
  modifyFirstLetter (String c s) ToLower = String (lowerByte c) s.
Proof.
  intros Hc. pose proof (byte_val_range c) as Hb.
  unfold modifyFirstLetter, ToLower. rewrite decode_ascii by done.
  rewrite (Map_EncodeRune _ _ _ _ (decode_ascii c s Hc)).
  change (from (String c s) 1) with s.
  unfold lowerByte, unicode.ToLower, unicode.MaxASCII, RuneSelf in *.
  destruct (Z.leb_spec (byte_val c) 127); [|lia].
  destruct ((0x41 <=? byte_val c) && (byte_val c <=? 0x5A)) eqn:E; btest.
  - destruct (Z.leb_spec 0 (byte_val c + (0x61 - 0x41))); [|lia].
    by rewrite EncodeRune_1 by (unfold rune1Max; lia).
  - destruct (Z.leb_spec 0 (byte_val c)); [|lia].
    by rewrite EncodeRune_1, byte_of_val by (unfold rune1Max; lia).
  - destruct (Z.leb_spec 0 (byte_val c)); [|lia].
    by rewrite EncodeRune_1, byte_of_val by (unfold rune1Max; lia).
Qed.

Lemma append_cancel_r s s' t : s +:+ t = s' +:+ t → s = s'.
Proof.
  intros E. assert (String.length s = String.length s') as Hl.
  { apply (f_equal String.length) in E. rewrite !length_app in E. lia. }
  rewrite <- (stake_app s t), E, Hl. apply stake_app.
Qed.

Lemma lowerByte_inj c c' :
  byte_val c < RuneSelf → ¬ (0x61 ≤ byte_val c ≤ 0x7A) →
  byte_val c' < RuneSelf → ¬ (0x61 ≤ byte_val c' ≤ 0x7A) →
  lowerByte c = lowerByte c' → c = c'.
Proof.
  intros Hc Hl Hc' Hl' E. apply (f_equal byte_val) in E.
  pose proof (byte_val_range c). pose proof (byte_val_range c').
  rewrite <- (byte_of_val c), <- (byte_of_val c'). f_equal.
  unfold lowerByte, RuneSelf in *.
  repeat case_match; btest; rewrite ?byte_val_of in E by lia; lia.
Qed.

Lemma keyName_inj c s c' s' :
  byte_val c < RuneSelf → ¬ (0x61 ≤ byte_val c ≤ 0x7A) →
  byte_val c' < RuneSelf → ¬ (0x61 ≤ byte_val c' ≤ 0x7A) →
  keyName (String c s) = keyName (String c' s') → String c s = String c' s'.
Proof.
  intros Hc Hl Hc' Hl'. unfold keyName.
  rewrite !modifyFirstLetter_ascii_lower by done.
  intros [= E1 E2]%append_cancel_r. f_equal; [|done]. by apply lowerByte_inj.
Qed.

Lemma keyName_NoDup fs (gs : list gen.Field) :
  Forall2 (λ f g, fieldOf f = Continue g ∧ Field_Validate g = None) fs gs →
  NoDup (Name <$> fs) →
  Forall (λ f, ∃ c s, Name f = String c s ∧ byte_val c < RuneSelf ∧
                      ¬ (0x61 ≤ byte_val c ≤ 0x7A)) fs →
  NoDup (gen.KeyName <$> gs).
Proof.
  intros HF Hnd Hfs.
  destruct (resolved_names _ _ HF) as (_ & -> & _). rewrite list_fmap_compose.
  apply NoDup_fmap_2_strong; [|done].
  intros n n' (f & -> & Hf)%list_elem_of_fmap (f' & -> & Hf')%list_elem_of_fmap.
  rewrite Forall_forall in Hfs.
  destruct (Hfs f Hf) as (c & s & -> & ? & ?).
  destruct (Hfs f' Hf') as (c' & s' & -> & ? & ?). by apply keyName_inj.
Qed.

(** X6. The key types do not collide: when the flags are those
    [NewField] made of values whose names start with an ASCII byte,
    the key names of the fields [ParseFields] returns differ from one
    another. *)
Theorem KeyName_NoDup order pkg version (values : list string) fs genPkg
    (genFields : list gen.Field) :
  Forall2 (λ value f, NewField value = (f, None) ∧ asciiName value) values fs →
  ParseFields order pkg version fs = Return (genPkg, genFields, None) →
  NoDup (gen.KeyName <$> genFields).
Proof.
  intros Hv HP. destruct (ParseFields_success _ _ _ _ _ _ HP) as (HF & _ & Hnd).
  apply (keyName_NoDup fs); [done..|].
  clear HP HF Hnd. induction Hv as [|value f values fs [HN Ha] _ IH]; constructor; [|done].
  by apply (NewField_asciiName value).
Qed.

End fields.

(** ** Setting and printing the flags *)

Section printing.
Import utf8 strings.
Context `{CaseTables}.

Lemma Join_snoc elems e sep :
  Join (elems ++ [e]) sep
  = match elems with [] => e | _ => Join elems sep +:+ sep +:+ e end.
Proof. destruct elems as [|e0 elems]; [done|]. simpl. by rewrite foldl_app. Qed.

Lemma setFields_spec (a : list FieldFlag) values a' :
  setFields a values = Some a' ↔
  ∃ fs, a' = a ++ fs ∧ Forall2 (λ value f, NewField value = (f, None)) values fs.
Proof.
  revert a. induction values as [|value values IH]; intros a; cbn [setFields].
  - split.
    + intros [= <-]. exists []. by rewrite app_nil_r.
    + intros (fs & -> & ->%Forall2_nil_inv_l). by rewrite app_nil_r.
  - unfold FieldFlags_Set. destruct (NewField value) as [f [err|]] eqn:HN.
    + split; [done|]. intros (fs & _ & (f' & fs' & ? & _ & _)%Forall2_cons_inv_l).
      congruence.
    + rewrite IH. split.
      * intros (fs & -> & HF). exists (f :: fs). rewrite <- app_assoc. split; [done|].
        by constructor.
      * intros (fs & -> & (f' & fs' & ? & HF & ->)%Forall2_cons_inv_l).
        exists fs'. rewrite <- app_assoc. split; [|done]. simpl. congruence.
Qed.

(** X4. A [Set] that succeeds appends the flag [NewField] made of the
    value, and [String] then prints what it printed before followed by
    a comma and that flag, or that flag alone when the list was
    empty. *)
Theorem FieldFlags_Set_String (a a' : list FieldFlag) value :
  FieldFlags_Set a value = (a', None) →
  ∃ f, NewField value = (f, None) ∧ a' = a ++ [f] ∧
    FieldFlags_String (Some a')
    = match a with
      | [] => FieldFlag_String (Some f)
      | _ => FieldFlags_String (Some a) +:+ "," +:+ FieldFlag_String (Some f)
      end.
Proof.
  unfold FieldFlags_Set. destruct (NewField value) as [f [err|]]; [done|].
  intros [= <-]. exists f. split_and!; [done..|].
  unfold FieldFlags_String. rewrite map_app. cbn [map]. rewrite Join_snoc.
  by destruct a.
Qed.

End printing.

(** ** The getters in the generated text *)

Section emitted.
Import utf8 strings.
Context `{CaseTables} `{GenValidate}.
Implicit Types (f : FieldFlag) (g : gen.Field) (s t u : string).

Lemma Contains_trans s t u : Contains s t → Contains t u → Contains s u.
Proof.
  intros (p & q & ->) (p' & q' & ->). exists (p +:+ p'), (q' +:+ q).
  by rewrite !append_assoc.
Qed.

Lemma Contains_declarations g :
  Contains (gen.declarations g) (gen.keyType g) ∧
  Contains (gen.declarations g) (gen.getter g).
Proof.
  unfold gen.declarations. split.
  - by exists gen.nl, (gen.nl +:+ gen.getter g +:+ gen.nl +:+ gen.setter g).
  - exists (gen.nl +:+ gen.keyType g +:+ gen.nl), (gen.nl +:+ gen.setter g).
    by rewrite !append_assoc.
Qed.

Lemma getterUntyped_text g :
  gen.getterUntyped g = getterValue (gen.FieldName g) (gen.KeyName g).
Proof.
  unfold gen.getterUntyped, getterValue, lines, gen.untyped, gen.indent.
  cbn [map String.concat]. by rewrite !append_assoc.
Qed.

Lemma getterTyped_text g :
  gen.getterTyped g = getterPair (gen.FieldName g) (gen.KeyName g) (gen.FieldType g).
Proof.
  unfold gen.getterTyped, getterPair, lines, gen.indent.
  cbn [map String.concat]. by rewrite !append_assoc.
Qed.

(** The type [ParseFields] gives a field. *)
Lemma fieldOf_FieldType f g : fieldOf f = Continue g → gen.FieldType g = emittedType f.
Proof.
  unfold fieldOf, emittedType.
  destruct (Kind_cases f) as [E|[E|[[E Hd]|[[E Hd]|(E0 & E1 & E2)]]]].
  - rewrite resolveType_default, E by done. by intros [= <-].
  - rewrite resolveType_builtin, E by done. by intros [= <-].
  - by rewrite resolveType_custom_panic.
  - rewrite resolveType_custom, E by done. by intros [= <-].
  - by rewrite resolveType_unsupported.
Qed.

Lemma get_sdrop (n m : nat) s : String.get m (sdrop n s) = String.get (n + m) s.
Proof.
  revert s. induction n as [|n IH]; intros s; [done|].
  destruct s as [|c s]; [by destruct m|]. apply IH.
Qed.

Lemma at_from s i j : 0 ≤ i → 0 ≤ j → at_ (from s i) j = at_ s (i + j).
Proof.
  intros Hi Hj. unfold at_, from. rewrite get_sdrop.
  by replace (Z.to_nat i + Z.to_nat j)%nat with (Z.to_nat (i + j)) by lia.
Qed.

(** The type of a flag of kind [CustomType] keeps its last dot. *)
Lemma emittedType_custom value f err :
  NewField value = (f, err) → Kind f = FieldKindCustomType →
  emittedType f ≠ "interface{}".
Proof.
  intros HN Hk E. pose proof (NewField_custom _ _ _ HN Hk) as Hlt.
  unfold emittedType in E. rewrite Hk in E.
  change (FieldKindCustomType =? FieldKindDefault) with false in E.
  change (FieldKindCustomType =? FieldKindCustomType) with true in E.
  cbv iota in E. unfold importPath in E.
  remember (Type_ f) as ty eqn:Ety. remember (LastIndex ty ".") as dot eqn:Edot.
  remember (LastIndex (upto ty dot) "/") as k eqn:Ek.
  pose proof (LastIndex_range ty "/") as Hs.
  destruct (LastIndex_char "."%char ty) as [Hc _]. rewrite <- Edot in Hc.
  destruct Hc as [?|[Hd Hat]]; [lia|].
  assert (-1 ≤ k ∧ k + 1 ≤ dot) as Hkr.
  { destruct (LastIndex_range (upto ty dot) "/") as [Hr|[? Hr]]; rewrite <- Ek in *; [lia|].
    rewrite len_upto in Hr by lia. change (len "/") with 1 in Hr. lia. }
  destruct (LastIndex_char "."%char (from ty (k + 1))) as [_ Hno].
  specialize (Hno (dot - (k + 1))).
  assert (at_ (from ty (k + 1)) (dot - (k + 1)) = byte_val "."%char) as Hat'.
  { rewrite at_from by lia. by replace (k + 1 + (dot - (k + 1))) with dot by lia. }
  assert (dot - (k + 1) < len (from ty (k + 1))) as Hlen.
  { rewrite len_from by lia. lia. }
  rewrite E in Hno, Hlen.
  assert (LastIndex "interface{}" "." = -1) as L by (vm_compute; reflexivity).
  rewrite L in Hno. apply Hno; [lia|]. by rewrite <- E.
Qed.

(** C8, as the model of the template has it.  In the file a run
    writes, the flag that [NewField] made of a value has its key type
    and its getter.  The getter returns the stored value alone when
    the type of the field is [interface{}], which is so exactly for a
    flag without a type and for a flag declared with the type
    [interface{}] itself; for every other type it returns the value
    and a [bool], the outcome of the type assertion on what was
    stored. *)
Theorem getter_presence_flag order pkg version values text value f :
  generated order pkg version values = Some text →
  value ∈ values → NewField value = (f, None) →
  Contains text ("type " +:+ keyName (Name f) +:+ " struct{}" +:+ gen.nl) ∧
  (emittedType f = "interface{}" →
   Contains text (getterValue (Name f) (keyName (Name f)))) ∧
  (emittedType f ≠ "interface{}" →
   Contains text (getterPair (Name f) (keyName (Name f)) (emittedType f))) ∧
  (emittedType f = "interface{}" ↔
   Kind f = FieldKindDefault ∨ Type_ f = "interface{}").
Proof.
  intros Hgen Hin HN. unfold generated in Hgen.
  destruct (setFields [] values) as [fs|] eqn:Hs; [|done].
  destruct (decide (pkg = EmptyString)); [done|].
  destruct (decide (fs = [])); [done|].
  destruct (ParseFields order pkg version fs) as [|[[genPkg genFields] [e|]]] eqn:HP;
    try done.
  injection Hgen as <-.
  apply setFields_spec in Hs as (fs' & -> & HF). simpl in HP.
  assert (f ∈ fs') as Hf.
  { apply list_elem_of_lookup in Hin as [i Hi].
    destruct (Forall2_lookup_l _ _ _ _ _ HF Hi) as (f' & Hf' & HN').
    rewrite HN in HN'. injection HN' as <-. by eapply list_elem_of_lookup_2. }
  destruct (ParseFields_success _ _ _ _ _ _ HP) as (HR & _ & _).
  assert (∃ g, g ∈ genFields ∧ fieldOf f = Continue g) as (g & Hg & Hfg).
  { apply list_elem_of_lookup in Hf as [i Hi].
    destruct (Forall2_lookup_l _ _ _ _ _ HR Hi) as (g & Hg & Hfg & _).
    exists g. split; [by eapply list_elem_of_lookup_2|done]. }
  pose proof (Generate_Contains genPkg genFields g Hg) as Hdecl.
  destruct (Contains_declarations g) as [Hkey Hget].
  rewrite <- (fieldOf_KeyName _ _ Hfg), <- (fieldOf_FieldType _ _ Hfg),
    <- (fieldOf_name _ _ Hfg).
  split_and!.
  - by apply (Contains_trans _ _ _ Hdecl).
  - intros E. apply (Contains_trans _ _ _ Hdecl). rewrite <- getterUntyped_text.
    unfold gen.getter, gen.untyped in Hget. by rewrite decide_True in Hget.
  - intros E. apply (Contains_trans _ _ _ Hdecl). rewrite <- getterTyped_text.
    unfold gen.getter, gen.untyped in Hget. by rewrite decide_False in Hget.
  - rewrite (fieldOf_FieldType _ _ Hfg). split.
    + intros E. destruct (NewField_Kind _ _ _ HN) as [Hk|[Hk|Hk]]; [by left| |].
      * right. unfold emittedType in E. by rewrite Hk in E.
      * by destruct (emittedType_custom _ _ _ HN Hk).
    + intros [Hk|Ht]; unfold emittedType; [by rewrite Hk|].
      destruct (NewField_Kind _ _ _ HN) as [Hk|[Hk|Hk]]; rewrite Hk; [done..|].
      pose proof (NewField_custom _ _ _ HN Hk) as Hlt. rewrite Ht in Hlt.
      by vm_compute in Hlt.
Qed.

End emitted.

(** ** Closing the file *)

Section files.

Lemma os_Remove_spec fault name (fs fs' : FileSystem) err :
  os_Remove fault name fs = (fs', err) →
  (∀ p, p ≠ name → fs' !! p = fs !! p) ∧
  (err = None → fs' !! name = None) ∧
  (fault = None → fs' !! name = None).
Proof.
  unfold os_Remove. destruct fault as [e|].
  - intros [= <- <-]. done.
  - destruct (fs !! name) eqn:E; intros [= <- <-]; split_and!; try done.
    + intros p Hp. by rewrite lookup_delete_ne.
    + intros _. apply lookup_delete_eq.
    + intros _. apply lookup_delete_eq.
Qed.

Lemma os_Rename_spec fault old new (fs fs' : FileSystem) err :
  os_Rename fault old new fs = (fs', err) →
  (∀ p, p ≠ old → p ≠ new → fs' !! p = fs !! p) ∧
  (err = None → fs' !! new = fs !! old ∧ is_Some (fs !! old) ∧
                (old ≠ new → fs' !! old = None)) ∧
  (err ≠ None → fs' = fs).
Proof.
  unfold os_Rename. destruct fault as [e|].
  - intros [= <- <-]. done.
  - destruct (fs !! old) eqn:E; intros [= <- <-]; split_and!; try done.
    + intros p Ho Hn. by rewrite lookup_insert_ne, lookup_delete_ne.
    + intros _. rewrite lookup_insert_eq. split_and!; [done|by eexists|].
      intros Hne. by rewrite lookup_insert_ne, lookup_delete_eq.
Qed.

(** What [Close] does to the files. *)
Lemma SafeFile_Close_files env f (fs : FileSystem) f' fs' err :
  File_Name f ≠ output f →
  SafeFile_Close env f fs = (f', fs', err) →
  (∀ p, p ≠ File_Name f → p ≠ output f → fs' !! p = fs !! p) ∧
  (err ≠ None ∨ rmOnClose f = true → fs' !! output f = fs !! output f) ∧
  (err = None → rmOnClose f = false →
   fs' !! output f = fs !! File_Name f ∧ is_Some (fs !! File_Name f)) ∧
  (err = None ∨ removeFault env = None → fs' !! File_Name f = None).
Proof.
  intros Hne. unfold SafeFile_Close. cbn [File_Name output rmOnClose].
  destruct (File_Close _ _ _) as [cerr|].
  { destruct (os_Remove _ _ fs) as [fs1 e1] eqn:E1. intros [= <- <- <-].
    destruct (os_Remove_spec _ _ _ _ _ E1) as (H1 & H2 & H3).
    split_and!; [by auto|intros _; by apply H1|done|].
    intros [?|?]; [done|auto]. }
  destruct (rmOnClose f).
  { destruct (os_Remove _ _ fs) as [fs1 e1] eqn:E1.
    destruct (os_Remove_spec _ _ _ _ _ E1) as (H1 & H2 & H3).
    destruct e1; intros [= <- <- <-];
      (split_and!; [by auto|intros _; by apply H1|done|]).
    - intros [?|?]; [done|auto].
    - auto. }
  destruct (os_Rename _ _ _ fs) as [fs1 e1] eqn:E1.
  destruct (os_Rename_spec _ _ _ _ _ _ E1) as (H1 & H2 & H3).
  destruct e1 as [e1|].
  - destruct (os_Remove _ _ fs1) as [fs2 e2] eqn:E2.
    destruct (os_Remove_spec _ _ _ _ _ E2) as (H4 & H5 & H6).
    rewrite H3 in * by done. intros [= <- <- <-].
    split_and!; [by auto|intros _; by apply H4|done|].
    intros [?|?]; [done|auto].
  - intros [= <- <- <-]. destruct H2 as (H2 & H2' & H2''); [done|].
    split_and!; [done|by intros [?|?]|done|auto].
Qed.

(** X10. [Close] touches no file but the temporary one and the
    output; it leaves the output as it was when it fails or when
    [WithRename] was not called; when it succeeds after [WithRename]
    the output holds what the temporary file held; and the temporary
    file is gone when [Close] succeeds, and also when it fails unless
    [os.Remove] fails. *)
Theorem SafeFile_Close_output env f (fs : FileSystem) f' fs' err :
  File_Name f ≠ output f →
  SafeFile_Close env f fs = (f', fs', err) →
  (∀ p, p ≠ File_Name f → p ≠ output f → fs' !! p = fs !! p) ∧
  (err ≠ None ∨ rmOnClose f = true → fs' !! output f = fs !! output f) ∧
  (err = None → rmOnClose f = false →
   fs' !! output f = fs !! File_Name f ∧ is_Some (fs !! File_Name f)) ∧
  (err = None ∨ removeFault env = None → fs' !! File_Name f = None).
Proof.
  intros Hne. unfold SafeFile_Close. cbn [File_Name output rmOnClose].
  destruct (File_Close _ _ _) as [cerr|].
  { destruct (os_Remove _ _ fs) as [fs1 e1] eqn:E1. intros [= <- <- <-].
    destruct (os_Remove_spec _ _ _ _ _ E1) as (H1 & H2 & H3).
    split_and!; [by auto|intros _; by apply H1|done|].
    intros [?|?]; [done|auto]. }
  destruct (rmOnClose f).
  { destruct (os_Remove _ _ fs) as [fs1 e1] eqn:E1.
    destruct (os_Remove_spec _ _ _ _ _ E1) as (H1 & H2 & H3).
    destruct e1; intros [= <- <- <-];
      (split_and!; [by auto|intros _; by apply H1|done|]).
    - intros [?|?]; [done|auto].
    - auto. }
  destruct (os_Rename _ _ _ fs) as [fs1 e1] eqn:E1.
  destruct (os_Rename_spec _ _ _ _ _ _ E1) as (H1 & H2 & H3).
  destruct e1 as [e1|].
  - destruct (os_Remove _ _ fs1) as [fs2 e2] eqn:E2.
    destruct (os_Remove_spec _ _ _ _ _ E2) as (H4 & H5 & H6).
    rewrite H3 in * by done. intros [= <- <- <-].
    split_and!; [by auto|intros _; by apply H4|done|].
    intros [?|?]; [done|auto].
  - intros [= <- <- <-]. destruct H2 as (H2 & H2' & H2''); [done|].
    split_and!; [done|by intros [?|?]|done|auto].
Qed.

(** X11. A second [Close] fails with the error of closing a file
    that is closed already, and it touches no file but the temporary
    one; when that file is not the output, it changes nothing at all
    after a first [Close] that succeeded or whose [os.Remove] did not
    fail. *)
Theorem SafeFile_Close_twice env env' f (fs : FileSystem) f1 fs1 err1 f2 fs2 err2 :
  SafeFile_Close env f fs = (f1, fs1, err1) →
  SafeFile_Close env' f1 fs1 = (f2, fs2, err2) →
  err2 = Some (wrapped "close temporary file"
                 (osError ("close " +:+ File_Name f +:+ ": file already closed"))) ∧
  (∀ p, p ≠ File_Name f → fs2 !! p = fs1 !! p) ∧
  (File_Name f ≠ output f → err1 = None ∨ removeFault env = None → fs2 = fs1).
Proof.
  intros H1 H2.
  assert (File_Name f1 = File_Name f ∧ File_closed f1 = true) as [Hn Hc].
  { revert H1. unfold SafeFile_Close.
    repeat (case_match; simplify_eq); by intros [= <- _ _]. }
  revert H2. unfold SafeFile_Close. cbn [File_Name]. rewrite Hn, Hc. cbn [File_Close].
  destruct (os_Remove _ _ fs1) as [fs3 e3] eqn:E3. intros [= <- <- <-].
  destruct (os_Remove_spec _ _ _ _ _ E3) as (Hfr & _ & _).
  split_and!; [done..|].
  intros Hne Hg.
  destruct (SafeFile_Close_files _ _ _ _ _ _ Hne H1) as (_ & _ & _ & Hgone).
  specialize (Hgone Hg). revert E3. unfold os_Remove.
  destruct (removeFault env'); [by intros [= <- _]|]. rewrite Hgone. by intros [= <- _].
Qed.

(** X12. The calls [generate] makes on the file, recorded by the
    [mockFile] of the tests: none when the file cannot be opened;
    else [Close], once and last, preceded by [WithRename] exactly when
    [Generate] succeeded.  There is no error exactly when opening,
    generating and closing all succeed, and an error of [Generate] is
    reported whether [Close] fails too or not. *)
Theorem generate_calls closeErr (openErr genErr : option ferror) calls calls' err :
  generate (mockFile_methods closeErr)
    (λ calls, (calls, match openErr with Some e => inl e | None => inr () end))
    (λ _ calls, (calls, genErr)) calls = (calls', err) →
  calls' = calls ++ match openErr, genErr with
                    | Some _, _ => []
                    | None, Some _ => [CallClose]
                    | None, None => [CallWithRename; CallClose]
                    end ∧
  (err = None ↔ openErr = None ∧ genErr = None ∧ closeErr = None) ∧
  (∀ e, genErr = Some e → openErr = None →
        err = Some (wrapped "generate" e) ∨
        ∃ ce, closeErr = Some ce ∧ err = Some (joined (wrapped "generate" e) ce)).
Proof.
  unfold generate. cbn [Close WithRename mockFile_methods].
  destruct openErr as [oe|], genErr as [ge|], closeErr as [ce|]; intros [= <- <-];
    rewrite <- ?app_assoc, ?app_nil_r; (split_and!; [done|naive_solver|naive_solver]).
Qed.


End files.

(** ** The root command *)

Section command.
Context {W F : Type} `{CaseTables} `{GenValidate}.

Lemma RootFlags_Set_parsed name value (fl fl' : RootFlags) :
  RootFlags_Set name value fl = Some fl' →
  Forall parsed (flagFields fl) → Forall parsed (flagFields fl').
Proof.
  unfold RootFlags_Set, FieldFlags_Set. intros E Hp.
  repeat case_match; simplify_eq; cbn [flagFields]; try done.
  apply Forall_app. split; [done|]. constructor; [|done]. by eexists _, _.
Qed.

(** The fields [Parse] leaves are flags that [NewField] returned. *)
Lemma Parse_parsed (n : nat) (args : list string) (fl fl' : RootFlags) :
  (length args ≤ n)%nat → Parse args fl = Some fl' →
  Forall parsed (flagFields fl) → Forall parsed (flagFields fl').
Proof.
  revert args fl. induction n as [|n IH]; intros [|s args] fl Hn; cbn [Parse];
    try (by intros [= <-]); cbn [length] in Hn; [lia|].
  intros E Hp. repeat case_match; simplify_eq; try done;
    match goal with
    | Hs : RootFlags_Set _ _ _ = Some _, Hr : Parse ?a ?r = Some _ |- _ =>
      apply (IH a r);
        [cbn [length] in *; lia|exact Hr|exact (RootFlags_Set_parsed _ _ _ _ Hs Hp)]
    end.
Qed.

(** X13. The root command returns, with one of three exit codes.  It
    is 2, without an error and with nothing opened or changed, when
    [Parse] fails (a flag that is not defined, a flag without its
    value, a field [Set] rejects), when the output, the package or the
    fields are missing, or when [ParseFields] returns an error.  Else
    [generate] is called on the output with the package and the fields
    of [ParseFields], and its result is that of the command: 0 when
    it returns no error, and 1 with its error. *)
Theorem rootCmd_exit order version args
    (methods : WriteCloser W F) openFile Generate (w : W) :
  ∃ w' code err,
    rootCmd order version args methods openFile Generate w
    = Return (w', code, err) ∧
    ((code = 2 ∧ w' = w ∧ err = None ∧
      (Parse args RootFlags_zero = None ∨
       ∃ fl, Parse args RootFlags_zero = Some fl ∧
             (flagOutput fl = EmptyString ∨ flagPackage fl = EmptyString ∨
              flagFields fl = [] ∨
              ∃ genPkg genFields e,
                ParseFields order (flagPackage fl) version (flagFields fl)
                = Return (genPkg, genFields, Some e)))) ∨
     (∃ fl genPkg genFields,
        Parse args RootFlags_zero = Some fl ∧
        flagOutput fl ≠ EmptyString ∧ flagPackage fl ≠ EmptyString ∧
        flagFields fl ≠ [] ∧
        ParseFields order (flagPackage fl) version (flagFields fl)
        = Return (genPkg, genFields, None) ∧
        generate methods (openFile (flagOutput fl)) (Generate genPkg genFields) w
        = (w', err) ∧
        code = match err with Some _ => 1 | None => 0 end)).
Proof.
  unfold rootCmd.
  destruct (Parse args RootFlags_zero) as [fl|] eqn:Hs;
    [|eexists _, _, _; split; [done|left; auto]].
  destruct (decide (flagOutput fl = EmptyString));
    [eexists _, _, _; split; [done|left; eauto 10]|].
  destruct (decide (flagPackage fl = EmptyString));
    [eexists _, _, _; split; [done|left; eauto 10]|].
  destruct (decide (flagFields fl = []));
    [eexists _, _, _; split; [done|left; eauto 10]|].
  pose proof (resolveFields_parsed (flagFields fl) [] ∅ {["context"]}
                (Parse_parsed _ _ _ _ (le_n _) Hs (Forall_nil_2 _))) as Hr.
  destruct (ParseFields order (flagPackage fl) version (flagFields fl))
    as [|[[genPkg genFields] [e|]]] eqn:HP.
  { revert HP. unfold ParseFields. destruct (resolveFields _ _ _ _) as [[gf sp]|e|];
      [|done..]. by destruct (Package_Validate _). }
  { eexists _, _, _; split; [done|left; split_and!; [done..|]].
    right. exists fl. split; [done|]. do 3 right. eauto. }
  destruct (generate _ _ _ _) as [w' [err|]] eqn:EG;
    (eexists _, _, _; split; [done|right]); by exists fl, genPkg, genFields.
Qed.

End command.

(** ** A run that writes a file *)

Section run.
Context `{CaseTables} `{GenValidate}.



End run.

(** ** Instances of the further theorems *)

Section further_instances.
Import utf8 strings.
Local Existing Instance asciiCase.
Local Existing Instance acceptAll.

Lemma NewField_accepted_witness :
  let f := {| Kind := FieldKindCustomType; Name := "User"; Type_ := "a/b.T" |} in
  NewField " user : a/b.T " = (f, None) ∧
  Validate (Some f) = None ∧ Name f ≠ "" ∧ TrimSpace (Type_ f) = Type_ f.
Proof.
  intros f.
  assert (NewField " user : a/b.T " = (f, None)) as HN by (vm_compute; reflexivity).
  split; [exact HN|].
  destruct (NewField_accepted _ _ HN) as (Hv & Hn & Ht & _).
  split; [exact Hv|]. split; [exact Hn|exact Ht].
Defined.

Lemma NewField_accepts_witness :
  (∀ r, unicode.MaxASCII < r → 0 ≤ upperCase r) ∧
  (NewField " : int").2 ≠ Some (errorsNew "name is required").
Proof.
  assert (∀ r, unicode.MaxASCII < r → 0 ≤ upperCase r) as Hup.
  { intros r Hr. unfold unicode.MaxASCII in Hr. simpl. unfold id. lia. }
  split; [exact Hup|].
  destruct (NewField_accepts " : int" Hup) as [Hn _]. exact Hn.
Defined.

Lemma FieldFlag_String_NewField_witness :
  let f := {| Kind := FieldKindCustomType; Name := "UserID"; Type_ := "a/b.T" |} in
  NewField " userID : a/b.T " = (f, None) ∧
  SplitN " userID : a/b.T " ":" 2 = [" userID "; " a/b.T "] ∧
  TrimSpace " userID " = String "u" "serID" ∧
  byte_val "u" < RuneSelf ∧
  NewField (FieldFlag_String (Some f)) = (f, None).
Proof.
  intros f.
  assert (NewField " userID : a/b.T " = (f, None)) as HN by (vm_compute; reflexivity).
  assert (SplitN " userID : a/b.T " ":" 2 = [" userID "; " a/b.T "]) as Hs
    by (vm_compute; reflexivity).
  assert (TrimSpace " userID " = String "u" "serID") as Ht by (vm_compute; reflexivity).
  assert (byte_val "u" < RuneSelf) as Hc by (vm_compute; reflexivity).
  split; [exact HN|]. split; [exact Hs|]. split; [exact Ht|]. split; [exact Hc|].
  exact (FieldFlag_String_NewField _ _ _ _ _ _ HN Hs Ht Hc).
Defined.

Lemma ParseFields_fields_witness :
  let fs := [flag "B:b/pkg.T"; flag "userID"] in
  let genPkg := {| gen.PackageName := "gen"; gen.ImportPackages := ["b/pkg"; "context"];
                   gen.Version := "v1" |} in
  let genFields :=
    [ {| gen.FieldName := "B"; gen.KeyName := "bKey"; gen.FieldType := "pkg.T";
         gen.packageAlias := Some "b/pkg" |};
      {| gen.FieldName := "UserID"; gen.KeyName := "userIDKey";
         gen.FieldType := "interface{}"; gen.packageAlias := None |} ] in
  ParseFields elements "gen" "v1" fs = Return (genPkg, genFields, None) ∧
  gen.FieldName <$> genFields = Name <$> fs ∧
  gen.KeyName <$> genFields = keyName ∘ Name <$> fs.
Proof.
  intros fs genPkg genFields.
  assert (ParseFields elements "gen" "v1" fs = Return (genPkg, genFields, None)) as HP
    by (vm_compute; reflexivity).
  split; [exact HP|].
  destruct (ParseFields_fields _ _ _ _ _ _ HP) as (H1 & H2 & _).
  split; [exact H1|exact H2].
Defined.

Lemma ParseFields_parsed_witness :
  Forall parsed [flag "B:b/pkg.T"; flag "userID"] ∧
  ∃ genPkg genFields err,
    ParseFields elements "gen" "v1" [flag "B:b/pkg.T"; flag "userID"]
    = Return (genPkg, genFields, err).
Proof.
  assert (Forall parsed [flag "B:b/pkg.T"; flag "userID"]) as Hp.
  { constructor; [|constructor; [|constructor]].
    - exists "B:b/pkg.T", None. vm_compute; reflexivity.
    - exists "userID", None. vm_compute; reflexivity. }
  split; [exact Hp|].
  exact (ParseFields_parsed elements "gen" "v1" _ Hp).
Defined.

Lemma ParseFields_first_failure_witness :
  let fs := [flag "userID"; flag "UserID:int"] in
  ParseFields elements "gen" "v1" fs
  = Return (gen.Package_zero, [], Some (errDuplicated "UserID")) ∧
  ((Forall passes fs ∧ NoDup (Name <$> fs) ∧
    Package_Validate
      {| gen.PackageName := "gen";
         gen.ImportPackages := sort_Strings (elements (pkgPaths fs ∪ {["context"]}));
         gen.Version := "v1" |} = Some (errDuplicated "UserID")) ∨
   ∃ pre f post,
     fs = pre ++ f :: post ∧ Forall passes pre ∧ NoDup (Name <$> pre) ∧
     ((errDuplicated "UserID" = ErrUnsupportedFlagFormat ∧ Kind f ≠ FieldKindDefault ∧
       Kind f ≠ FieldKindBuiltInOnly ∧ Kind f ≠ FieldKindCustomType) ∨
      (∃ g err, fieldOf f = Continue g ∧ Field_Validate g = Some err ∧
                errDuplicated "UserID" = errInvalidField (Name f) err) ∨
      (passes f ∧ Name f ∈ Name <$> pre ∧
       errDuplicated "UserID" = errDuplicated (Name f)))).
Proof.
  intros fs.
  assert (ParseFields elements "gen" "v1" fs
          = Return (gen.Package_zero, [], Some (errDuplicated "UserID"))) as HP
    by (vm_compute; reflexivity).
  split; [exact HP|].
  destruct (ParseFields_first_failure _ _ _ _ _ _ _ HP) as (_ & _ & Hc). exact Hc.
Defined.

Lemma KeyName_NoDup_witness :
  let values := ["B:b/pkg.T"; " userID "] in
  let fs := [ {| Kind := FieldKindCustomType; Name := "B"; Type_ := "b/pkg.T" |};
              {| Kind := FieldKindDefault; Name := "UserID"; Type_ := "" |} ] in
  let genPkg := {| gen.PackageName := "gen"; gen.ImportPackages := ["b/pkg"; "context"];
                   gen.Version := "v1" |} in
  let genFields :=
    [ {| gen.FieldName := "B"; gen.KeyName := "bKey"; gen.FieldType := "pkg.T";
         gen.packageAlias := Some "b/pkg" |};
      {| gen.FieldName := "UserID"; gen.KeyName := "userIDKey";
         gen.FieldType := "interface{}"; gen.packageAlias := None |} ] in
  Forall2 (λ value f, NewField value = (f, None) ∧ asciiName value) values fs ∧
  ParseFields elements "gen" "v1" fs = Return (genPkg, genFields, None) ∧
  NoDup (gen.KeyName <$> genFields).
Proof.
  intros values fs genPkg genFields.
  assert (Forall2 (λ value f, NewField value = (f, None) ∧ asciiName value) values fs)
    as Hv.
  { constructor; [split|constructor; [split|constructor]].
    - vm_compute; reflexivity.
    - exists "B"%string, ["b/pkg.T"%string], "B"%char, ""%string.
      split; [|split]; vm_compute; reflexivity.
    - vm_compute; reflexivity.
    - exists " userID "%string, [], "u"%char, "serID"%string.
      split; [|split]; vm_compute; reflexivity. }
  assert (ParseFields elements "gen" "v1" fs = Return (genPkg, genFields, None)) as HP
    by (vm_compute; reflexivity).
  split; [exact Hv|]. split; [exact HP|].
  exact (KeyName_NoDup _ _ _ _ _ _ _ Hv HP).
Defined.

Lemma NewField_trim_witness :
  SplitN " userID : a/b.T " ":" 2 = [" userID "; " a/b.T "] ∧
  NewField "userID:a/b.T" = NewField " userID : a/b.T ".
Proof.
  assert (SplitN " userID : a/b.T " ":" 2 = [" userID "; " a/b.T "]) as Hs
    by (vm_compute; reflexivity).
  split; [exact Hs|].
  exact (NewField_trim _ _ Hs).
Defined.

Lemma FieldFlags_Set_String_witness :
  let a := [ {| Kind := FieldKindDefault; Name := "UserID"; Type_ := "" |} ] in
  let a' := a ++ [ {| Kind := FieldKindBuiltInOnly; Name := "Count"; Type_ := "int" |} ] in
  FieldFlags_Set a " count:int" = (a', None) ∧
  ∃ f, NewField " count:int" = (f, None) ∧ a' = a ++ [f] ∧
    FieldFlags_String (Some a')
    = FieldFlags_String (Some a) +:+ "," +:+ FieldFlag_String (Some f).
Proof.
  intros a a'.
  assert (FieldFlags_Set a " count:int" = (a', None)) as HS by (vm_compute; reflexivity).
  split; [exact HS|].
  exact (FieldFlags_Set_String _ _ _ HS).
Defined.

Lemma SafeFile_Close_output_witness :
  let f := {| File_Name := "valctx-1"; File_closed := false;
              output := "out.go"; rmOnClose := false |} in
  let f' := {| File_Name := "valctx-1"; File_closed := true;
               output := "out.go"; rmOnClose := false |} in
  let fs : FileSystem := <["valctx-1" := "new"]> {["out.go" := "old"]} in
  let fs' : FileSystem := {["out.go" := "new"]} in
  File_Name f ≠ output f ∧
  SafeFile_Close (noFaults "valctx-1") f fs = (f', fs', None) ∧
  fs' !! output f = fs !! File_Name f ∧ fs' !! File_Name f = None.
Proof.
  intros f f' fs fs'.
  assert (File_Name f ≠ output f) as Hne by discriminate.
  assert (SafeFile_Close (noFaults "valctx-1") f fs = (f', fs', None)) as HC
    by (vm_compute; reflexivity).
  split; [exact Hne|]. split; [exact HC|].
  destruct (SafeFile_Close_output _ _ _ _ _ _ Hne HC) as (_ & _ & H3 & H4).
  split; [apply H3; reflexivity|apply H4; left; reflexivity].
Defined.

Lemma SafeFile_Close_twice_witness :
  let f := {| File_Name := "valctx-1"; File_closed := false;
              output := "out.go"; rmOnClose := false |} in
  let f' := {| File_Name := "valctx-1"; File_closed := true;
               output := "out.go"; rmOnClose := false |} in
  let fs : FileSystem := <["valctx-1" := "new"]> {["out.go" := "old"]} in
  let fs' : FileSystem := {["out.go" := "new"]} in
  let err := wrapped "close temporary file"
               (osError "close valctx-1: file already closed") in
  SafeFile_Close (noFaults "valctx-1") f fs = (f', fs', None) ∧
  SafeFile_Close (noFaults "valctx-1") f' fs' = (f', fs', Some err) ∧
  Some err = Some (wrapped "close temporary file"
                     (osError ("close " +:+ File_Name f +:+ ": file already closed"))) ∧
  fs' = fs'.
Proof.
  intros f f' fs fs' err.
  assert (SafeFile_Close (noFaults "valctx-1") f fs = (f', fs', None)) as H1
    by (vm_compute; reflexivity).
  assert (SafeFile_Close (noFaults "valctx-1") f' fs' = (f', fs', Some err)) as H2
    by (vm_compute; reflexivity).
  split; [exact H1|]. split; [exact H2|].
  destruct (SafeFile_Close_twice _ _ _ _ _ _ _ _ _ _ H1 H2) as (He & _ & Hs).
  split; [exact He|]. apply Hs; [discriminate|left; reflexivity].
Defined.


Lemma generate_calls_witness :
  let err := wrapped "generate" (osError "write") in
  generate (mockFile_methods None) (λ calls, (calls, inr ()))
    (λ _ calls, (calls, Some (osError "write"))) [] = ([CallClose], Some err) ∧
  [CallClose] = [] ++ [CallClose].
Proof.
  intros err.
  assert (generate (mockFile_methods None) (λ calls, (calls, inr ()))
            (λ _ calls, (calls, Some (osError "write"))) [] = ([CallClose], Some err))
    as HG by reflexivity.
  split; [exact HG|].
  destruct (generate_calls None None (Some (osError "write")) [] _ _ HG) as [Hc _].
  exact Hc.
Defined.

(** C5 as the spec states it fails: a flag whose field [Validate]
    rejects stops the resolution before the repeated name is reached,
    with an error that names that flag and not the duplicate. *)
Lemma duplicate_field_counterexample :
  let fs := [flag "Field2:strings"; flag "userID"; flag "UserID"] in
  Forall parsed fs ∧
  Name <$> fs = ["Field2"; "UserID"; "UserID"] ∧
  @ParseFields asciiCase (rejecting "strings") elements "gen" "" fs
  = Return (gen.Package_zero, [],
            Some (errInvalidField "Field2" (errorsNew "invalid type"))) ∧
  errInvalidField "Field2" (errorsNew "invalid type") ≠ errDuplicated "UserID".
Proof.
  intros fs. split; [|vm_compute; repeat split; discriminate || reflexivity].
  constructor; [|constructor; [|constructor; [|constructor]]].
  - exists "Field2:strings", None. vm_compute; reflexivity.
  - exists "userID", None. vm_compute; reflexivity.
  - exists "UserID", None. vm_compute; reflexivity.
Qed.

Lemma duplicate_field_witness :
  Forall parsed ([flag "userID"] ++ flag "UserID" :: []) ∧
  NoDup (Name <$> [flag "userID"]) ∧
  Name (flag "UserID") ∈ Name <$> [flag "userID"] ∧
  Forall passes ([flag "userID"] ++ [flag "UserID"]) ∧
  ParseFields elements "gen" "" ([flag "userID"] ++ flag "UserID" :: [])
  = Return (gen.Package_zero, [], Some (errDuplicated "UserID")).
Proof.
  assert (Forall parsed ([flag "userID"] ++ flag "UserID" :: [])) as Hfs.
  { constructor; [|constructor; [|constructor]].
    - exists "userID", None. vm_compute; reflexivity.
    - exists "UserID", None. vm_compute; reflexivity. }
  assert (NoDup (Name <$> [flag "userID"])) as Hnd.
  { apply NoDup_singleton. }
  assert (Name (flag "UserID") ∈ Name <$> [flag "userID"]) as Hin.
  { apply list_elem_of_singleton. vm_compute. reflexivity. }
  assert (Forall passes ([flag "userID"] ++ [flag "UserID"])) as Hp.
  { constructor; [|constructor; [|constructor]];
      (exists {| gen.FieldName := "UserID"; gen.KeyName := "userIDKey";
                 gen.FieldType := "interface{}"; gen.packageAlias := None |});
      split; vm_compute; reflexivity. }
  split; [exact Hfs|]. split; [exact Hnd|]. split; [exact Hin|]. split; [exact Hp|].
  destruct (duplicate_field elements "gen" "" [flag "userID"] (flag "UserID") []
              Hfs Hnd Hin) as (_ & Hd & _).
  rewrite (Hd Hp). vm_compute. reflexivity.
Defined.

(** C8 as the spec states it fails: [ParseFields] hands the emitter
    the same field for a flag without a type and for the flag
    declared with the type [interface{}], so that the two get the same
    getter, whatever the template is; in the model it is the getter
    without a presence flag. *)
Lemma getter_presence_flag_counterexample :
  NewField "x:interface{}"
  = ({| Kind := FieldKindBuiltInOnly; Name := "X"; Type_ := "interface{}" |}, None) ∧
  NewField "x" = ({| Kind := FieldKindDefault; Name := "X"; Type_ := "" |}, None) ∧
  (∀ (V : GenValidate) order pkg version,
     @ParseFields asciiCase V order pkg version [flag "x:interface{}"]
     = @ParseFields asciiCase V order pkg version [flag "x"]) ∧
  generated elements "gen" "" ["x:interface{}"]
  = Some (lines [
      "// Code generated by valctx . DO NOT EDIT.";
      "";
      "package gen";
      "";
      "import (";
      "    " +:+ gen.quote_ +:+ "context" +:+ gen.quote_;
      ")";
      "";
      "type xKey struct{}";
      "";
      "// Get X retrieves the X from the context.";
      "func GetX(ctx context.Context) interface{} {";
      "    v := ctx.Value(xKey{})";
      "    return v";
      "}";
      "";
      "// SetX sets the X in the context.";
      "func SetX(ctx context.Context, v interface{}) context.Context {";
      "    return context.WithValue(ctx, xKey{}, v)";
      "}"]).
Proof.
  split; [vm_compute; reflexivity|]. split; [vm_compute; reflexivity|].
  split; [|vm_compute; reflexivity].
  intros V order pkg version.
  assert (fieldOf (flag "x:interface{}") = fieldOf (flag "x")) as Hf
    by (vm_compute; reflexivity).
  assert (Name (flag "x:interface{}") = Name (flag "x")) as Hn
    by (vm_compute; reflexivity).
  assert (pathOf (flag "x:interface{}") = pathOf (flag "x")) as Hp
    by (vm_compute; reflexivity).
  unfold ParseFields. by rewrite !resolveFields_cons, Hf, Hn, Hp.
Qed.

Lemma getter_presence_flag_witness :
  let f := {| Kind := FieldKindBuiltInOnly; Name := "Field1"; Type_ := "int" |} in
  let text := lines [
      "// Code generated by valctx . DO NOT EDIT.";
      "";
      "package gen";
      "";
      "import (";
      "    " +:+ gen.quote_ +:+ "context" +:+ gen.quote_;
      ")";
      "";
      "type field1Key struct{}";
      "";
      "// Get Field1 retrieves the Field1 from the context.";
      "func GetField1(ctx context.Context) (int, bool) {";
      "    v, ok := ctx.Value(field1Key{}).(int)";
      "    return v, ok";
      "}";
      "";
      "// SetField1 sets the Field1 in the context.";
      "func SetField1(ctx context.Context, v int) context.Context {";
      "    return context.WithValue(ctx, field1Key{}, v)";
      "}"] in
  generated elements "gen" "" ["field1:int"] = Some text ∧
  "field1:int" ∈ ["field1:int"] ∧ NewField "field1:int" = (f, None) ∧
  emittedType f ≠ "interface{}" ∧
  Contains text (getterPair "Field1" "field1Key" "int").
Proof.
  intros f text.
  assert (generated elements "gen" "" ["field1:int"] = Some text) as Hg
    by (vm_compute; reflexivity).
  assert ("field1:int" ∈ ["field1:int"]) as Hin by (apply list_elem_of_singleton; reflexivity).
  assert (NewField "field1:int" = (f, None)) as HN by (vm_compute; reflexivity).
  assert (emittedType f ≠ "interface{}") as Ht by (vm_compute; discriminate).
  split; [exact Hg|]. split; [exact Hin|]. split; [exact HN|]. split; [exact Ht|].
  destruct (getter_presence_flag _ _ _ _ _ _ _ Hg Hin HN) as (_ & _ & Hpair & _).
  exact (Hpair Ht).
Defined.

(** TestRun, "unknown flag & root cmd", "unknown command" and
    "root cmd & missed output": a flag that is not defined makes
    [Parse] fail, an argument that is no flag ends the flags. *)
Example Parse_undefined_flag :
  Parse ["-output"; "output.go"; "-package"; "gen"; "-field"; "UserID";
         "--undefined-flag"; "value"] RootFlags_zero = None.
Proof. vm_compute. reflexivity. Qed.

Example Parse_unknown_command : Parse ["cmd"] RootFlags_zero = Some RootFlags_zero.
Proof. vm_compute. reflexivity. Qed.

Example Parse_flags :
  Parse ["--package=gen"; "-field"; "userID"; "-field=ids:[]string"; "-output"; "out.go";
         "--"; "-field"; "x"] RootFlags_zero
  = Some {| flagOutput := "out.go"; flagPackage := "gen";
            flagFields := [ {| Kind := FieldKindDefault; Name := "UserID"; Type_ := "" |};
                            {| Kind := FieldKindBuiltInOnly; Name := "Ids";
                               Type_ := "[]string" |} ] |}.
Proof. vm_compute. reflexivity. Qed.

Example Parse_missing_value : Parse ["-output"] RootFlags_zero = None.
Proof. vm_compute. reflexivity. Qed.

End further_instances.
